(** * slang: built-in string methods and elaboration visitors

    A shallow embedding of
    - [source/compilation/builtins/StringMethods.cpp]
      (the methods [len], [putc], [getc], [toupper], [tolower], [compare],
      [icompare], [substr] and [atoi], [atohex], [atooct], [atobin]), and
    - [source/ast/ElabVisitors.h]
      ([DiagnosticVisitor], [BindVisitor], [DefParamVisitor]),
    together with the properties of them that the specification states
    and further properties that the code shows. *)

From Stdlib Require Import ZArith List String Ascii Bool Lia.
From stdpp Require Import base gmap sets list.

Set Warnings "-register-all,-clear-no-such-hyp".
Local Open Scope Z_scope.

(* ===================================================================== *)
(** * Built-in string methods                                             *)
(* ===================================================================== *)

Module StringMethods.

Local Open Scope string_scope.
Local Open Scope Z_scope.

(** A [std::string] is a sequence of bytes; [string] of [ascii] is exactly
    that.  [uchar c] is the byte read as [unsigned char], [schar c] the
    byte read through a [const char*] and promoted to [int] (plain [char]
    is signed on the x86-64 System V target). *)
Definition uchar (c : ascii) : Z := Z.of_N (N_of_ascii c).

Definition schar (c : ascii) : Z :=
  let u := uchar c in if u <? 128 then u else u - 256.

(** [std::tolower] in the "C" locale: of the values of [unsigned char]
    only 'A'..'Z' are mapped.  The loop of [icompare] hands it a plain
    [char], which is negative for a byte above 0x7F.  ISO C leaves the
    call undefined for a negative value other than [EOF]; the table that
    glibc's [tolower] reads has entries from -128 on, which give -128..-2
    as the byte read unsigned, 128..254, and -1 ([EOF]) as -1. *)
Definition tolower (c : Z) : Z :=
  if (65 <=? c) && (c <=? 90) then c + 32
  else if (-128 <=? c) && (c <=? -2) then c + 256
  else c.

(** [SVInt(32, uint64_t(v), true)]: the low 32 bits of [v], read as a
    signed two's complement number. *)
Definition SVInt32 (v : Z) : Z := (v + 2 ^ 31) mod 2 ^ 32 - 2 ^ 31.

(** ** [StringCompareMethod] *)

(** Reading through and stepping a pointer into the buffer of [c_str()]: the buffer
    is the contents followed by a terminating NUL. *)
Definition deref (p : string) : Z :=
  match p with
  | EmptyString => 0
  | String c _ => schar c
  end.

Definition next (p : string) : string :=
  match p with
  | EmptyString => EmptyString
  | String _ t => t
  end.

(** The loop of the [ignoreCase] branch.  Each round stores in [result]
    the difference of the two current characters, both lowered, and steps
    [p2]; a difference other than zero leaves the loop.  On a zero
    difference the loop breaks when the character under [p1] is NUL and
    otherwise steps [p1] and goes round again.  The function returns the
    value [result] holds when the loop is left. *)
Fixpoint icompare_loop (p1 p2 : string) : Z :=
  let result := tolower (deref p1) - tolower (deref p2) in
  if result =? 0 then
    match p1 with
    | EmptyString => result
    | String c t => if schar c =? 0 then result else icompare_loop t (next p2)
    end
  else result.

(** [std::string::compare]: [traits_type::compare] over the common length
    (bytes compared as [unsigned char]), and the difference of the lengths
    when that is a tie.  Only the sign of the result is fixed by the
    standard; the caller below only looks at the sign. *)
Fixpoint std_string_compare (lhs rhs : string) : Z :=
  match lhs, rhs with
  | EmptyString, EmptyString => 0
  | EmptyString, String _ _ => - Z.of_nat (String.length rhs)
  | String _ _, EmptyString => Z.of_nat (String.length lhs)
  | String a l, String b r =>
      if uchar a =? uchar b then std_string_compare l r else uchar a - uchar b
  end.

(** [StringCompareMethod::eval]; [None] is the unassigned constant. *)
Definition StringCompareMethod_eval (ignoreCase : bool)
    (lhsCv rhsCv : option string) : option Z :=
  match lhsCv, rhsCv with
  | Some lhs, Some rhs =>
      let result :=
        if ignoreCase then icompare_loop lhs rhs
        else
          let result := std_string_compare lhs rhs in
          if result <? 0 then -1
          else if 0 <? result then 1
          else result in
      Some (SVInt32 result)
  | _, _ => None
  end.

Definition compare := StringCompareMethod_eval false.
Definition icompare := StringCompareMethod_eval true.

(** ** [StringAtoIMethod] *)

(** [str.erase(std::remove(str.begin(), str.end(), '_'), str.end())] *)
Fixpoint remove_underscores (s : string) : string :=
  match s with
  | EmptyString => EmptyString
  | String c t =>
      if Ascii.eqb c "_" then remove_underscores t
      else String c (remove_underscores t)
  end.

(** [strtol(str, nullptr, base)] for [2 <= base <= 36], as ISO C defines
    it: white space is skipped, an optional sign is read, for base 16 an
    optional "0x"/"0X" is skipped, then the longest run of digits of the
    base is converted; a value out of the range of [long] is replaced by
    [LONG_MAX] or [LONG_MIN].  [long] has 64 bits (LP64). *)
Definition LONG_MAX : Z := 2 ^ 63 - 1.
Definition LONG_MIN : Z := - 2 ^ 63.

Definition isspace (c : ascii) : bool :=
  let u := uchar c in (u =? 32) || ((9 <=? u) && (u <=? 13)).

Definition digit_of (c : ascii) : option Z :=
  let u := uchar c in
  if (48 <=? u) && (u <=? 57) then Some (u - 48)
  else if (97 <=? u) && (u <=? 122) then Some (u - 97 + 10)
  else if (65 <=? u) && (u <=? 90) then Some (u - 65 + 10)
  else None.

Definition digit_in (base : Z) (c : ascii) : option Z :=
  match digit_of c with
  | Some d => if d <? base then Some d else None
  | None => None
  end.

Fixpoint skip_space (s : string) : string :=
  match s with
  | String c t => if isspace c then skip_space t else s
  | EmptyString => s
  end.

Definition read_sign (s : string) : bool * string :=
  match s with
  | String "-" t => (true, t)
  | String "+" t => (false, t)
  | _ => (false, s)
  end.

Definition skip_hex_prefix (base : Z) (s : string) : string :=
  match s with
  | String "0" (String c t) =>
      if (base =? 16) && (Ascii.eqb c "x" || Ascii.eqb c "X") then t else s
  | _ => s
  end.

Fixpoint read_digits (base : Z) (acc : Z) (s : string) : Z :=
  match s with
  | EmptyString => acc
  | String c t =>
      match digit_in base c with
      | Some d => read_digits base (acc * base + d) t
      | None => acc
      end
  end.

Definition strtol (s : string) (base : Z) : Z :=
  let (neg, s1) := read_sign (skip_space s) in
  let magnitude := read_digits base 0 (skip_hex_prefix base s1) in
  let value := if neg then - magnitude else magnitude in
  Z.max LONG_MIN (Z.min LONG_MAX value).

(** [StringAtoIMethod::eval] *)
Definition StringAtoIMethod_eval (base : Z) (cv : option string) : option Z :=
  match cv with
  | None => None
  | Some str =>
      let str := remove_underscores str in
      let result := strtol str base in
      Some (SVInt32 result)
  end.

(** The four registrations of [registerStringMethods]. *)
Definition atoi := StringAtoIMethod_eval 10.
Definition atohex := StringAtoIMethod_eval 16.
Definition atooct := StringAtoIMethod_eval 8.
Definition atobin := StringAtoIMethod_eval 2.

(** ** [StringLenMethod], [StringGetcMethod], [StringPutcMethod] *)

(** [SVInt(8, v, false)]: the low 8 bits of [v], unsigned. *)
Definition SVInt8 (v : Z) : Z := v mod 2 ^ 8.

(** [uint64_t(x)] of a signed [x]. *)
Definition to_uint64 (v : Z) : Z := v mod 2 ^ 64.

(** [str.length()] *)
Definition length_of (str : string) : Z := Z.of_nat (String.length str).

(** [str[i]] for an index inside the string (NUL stands for the
    terminator, which no caller below reads). *)
Definition char_at (str : string) (i : nat) : ascii :=
  default "000"%char (String.get i str).

(** [StringLenMethod::eval] *)
Definition StringLenMethod_eval (val : option string) : option Z :=
  match val with
  | None => None
  | Some str => Some (SVInt32 (length_of str))
  end.

(** [StringGetcMethod::eval]; [index] is the [int32_t] read from the
    argument. *)
Definition StringGetcMethod_eval (strCv : option string) (indexCv : option Z)
    : option Z :=
  match strCv, indexCv with
  | Some str, Some index =>
      if (index <? 0) || (length_of str <=? index) then Some (SVInt8 0)
      else Some (SVInt8 (to_uint64 (schar (char_at str (Z.to_nat index)))))
  | _, _ => None
  end.

(** [strCv.selectRange({index, index}).store(SVInt(8, c, false))]: the one
    byte at [index] is replaced. *)
Fixpoint store_byte (str : string) (index : nat) (c : ascii) : string :=
  match str, index with
  | EmptyString, _ => EmptyString
  | String _ t, O => String c t
  | String a t, S index' => String a (store_byte t index' c)
  end.

(** [StringPutcMethod::eval].  The method returns nothing; the result here
    is the value the receiver holds after the call ([None]: the receiver
    could not be evaluated).  [c] is the [uint8_t] read from the
    argument. *)
Definition StringPutcMethod_eval (strCv : option string) (indexCv : option Z)
    (charCv : option ascii) : option string :=
  match strCv, indexCv, charCv with
  | Some str, Some index, Some c =>
      if (uchar c =? 0) || (index <? 0) || (length_of str <=? index)
      then Some str
      else Some (store_byte str (Z.to_nat index) c)
  | _, _, _ => strCv
  end.

(** ** [StringUpperLowerMethod] *)

(** [std::toupper] in the "C" locale; it is only ever handed a value of
    [unsigned char]. *)
Definition toupper (c : Z) : Z :=
  if (97 <=? c) && (c <=? 122) then c - 32 else c.

(** The [int] a transformation returns, stored back into a [char]. *)
Definition char_of_int (v : Z) : ascii := ascii_of_N (Z.to_N (v mod 2 ^ 8)).

(** [std::transform] over the string with a function of the byte read as
    [unsigned char]. *)
Fixpoint transform (f : Z -> Z) (str : string) : string :=
  match str with
  | EmptyString => EmptyString
  | String c t => String (char_of_int (f (uchar c))) (transform f t)
  end.

(** [StringUpperLowerMethod::eval] *)
Definition StringUpperLowerMethod_eval (upper : bool) (val : option string)
    : option string :=
  match val with
  | None => None
  | Some str => Some (if upper then transform toupper str
                      else transform tolower str)
  end.

Definition toupper_method := StringUpperLowerMethod_eval true.
Definition tolower_method := StringUpperLowerMethod_eval false.

(** ** [StringSubstrMethod] *)

(** [str.substr(pos, count)] for [pos <= str.length()]: at most [count]
    bytes from [pos], fewer when the string ends first. *)
Definition std_substr (str : string) (pos count : Z) : string :=
  String.substring (Z.to_nat pos)
    (Z.to_nat (Z.min count (length_of str - pos))) str.

(** [StringSubstrMethod::eval]; [left_] and [right_] are the [int32_t]
    values [left] and [right] read from the arguments, [count] is
    computed in [int32_t] and converted to [size_t]. *)
Definition StringSubstrMethod_eval (strCv : option string)
    (leftCv rightCv : option Z) : option string :=
  match strCv, leftCv, rightCv with
  | Some str, Some left_, Some right_ =>
      if (left_ <? 0) || (right_ <? left_) || (length_of str <=? right_)
      then Some ""
      else
        let count := SVInt32 (right_ - left_ + 1) in
        Some (std_substr str left_ (to_uint64 count))
  | _, _, _ => None
  end.

Definition len := StringLenMethod_eval.
Definition getc := StringGetcMethod_eval.
Definition putc := StringPutcMethod_eval.
Definition substr := StringSubstrMethod_eval.

(** ** Reference notions for the statements about [atoi] *)

(** The number a run of digits and underscores denotes in [base]. *)
Fixpoint digitsValue (base : Z) (acc : Z) (s : string) : Z :=
  match s with
  | EmptyString => acc
  | String c t =>
      if Ascii.eqb c "_" then digitsValue base acc t
      else digitsValue base (acc * base + default 0 (digit_of c)) t
  end.

(** [s] is made of digits of [base] and underscores only. *)
Fixpoint digitRun (base : Z) (s : string) : bool :=
  match s with
  | EmptyString => true
  | String c t =>
      (Ascii.eqb c "_" || bool_decide (digit_in base c ≠ None))
      && digitRun base t
  end.

(** [s] starts with a digit of [base]. *)
Definition startsWithDigit (base : Z) (s : string) : bool :=
  match s with
  | EmptyString => false
  | String c _ => bool_decide (digit_in base c ≠ None)
  end.

(** What follows the digits ends the number: nothing, or a character that
    is neither a digit of [base], nor an underscore, nor the letter of the
    hexadecimal prefix. *)
Definition endsNumber (base : Z) (s : string) : bool :=
  match s with
  | EmptyString => true
  | String c _ =>
      bool_decide (digit_in base c = None)
      && negb (Ascii.eqb c "_")
      && negb ((base =? 16) && (Ascii.eqb c "x" || Ascii.eqb c "X"))
  end.



(** White space only. *)
Fixpoint allSpace (s : string) : bool :=
  match s with
  | EmptyString => true
  | String c t => isspace c && allSpace t
  end.

(** The text of a sign: none, plus or minus. *)
Definition signText (sign : option bool) : string :=
  match sign with
  | None => ""
  | Some false => "+"
  | Some true => "-"
  end.

Definition isNegative (sign : option bool) : bool :=
  match sign with
  | Some true => true
  | _ => false
  end.

(** The prefix [strtol] skips for base 16, in either case of the letter. *)
Definition hexPrefix (capital : bool) : string := if capital then "0X" else "0x".

(** What [strtol] makes of a magnitude read after a sign. *)
Definition saturate (negative : bool) (magnitude : Z) : Z :=
  Z.max LONG_MIN (Z.min LONG_MAX (if negative then - magnitude else magnitude)).

End StringMethods.

(* ===================================================================== *)
(** * The symbol tree the visitors walk                                   *)
(* ===================================================================== *)

Module Ast.

Local Open Scope nat_scope.

(** Identities.  The visitors only ever compare addresses
    ([const Definition*], [const InstanceBodySymbol*], [const Type*],
    [const Symbol*]); a number stands for each address. *)
Abbreviation DefinitionId := nat (only parsing).
Abbreviation BodyId := nat (only parsing).
Abbreviation ClassId := nat (only parsing).
Abbreviation TypeId := nat (only parsing).
Abbreviation SymbolId := nat (only parsing).
Abbreviation SourceLocation := nat (only parsing).

(** ** Diagnostics *)

Inductive DiagCode :=
| InfinitelyRecursiveHierarchy
| MaxInstanceDepthExceeded
| Propagated (code : nat).

Inductive DiagArg :=
| ArgString (s : string)
| ArgNumber (n : nat).

Record Diagnostic := mkDiagnostic {
  diagCode : DiagCode;
  diagLocation : SourceLocation;
  diagArgs : list DiagArg;
  diagIsError : bool
}.

(** A diagnostic that a collaborator (type checking, name resolution,
    constant evaluation) reports while a lazy member is resolved.  Its code
    is never one of the two structural codes, which only the elaboration
    visitor issues. *)
Record Reported := mkReported {
  repCode : nat;
  repLocation : SourceLocation;
  repIsError : bool
}.

Definition diagOfReported (r : Reported) : Diagnostic :=
  mkDiagnostic (Propagated (repCode r)) (repLocation r) [] (repIsError r).

(** Modelled from the spec: the lazily resolved member of a symbol
    (declared type, initializer, value, attribute value, connection
    expression, ...), whose resolver is not part of these sources.  It is a
    two-state cell: the first request resolves it, which may report
    diagnostics and may create specializations of generic classes; later
    requests return the memoized result and do nothing. *)
Record Lazy := mkLazy {
  lazyId : nat;
  lazyDiags : list Reported;
  lazySpecs : list (ClassId * TypeId)
}.

(** ** Symbols *)

(** The kinds of node the visitors meet ([Parameter_], [Variable_] and
    [Property_] carry an underscore because the plain words are reserved).
    Instances, generate blocks and method prototypes are constructors of
    their own in [Symbol] below; the kinds [GenerateBlock] and
    [MethodPrototype] are what their handlers pass to [handleDefault]. *)
Inductive SymbolKind :=
| Root | CompilationUnit | Package | InstanceBody | InstanceArray
| GenerateBlockArray | Parameter_ | EnumValue | Specparam | Variable_
| ExplicitImport | WildcardImport | InterfacePort | Port | MultiPort
| ContinuousAssign | ElabSystemTask | GenericClassDef | NetType
| GenerateBlock | MethodPrototype
| ClassType | CovergroupType | Coverpoint | CoverCross | CoverageBin
| Net | ConstraintBlock | UnknownModule | PrimitiveInstance
| ClockingBlock | Subroutine | DefParam | Sequence | Property_ | LetDecl
| RandSeqProduction | TimingPath | PulseStyle | SystemTimingCheck
| ProceduralBlock | Statement | Expression.

(** [std::is_base_of_v<Symbol, T>]: statements and expressions are visited
    by the same visitor but are not symbols. *)
Definition isSymbol (k : SymbolKind) : bool :=
  match k with
  | Statement | Expression => false
  | _ => true
  end.

Record DeclaredType := mkDeclaredType {
  dtType : Lazy;
  dtInitializer : Lazy
}.

(** What [getBody()] gives, for the kinds that have one. *)
Inductive BodyState := NoBody | BadBody | GoodBody.

Record NodeData := mkNodeData {
  symId : SymbolId;
  declaredType : option DeclaredType;     (* getDeclaredType() *)
  symValue : list Lazy;                   (* getValue() of a parameter,
                                             enum value or specparam *)
  attributes : list Lazy;                 (* compilation.getAttributes *)
  getters : list Lazy;                    (* the members the handler of the
                                             kind requests, in its order *)
  interfaceDef : option DefinitionId;     (* InterfacePortSymbol *)
  modportConnection : option (Lazy * option SymbolId);
                                          (* modport not empty: the
                                             connection, and the modport
                                             symbol it leads to if any *)
  isDPIImport : bool;                     (* MethodFlags::DPIImport *)
  isInterfaceExtern : bool                (* MethodFlags::InterfaceExtern *)
}.

Record PortConnection := mkPortConnection {
  connExpression : Lazy;
  connSimulatedNetTypes : Lazy;
  connAttributes : list Lazy
}.

Record InstanceData := mkInstanceData {
  instId : SymbolId;
  instName : string;
  instLocation : SourceLocation;
  instDefinition : DefinitionId;
  instDefinitionKind : string;            (* getDefinition().getKindString() *)
  instBody : BodyId;
  instAttributes : list Lazy;
  instConnections : list PortConnection
}.

Inductive Symbol :=
| InstanceSymbol (i : InstanceData)
| GenerateBlockSymbol (isInstantiated : bool) (d : NodeData)
    (members : list Symbol)
| MethodPrototypeSymbol (d : NodeData) (members : list Symbol)
    (subroutine : option Symbol)
| Node (k : SymbolKind) (d : NodeData) (body : BodyState)
    (bodyNodes : list Symbol) (members : list Symbol).

(** The height of a tree of symbols; the body of an instance is not part
    of the tree, the instance refers to it. *)
Fixpoint height (s : Symbol) : nat :=
  let heights :=
    fix heights (l : list Symbol) : nat :=
      match l with
      | [] => 0
      | x :: rest => Nat.max (height x) (heights rest)
      end in
  match s with
  | InstanceSymbol _ => 1
  | GenerateBlockSymbol _ _ members => S (heights members)
  | MethodPrototypeSymbol _ members subroutine =>
      S (Nat.max (heights members)
           match subroutine with
           | Some sub => height sub
           | None => 0
           end)
  | Node _ _ _ bodyNodes members =>
      S (Nat.max (heights bodyNodes) (heights members))
  end.

Fixpoint heights (l : list Symbol) : nat :=
  match l with
  | [] => 0
  | x :: rest => Nat.max (height x) (heights rest)
  end.

(** The parts of the design that the compilation owns and the visitors
    reach through a reference: the body of every instance, the class type
    of every specialization, and the invalid specialization that
    [getInvalidSpecialization] makes for a generic class. *)
Record Design := mkDesign {
  bodyData : BodyId -> NodeData;
  bodyMembers : BodyId -> list Symbol;
  specType : TypeId -> Symbol;
  invalidSpecialization : ClassId -> Symbol
}.

(** ** The compilation: diagnostic sink, lazy cells, specializations *)

(** Modelled from the spec: the diagnostic sink of the compilation (an
    ordered, append-only collection with the live count of errors that the
    elaborator reads), the resolved state of the lazy cells and the
    specializations of the generic classes, in the order they were made. *)
Record Compilation := mkCompilation {
  diags : list Diagnostic;
  numErrors : nat;
  resolved : gset nat;
  specializations : gmap nat (list nat)
}.

Definition addDiag (d : Diagnostic) (c : Compilation) : Compilation :=
  mkCompilation (diags c ++ [d])
    (if diagIsError d then S (numErrors c) else numErrors c)
    (resolved c) (specializations c).

Definition specializationsOf (cls : ClassId) (c : Compilation) : list TypeId :=
  default [] (specializations c !! cls).

Definition addSpecialization (cs : ClassId * TypeId) (c : Compilation)
    : Compilation :=
  let specs := specializationsOf cs.1 c in
  if decide (cs.2 ∈ specs) then c
  else mkCompilation (diags c) (numErrors c) (resolved c)
         (<[cs.1 := specs ++ [cs.2]]> (specializations c)).

Definition force (l : Lazy) (c : Compilation) : Compilation :=
  if decide (lazyId l ∈ resolved c) then c
  else
    let c1 := mkCompilation (diags c) (numErrors c)
                ({[lazyId l]} ∪ resolved c) (specializations c) in
    let c2 := foldl (fun c r => addDiag (diagOfReported r) c) c1 (lazyDiags l) in
    foldl (fun c cs => addSpecialization cs c) c2 (lazySpecs l).

Definition forceAll (ls : list Lazy) (c : Compilation) : Compilation :=
  foldl (fun c l => force l c) c ls.

Definition emptyCompilation : Compilation := mkCompilation [] 0 ∅ ∅.

End Ast.

(* ===================================================================== *)
(** * [DiagnosticVisitor]                                                 *)
(* ===================================================================== *)

Module DiagnosticVisitor.

Import Ast.
Local Open Scope nat_scope.

(** History variable: the two ways an instance that passed the guard at
    the top of its handler leaves the checks that follow.  No code reads
    it; it lets the theorems count entries. *)
Inductive Event :=
| Entered (def : DefinitionId) (body : BodyId)
| Rejected (def : DefinitionId) (body : BodyId).

(** The members of the visitor.  [compilation] stands for the reference to
    the compilation, whose live error count is the [numErrors] the visitor
    was constructed with.  ([timingPathMap] is only handed to the checks of
    timing paths, which are among the [getters] of those symbols.) *)
Record Visitor := mkVisitor {
  compilation : Compilation;
  hierarchyProblem : bool;
  instanceCount : gmap nat nat;
  activeInstanceBodies : gset nat;
  usedIfacePorts : gset nat;
  genericClasses : list ClassId;
  dpiImports : list SymbolId;
  externIfaceProtos : list SymbolId;
  modportsWithExports : list (SymbolId * SymbolId);
  history : list Event
}.

Definition newVisitor (c : Compilation) : Visitor :=
  mkVisitor c false ∅ ∅ ∅ [] [] [] [] [].

Definition onCompilation (f : Compilation -> Compilation) (v : Visitor) : Visitor :=
  mkVisitor (f (compilation v)) (hierarchyProblem v) (instanceCount v)
    (activeInstanceBodies v) (usedIfacePorts v) (genericClasses v)
    (dpiImports v) (externIfaceProtos v) (modportsWithExports v) (history v).

Definition setHierarchyProblem (v : Visitor) : Visitor :=
  mkVisitor (compilation v) true (instanceCount v)
    (activeInstanceBodies v) (usedIfacePorts v) (genericClasses v)
    (dpiImports v) (externIfaceProtos v) (modportsWithExports v) (history v).

Definition countInstance (def : DefinitionId) (v : Visitor) : Visitor :=
  mkVisitor (compilation v) (hierarchyProblem v)
    (<[def := S (default 0 (instanceCount v !! def))]> (instanceCount v))
    (activeInstanceBodies v) (usedIfacePorts v) (genericClasses v)
    (dpiImports v) (externIfaceProtos v) (modportsWithExports v) (history v).

Definition setActive (a : gset nat) (v : Visitor) : Visitor :=
  mkVisitor (compilation v) (hierarchyProblem v) (instanceCount v)
    a (usedIfacePorts v) (genericClasses v)
    (dpiImports v) (externIfaceProtos v) (modportsWithExports v) (history v).

Definition useIfacePort (def : DefinitionId) (v : Visitor) : Visitor :=
  mkVisitor (compilation v) (hierarchyProblem v) (instanceCount v)
    (activeInstanceBodies v) ({[def]} ∪ usedIfacePorts v) (genericClasses v)
    (dpiImports v) (externIfaceProtos v) (modportsWithExports v) (history v).

Definition pushGenericClass (c : ClassId) (v : Visitor) : Visitor :=
  mkVisitor (compilation v) (hierarchyProblem v) (instanceCount v)
    (activeInstanceBodies v) (usedIfacePorts v) (genericClasses v ++ [c])
    (dpiImports v) (externIfaceProtos v) (modportsWithExports v) (history v).

Definition pushDpiImport (s : SymbolId) (v : Visitor) : Visitor :=
  mkVisitor (compilation v) (hierarchyProblem v) (instanceCount v)
    (activeInstanceBodies v) (usedIfacePorts v) (genericClasses v)
    (dpiImports v ++ [s]) (externIfaceProtos v) (modportsWithExports v)
    (history v).

Definition pushExternIfaceProto (s : SymbolId) (v : Visitor) : Visitor :=
  mkVisitor (compilation v) (hierarchyProblem v) (instanceCount v)
    (activeInstanceBodies v) (usedIfacePorts v) (genericClasses v)
    (dpiImports v) (externIfaceProtos v ++ [s]) (modportsWithExports v)
    (history v).

Definition pushModportWithExports (p : SymbolId * SymbolId) (v : Visitor)
    : Visitor :=
  mkVisitor (compilation v) (hierarchyProblem v) (instanceCount v)
    (activeInstanceBodies v) (usedIfacePorts v) (genericClasses v)
    (dpiImports v) (externIfaceProtos v) (modportsWithExports v ++ [p])
    (history v).

Definition record (e : Event) (v : Visitor) : Visitor :=
  mkVisitor (compilation v) (hierarchyProblem v) (instanceCount v)
    (activeInstanceBodies v) (usedIfacePorts v) (genericClasses v)
    (dpiImports v) (externIfaceProtos v) (modportsWithExports v)
    (history v ++ [e]).

(** Visiting a sequence of nodes in order; [None] is running out of fuel. *)
Fixpoint visitAll (visit : Symbol -> Visitor -> option Visitor)
    (l : list Symbol) (v : Visitor) : option Visitor :=
  match l with
  | [] => Some v
  | s :: rest =>
      match visit s v with
      | Some v' => visitAll visit rest v'
      | None => None
      end
  end.

Section Handlers.

Context (design : Design).
Context (errorLimit maxInstanceDepth : nat).

(** [numErrors > errorLimit || hierarchyProblem] *)
Definition shortCircuit (v : Visitor) : bool :=
  (errorLimit <? numErrors (compilation v)) || hierarchyProblem v.

(** The lazy members [handleDefault] requests, in its order. *)
Definition defaultLazies (k : SymbolKind) (d : NodeData) : list Lazy :=
  if isSymbol k then
    match declaredType d with
    | Some dt => [dtType dt; dtInitializer dt]
    | None => []
    end
    ++ match k with
       | Parameter_ | EnumValue | Specparam => symValue d
       | _ => []
       end
    ++ attributes d
  else [].

(** [handleDefault]: the result carries the [bool] it returns. *)
Definition handleDefault (visit : Symbol -> Visitor -> option Visitor)
    (k : SymbolKind) (d : NodeData) (body : BodyState)
    (bodyNodes members : list Symbol) (v : Visitor) : option (bool * Visitor) :=
  if shortCircuit v then Some (false, v)
  else
    let v1 := onCompilation (forceAll (defaultLazies k d)) v in
    match body with
    | BadBody => Some (true, v1)
    | GoodBody =>
        v2 ← visitAll visit bodyNodes v1;
        v3 ← visitAll visit members v2;
        Some (true, v3)
    | NoBody =>
        v3 ← visitAll visit members v1;
        Some (true, v3)
    end.

(** What the handler of a kind does once [handleDefault] returned true.
    The kinds of the first line have no handler of their own: the template
    [handle] is only [handleDefault]. *)
Definition afterDefault (k : SymbolKind) (d : NodeData) (v : Visitor) : Visitor :=
  match k with
  | Root | CompilationUnit | Package | InstanceBody | InstanceArray
  | GenerateBlockArray | GenerateBlock | Parameter_ | EnumValue | Variable_
  | ProceduralBlock | Statement | Expression => v
  | InterfacePort =>
      let v1 := onCompilation (forceAll (getters d)) v in
      match interfaceDef d with
      | None => v1
      | Some def =>
          let v2 := useIfacePort def v1 in
          match modportConnection d with
          | None => v2
          | Some (conn, target) =>
              let v3 := onCompilation (force conn) v2 in
              match target with
              | Some modport => pushModportWithExports (symId d, modport) v3
              | None => v3
              end
          end
      end
  | GenericClassDef => pushGenericClass (symId d) v
  | Subroutine => if isDPIImport d then pushDpiImport (symId d) v else v
  | _ => onCompilation (forceAll (getters d)) v
  end.

(** ** [handle(const InstanceSymbol&)] *)

Definition instanceLazies (i : InstanceData) : list Lazy :=
  instAttributes i
  ++ flat_map (fun conn =>
       [connExpression conn; connSimulatedNetTypes conn] ++ connAttributes conn)
     (instConnections i).

Definition recursionDiag (i : InstanceData) : Diagnostic :=
  mkDiagnostic InfinitelyRecursiveHierarchy (instLocation i)
    [ArgString (instName i)] true.

Definition depthDiag (i : InstanceData) : Diagnostic :=
  mkDiagnostic MaxInstanceDepthExceeded (instLocation i)
    [ArgString (instDefinitionKind i); ArgNumber maxInstanceDepth] true.

(** The scope guard: [activeInstanceBodies.erase(&symbol.body)]. *)
Definition guardExit (i : InstanceData) (v : Visitor) : Visitor :=
  setActive (activeInstanceBodies v ∖ {[instBody i]}) v.

Inductive Entry :=
| Refused (v : Visitor)
| Accepted (v : Visitor).

(** The handler from below its first test down to [visit(symbol.body)]:
    [Refused] is a return on the way (with the guard run, where it had been
    set up), [Accepted] is the state in which the body is visited. *)
Definition enterInstance (i : InstanceData) (v : Visitor) : Entry :=
  let v1 := countInstance (instDefinition i) v in
  let v2 := onCompilation (forceAll (instanceLazies i)) v1 in
  if decide (instBody i ∈ activeInstanceBodies v2) then
    Refused (record (Rejected (instDefinition i) (instBody i))
               (setHierarchyProblem
                  (onCompilation (addDiag (recursionDiag i)) v2)))
  else
    let v3 := setActive ({[instBody i]} ∪ activeInstanceBodies v2) v2 in
    if maxInstanceDepth <? size (activeInstanceBodies v3) then
      Refused (guardExit i
                 (record (Rejected (instDefinition i) (instBody i))
                    (setHierarchyProblem
                       (onCompilation (addDiag (depthDiag i)) v3))))
    else Accepted (record (Entered (instDefinition i) (instBody i)) v3).

(** [visit(symbol.body)]: an instance body has no handler of its own. *)
Definition visitBody (visit : Symbol -> Visitor -> option Visitor)
    (b : BodyId) (v : Visitor) : option Visitor :=
  '(_, v0) ← handleDefault visit InstanceBody (bodyData design b) NoBody []
               (bodyMembers design b) v;
  Some v0.

Definition handleInstance (visit : Symbol -> Visitor -> option Visitor)
    (i : InstanceData) (v : Visitor) : option Visitor :=
  if shortCircuit v then Some v
  else
    match enterInstance i v with
    | Refused v' => Some v'
    | Accepted v' =>
        v'' ← visitBody visit (instBody i) v';
        Some (guardExit i v'')
    end.

(** ** The dispatch of [visit] to the handlers *)

Fixpoint handle (fuel : nat) (s : Symbol) (v : Visitor) : option Visitor :=
  match fuel with
  | O => None
  | S fuel =>
      match s with
      | InstanceSymbol i => handleInstance (handle fuel) i v
      | GenerateBlockSymbol isInstantiated d members =>
          if negb isInstantiated then Some v
          else
            '(_, v0) ←
              handleDefault (handle fuel) GenerateBlock d NoBody [] members v;
            Some v0
      | MethodPrototypeSymbol d members subroutine =>
          '(ok, v0) ←
            handleDefault (handle fuel) MethodPrototype d NoBody [] members v;
          if (ok : bool) then
            let v1 := onCompilation (forceAll (getters d)) v0 in
            v2 ← match subroutine with
                 | Some sub => handle fuel sub v1
                 | None => Some v1
                 end;
            Some (if isInterfaceExtern d
                  then pushExternIfaceProto (symId d) v2 else v2)
          else Some v0
      | Node k d body bodyNodes members =>
          '(ok, v0) ← handleDefault (handle fuel) k d body bodyNodes members v;
          Some (if (ok : bool) then afterDefault k d v0 else v0)
      end
  end.

(** ** [finalize] *)

(** The first inner loop: the specializations not seen before are put in
    [visitedSpecs] and queued in [toVisit]. *)
Fixpoint collectSpecs (specs : list TypeId) (visitedSpecs : gset nat)
    (toVisit : list TypeId) : gset nat * list TypeId :=
  match specs with
  | [] => (visitedSpecs, toVisit)
  | spec :: rest =>
      if decide (spec ∈ visitedSpecs) then collectSpecs rest visitedSpecs toVisit
      else collectSpecs rest ({[spec]} ∪ visitedSpecs) (toVisit ++ [spec])
  end.

(** One round of the [do] loop over the generic classes.  The range [for]
    reads the bounds of [genericClasses] once, so the round walks the
    classes collected when it started. *)
Fixpoint finalizePass (fuel : nat) (classes : list ClassId)
    (visitedSpecs : gset nat) (didSomething : bool) (v : Visitor)
    : option (gset nat * bool * Visitor) :=
  match classes with
  | [] => Some (visitedSpecs, didSomething, v)
  | symbol :: rest =>
      let '(visitedSpecs', toVisit) :=
        collectSpecs (specializationsOf symbol (compilation v)) visitedSpecs [] in
      v' ← visitAll (handle fuel) (map (specType design) toVisit) v;
      finalizePass fuel rest visitedSpecs'
        (match toVisit with [] => didSomething | _ => true end) v'
  end.

Fixpoint finalizeLoop (rounds fuel : nat) (visitedSpecs : gset nat)
    (v : Visitor) : option (gset nat * Visitor) :=
  match rounds with
  | O => None
  | S rounds =>
      '(visitedSpecs', didSomething, v') ←
        finalizePass fuel (genericClasses v) visitedSpecs false v;
      if (didSomething : bool) then finalizeLoop rounds fuel visitedSpecs' v'
      else Some (visitedSpecs', v')
  end.

(** The last loop: a generic class that was never specialized gets its
    invalid specialization visited. *)
Fixpoint visitUninstantiated (fuel : nat) (classes : list ClassId)
    (v : Visitor) : option Visitor :=
  match classes with
  | [] => Some v
  | symbol :: rest =>
      v' ← (if length (specializationsOf symbol (compilation v)) =? 0
            then handle fuel (invalidSpecialization design symbol) v
            else Some v);
      visitUninstantiated fuel rest v'
  end.

(** [finalize]; the local [visitedSpecs] is returned with the visitor so
    that properties of it can be stated. *)
Definition finalize (rounds fuel : nat) (v : Visitor)
    : option (gset nat * Visitor) :=
  '(visitedSpecs, v0) ← finalizeLoop rounds fuel ∅ v;
  v' ← visitUninstantiated fuel (genericClasses v0) v0;
  Some (visitedSpecs, v').

End Handlers.

(** ** Notions the statements use *)

Definition instanceCountOf (def : DefinitionId) (v : Visitor) : nat :=
  default 0 (instanceCount v !! def).

Definition isEntered (def : DefinitionId) (e : Event) : bool :=
  match e with
  | Entered d _ => bool_decide (d = def)
  | Rejected _ _ => false
  end.

Definition isRejected (def : DefinitionId) (e : Event) : bool :=
  match e with
  | Rejected d _ => bool_decide (d = def)
  | Entered _ _ => false
  end.

Definition isRejection (e : Event) : bool :=
  match e with
  | Rejected _ _ => true
  | Entered _ _ => false
  end.

(** The entries of instances of [def] that went on to visit the body. *)
Definition successfulEntries (def : DefinitionId) (v : Visitor) : nat :=
  length (List.filter (isEntered def) (history v)).

(** The entries of instances of [def] that were turned down, for
    recursion or for depth. *)
Definition rejectedEntries (def : DefinitionId) (v : Visitor) : nat :=
  length (List.filter (isRejected def) (history v)).

Definition rejections (v : Visitor) : nat :=
  length (List.filter isRejection (history v)).

Definition isRecursionDiag (d : Diagnostic) : bool :=
  match diagCode d with
  | InfinitelyRecursiveHierarchy => true
  | _ => false
  end.

Definition recursionDiagsIn (ds : list Diagnostic) : nat :=
  length (List.filter isRecursionDiag ds).

Definition recursionDiags (v : Visitor) : nat :=
  recursionDiagsIn (diags (compilation v)).

(** The state in which the handler of an instance makes its two checks:
    the instance is counted and its own lazy members are resolved. *)
Definition afterOwnLazies (i : InstanceData) (v : Visitor) : Visitor :=
  onCompilation (forceAll (instanceLazies i)) (countInstance (instDefinition i) v).

(** The state in which an accepted instance goes on to its body: the
    body is in the active set and the entry is recorded. *)
Definition entered (i : InstanceData) (v : Visitor) : Visitor :=
  record (Entered (instDefinition i) (instBody i))
    (setActive ({[instBody i]} ∪ activeInstanceBodies v) (afterOwnLazies i v)).

(** The state in which the members of the body of an accepted instance
    are visited: the lazy members of the body itself are resolved. *)
Definition insideBody (design : Design) (i : InstanceData) (v : Visitor)
    : Visitor :=
  onCompilation
    (forceAll (defaultLazies InstanceBody (bodyData design (instBody i))))
    (entered i v).

(** ** Relations every handler keeps *)

(** A relation between the visitor before and after a handler that holds
    across every elementary step of the handlers and across the entry of
    an instance is kept by the whole traversal. *)
Record Stable (errorLimit maxInstanceDepth : nat)
    (R : Visitor -> Visitor -> Prop) : Prop := mkStable {
  stable_refl : forall v, R v v;
  stable_trans : forall a b c, R a b -> R b c -> R a c;
  stable_forceAll : forall ls v, R v (onCompilation (forceAll ls) v);
  stable_force : forall l v, R v (onCompilation (force l) v);
  stable_useIfacePort : forall def v, R v (useIfacePort def v);
  stable_pushGenericClass : forall c v, R v (pushGenericClass c v);
  stable_pushDpiImport : forall s v, R v (pushDpiImport s v);
  stable_pushExternIfaceProto : forall s v, R v (pushExternIfaceProto s v);
  stable_pushModportWithExports : forall p v, R v (pushModportWithExports p v);
  stable_refused : forall i v v',
    shortCircuit errorLimit v = false ->
    enterInstance maxInstanceDepth i v = Refused v' -> R v v';
  stable_accepted : forall i v v1 v2,
    shortCircuit errorLimit v = false ->
    enterInstance maxInstanceDepth i v = Accepted v1 ->
    R v1 v2 -> R v (guardExit i v2)
}.

(** The active set is the same before and after. *)
Definition keepsActive (v v' : Visitor) : Prop :=
  activeInstanceBodies v' = activeInstanceBodies v.

(** Neither condition of the short circuit is ever undone. *)
Definition sticky (v v' : Visitor) : Prop :=
  (hierarchyProblem v = true -> hierarchyProblem v' = true)
  /\ numErrors (compilation v) <= numErrors (compilation v').

(** The count of a definition is the number of its entries, those that
    went on and those that were turned down. *)
Definition Counted (v : Visitor) : Prop :=
  forall def,
    instanceCountOf def v = successfulEntries def v + rejectedEntries def v.

(** Without a hierarchy problem no recursion was reported; with one, at
    most one. *)
Definition ReportedOnce (v : Visitor) : Prop :=
  recursionDiags v <= (if hierarchyProblem v then 1 else 0).

(** Without a hierarchy problem no entry was turned down; with one, at
    most one. *)
Definition RejectedOnce (v : Visitor) : Prop :=
  rejections v <= (if hierarchyProblem v then 1 else 0).

Definition keeps (P : Visitor -> Prop) (v v' : Visitor) : Prop := P v -> P v'.

(** How many more bodies the active set can take before the depth check
    turns an instance down, plus one. *)
Definition room (maxInstanceDepth : nat) (v : Visitor) : nat :=
  S maxInstanceDepth - size (activeInstanceBodies v).

(** Fuel that is enough to visit [s] from [v] when no body of the design
    is higher than [bound]. *)
Definition enoughFuel (maxInstanceDepth bound : nat) (s : Symbol) (v : Visitor)
    : nat :=
  height s + room maxInstanceDepth v * (bound + 2).

(** ** Further notions *)

(** The two diagnostics the visitor issues itself. *)
Definition isStructuralDiag (d : Diagnostic) : bool :=
  match diagCode d with
  | Propagated _ => false
  | _ => true
  end.

Definition structuralDiags (v : Visitor) : nat :=
  length (List.filter isStructuralDiag (diags (compilation v))).

(** One structural diagnostic with a hierarchy problem, none without. *)
Definition StructuralOnce (v : Visitor) : Prop :=
  structuralDiags v = if hierarchyProblem v then 1 else 0.

(** Nothing the compilation or the visitor has gathered is dropped or
    reordered between [v] and [v']. *)
Definition grows (v v' : Visitor) : Prop :=
  diags (compilation v) `prefix_of` diags (compilation v')
  /\ resolved (compilation v) ⊆ resolved (compilation v')
  /\ (forall cls, specializationsOf cls (compilation v)
                  `prefix_of` specializationsOf cls (compilation v'))
  /\ genericClasses v `prefix_of` genericClasses v'
  /\ dpiImports v `prefix_of` dpiImports v'
  /\ externIfaceProtos v `prefix_of` externIfaceProtos v'
  /\ modportsWithExports v `prefix_of` modportsWithExports v'
  /\ usedIfacePorts v ⊆ usedIfacePorts v'
  /\ forall def, instanceCountOf def v <= instanceCountOf def v'.

(** Every member of [visited] is a specialization of a collected class. *)
Definition OnlySpecializations (visited : gset nat) (v : Visitor) : Prop :=
  forall t, t ∈ visited ->
    exists cls, cls ∈ genericClasses v
                /\ t ∈ specializationsOf cls (compilation v).

(** Every specialization of the classes [classes] is in [visited]. *)
Definition AllSeen (classes : list ClassId) (visited : gset nat) (v : Visitor)
    : Prop :=
  forall cls t, cls ∈ classes -> t ∈ specializationsOf cls (compilation v) ->
    t ∈ visited.

(** The design never bottoms out: every body holds an instance. *)
Definition EveryBodyInstantiates (design : Design) : Prop :=
  forall b, exists i, InstanceSymbol i ∈ bodyMembers design b.

(** The lazy members that the handler of a kind requests of its own
    after [handleDefault]. *)
Definition kindLazies (k : SymbolKind) (d : NodeData) : list Lazy :=
  match k with
  | Root | CompilationUnit | Package | InstanceBody | InstanceArray
  | GenerateBlockArray | GenerateBlock | Parameter_ | EnumValue | Variable_
  | ProceduralBlock | Statement | Expression => []
  | GenericClassDef | Subroutine => []
  | InterfacePort =>
      getters d
      ++ match interfaceDef d, modportConnection d with
         | Some _, Some (conn, _) => [conn]
         | _, _ => []
         end
  | _ => getters d
  end.

(** The lazy members the handler of a node requests for the node itself;
    for an instance these are its own and, once it is entered, those that
    the visit of its body requests for the body. *)
Definition ownLazies (design : Design) (s : Symbol) : list Lazy :=
  match s with
  | InstanceSymbol i =>
      instanceLazies i
      ++ defaultLazies InstanceBody (bodyData design (instBody i))
  | GenerateBlockSymbol isInstantiated d _ =>
      if isInstantiated then defaultLazies GenerateBlock d else []
  | MethodPrototypeSymbol d _ _ => defaultLazies MethodPrototype d ++ getters d
  | Node k d _ _ _ => defaultLazies k d ++ kindLazies k d
  end.

(** The nodes the handler of a node goes on to: the members of the body
    of an instance, the members of an instantiated generate block, the
    members and the subroutine of a method prototype, and for any other
    node the nodes of its body and its members, or nothing when its body
    is bad. *)
Definition children (design : Design) (s : Symbol) : list Symbol :=
  match s with
  | InstanceSymbol i => bodyMembers design (instBody i)
  | GenerateBlockSymbol isInstantiated _ members =>
      if isInstantiated then members else []
  | MethodPrototypeSymbol _ members subroutine =>
      members ++ match subroutine with
                 | Some sub => [sub]
                 | None => []
                 end
  | Node _ _ body bodyNodes members =>
      match body with
      | BadBody => []
      | GoodBody => bodyNodes ++ members
      | NoBody => members
      end
  end.

(** [Below design s n]: the node [n] is [s] or lies below it in the
    elaborated hierarchy, the bodies of the instances included. *)
Inductive Below (design : Design) : Symbol -> Symbol -> Prop :=
| Below_self (s : Symbol) : Below design s s
| Below_child (s c n : Symbol) :
    c ∈ children design s -> Below design c n -> Below design s n.

End DiagnosticVisitor.

(* ===================================================================== *)
(** * [DefParamVisitor]                                                   *)
(* ===================================================================== *)

Module DefParamVisitor.

Import Ast.
Local Open Scope nat_scope.

(** History variable, read by no code: the blocks the traversal went
    into, each with the generate depth at which its handler ran.
    [InstanceEntered] is an instance that passed both early returns,
    [GenerateEntered] an instantiated generate block that passed both
    early returns, so that the visitor descends into it. *)
Inductive Event :=
| InstanceEntered (depth : nat)
| GenerateEntered (depth : nat).

Record Visitor := mkVisitor {
  found : list SymbolId;
  activeInstances : gset nat;
  instanceDepth : nat;
  numBlocksSeen : nat;
  generateDepth : nat;
  inRecursiveInstance : bool;
  hierarchyProblem : option SymbolId;
  history : list Event
}.

Definition newVisitor : Visitor := mkVisitor [] ∅ 0 0 0 false None [].

Definition pushFound (s : SymbolId) (v : Visitor) : Visitor :=
  mkVisitor (found v ++ [s]) (activeInstances v) (instanceDepth v)
    (numBlocksSeen v) (generateDepth v) (inRecursiveInstance v)
    (hierarchyProblem v) (history v).

Definition setActiveInstances (a : gset nat) (v : Visitor) : Visitor :=
  mkVisitor (found v) a (instanceDepth v)
    (numBlocksSeen v) (generateDepth v) (inRecursiveInstance v)
    (hierarchyProblem v) (history v).

Definition setInstanceDepth (n : nat) (v : Visitor) : Visitor :=
  mkVisitor (found v) (activeInstances v) n
    (numBlocksSeen v) (generateDepth v) (inRecursiveInstance v)
    (hierarchyProblem v) (history v).

Definition countBlock (v : Visitor) : Visitor :=
  mkVisitor (found v) (activeInstances v) (instanceDepth v)
    (S (numBlocksSeen v)) (generateDepth v) (inRecursiveInstance v)
    (hierarchyProblem v) (history v).

Definition setGenerateDepth (n : nat) (v : Visitor) : Visitor :=
  mkVisitor (found v) (activeInstances v) (instanceDepth v)
    (numBlocksSeen v) n (inRecursiveInstance v)
    (hierarchyProblem v) (history v).

Definition setInRecursiveInstance (b : bool) (v : Visitor) : Visitor :=
  mkVisitor (found v) (activeInstances v) (instanceDepth v)
    (numBlocksSeen v) (generateDepth v) b
    (hierarchyProblem v) (history v).

Definition setHierarchyProblem (s : SymbolId) (v : Visitor) : Visitor :=
  mkVisitor (found v) (activeInstances v) (instanceDepth v)
    (numBlocksSeen v) (generateDepth v) (inRecursiveInstance v)
    (Some s) (history v).

Definition record (e : Event) (v : Visitor) : Visitor :=
  mkVisitor (found v) (activeInstances v) (instanceDepth v)
    (numBlocksSeen v) (generateDepth v) (inRecursiveInstance v)
    (hierarchyProblem v) (history v ++ [e]).

(** [visitDefault] on a scope: every member in order. *)
Fixpoint visitAll (visit : Symbol -> Visitor -> option Visitor)
    (l : list Symbol) (v : Visitor) : option Visitor :=
  match l with
  | [] => Some v
  | s :: rest =>
      match visit s v with
      | Some v' => visitAll visit rest v'
      | None => None
      end
  end.

(** The loop of [handle(const GenerateBlockArraySymbol&)]: it returns as
    soon as a hierarchy problem is set. *)
Fixpoint visitArrayMembers (visit : Symbol -> Visitor -> option Visitor)
    (l : list Symbol) (v : Visitor) : option Visitor :=
  match l with
  | [] => Some v
  | member :: rest =>
      if bool_decide (hierarchyProblem v ≠ None) then Some v
      else
        match visit member v with
        | Some v' => visitArrayMembers visit rest v'
        | None => None
        end
  end.

Section Handlers.

Context (design : Design).
Context (maxInstanceDepth generateLevel : nat).

(** [handle(const DefParamSymbol&)] *)
Definition handleDefParam (d : NodeData) (v : Visitor) : Visitor :=
  if generateDepth v <=? generateLevel then pushFound (symId d) v else v.

(** [handle(const InstanceSymbol&)] *)
Definition handleInstance (visit : Symbol -> Visitor -> option Visitor)
    (i : InstanceData) (v : Visitor) : option Visitor :=
  if bool_decide (hierarchyProblem v ≠ None) then Some v
  else if maxInstanceDepth <? instanceDepth v then
    Some (setHierarchyProblem (instId i) v)
  else
    let wasInRecursive := inRecursiveInstance v in
    let inserted :=
      negb (inRecursiveInstance v)
      && bool_decide (instDefinition i ∉ activeInstances v) in
    let v1 :=
      if inRecursiveInstance v then v
      else if inserted
           then setActiveInstances ({[instDefinition i]} ∪ activeInstances v) v
           else setInRecursiveInstance true v in
    let v2 := record (InstanceEntered (generateDepth v1)) v1 in
    let v3 := if generateDepth v2 <=? generateLevel then countBlock v2 else v2 in
    let v4 := setInstanceDepth (S (instanceDepth v3)) v3 in
    v5 ← visitAll visit (bodyMembers design (instBody i)) v4;
    let v6 := setInstanceDepth (pred (instanceDepth v5)) v5 in
    let v7 := setInRecursiveInstance wasInRecursive v6 in
    Some (if inserted
          then setActiveInstances (activeInstances v7 ∖ {[instDefinition i]}) v7
          else v7).

(** [handle(const GenerateBlockSymbol&)] *)
Definition handleGenerateBlock (visit : Symbol -> Visitor -> option Visitor)
    (isInstantiated : bool) (members : list Symbol) (v : Visitor)
    : option Visitor :=
  if negb isInstantiated || bool_decide (hierarchyProblem v ≠ None) then Some v
  else
    if (generateLevel <=? generateDepth v) && negb (inRecursiveInstance v)
    then Some v
    else
      let v1 := record (GenerateEntered (generateDepth v)) v in
      let v2 := if generateDepth v1 <? generateLevel then countBlock v1 else v1 in
      let v3 := setGenerateDepth (S (generateDepth v2)) v2 in
      v4 ← visitAll visit members v3;
      Some (setGenerateDepth (pred (generateDepth v4)) v4).

(** The dispatch of [visit]: every kind without a handler of its own falls
    to the empty template [handle]. *)
Fixpoint handle (fuel : nat) (s : Symbol) (v : Visitor) : option Visitor :=
  match fuel with
  | O => None
  | S fuel =>
      match s with
      | Node Root _ _ _ members => visitAll (handle fuel) members v
      | Node CompilationUnit _ _ _ members => visitAll (handle fuel) members v
      | Node DefParam d _ _ _ => Some (handleDefParam d v)
      | InstanceSymbol i => handleInstance (handle fuel) i v
      | GenerateBlockSymbol isInstantiated _ members =>
          handleGenerateBlock (handle fuel) isInstantiated members v
      | Node GenerateBlockArray _ _ _ members =>
          visitArrayMembers (handle fuel) members v
      | _ => Some v
      end
  end.

End Handlers.

(** ** Notions the statements use *)

(** The entries that the code counts as blocks for the level: instances
    entered at a generate depth up to the level, generate blocks entered
    at a generate depth below it. *)
Definition countsAsBlock (generateLevel : nat) (e : Event) : bool :=
  match e with
  | InstanceEntered depth => depth <=? generateLevel
  | GenerateEntered depth => depth <? generateLevel
  end.

Definition blocksCounted (generateLevel : nat) (v : Visitor) : nat :=
  length (List.filter (countsAsBlock generateLevel) (history v)).

(** The entries at a generate depth up to the level. *)
Definition isInstanceUpTo (generateLevel : nat) (e : Event) : bool :=
  match e with
  | InstanceEntered depth => depth <=? generateLevel
  | GenerateEntered _ => false
  end.

Definition isGenerateUpTo (generateLevel : nat) (e : Event) : bool :=
  match e with
  | GenerateEntered depth => depth <=? generateLevel
  | InstanceEntered _ => false
  end.

Definition instancesUpTo (generateLevel : nat) (v : Visitor) : nat :=
  length (List.filter (isInstanceUpTo generateLevel) (history v)).

Definition generatesUpTo (generateLevel : nat) (v : Visitor) : nat :=
  length (List.filter (isGenerateUpTo generateLevel) (history v)).

Definition BlocksTallied (generateLevel : nat) (v : Visitor) : Prop :=
  numBlocksSeen v = blocksCounted generateLevel v.

(** How many more instances can be entered one inside the other before
    the depth check stops the traversal, plus one. *)
Definition room (maxInstanceDepth : nat) (v : Visitor) : nat :=
  S (S maxInstanceDepth) - instanceDepth v.

(** Fuel that is enough to visit [s] from [v] when no body of the design
    is higher than [bound]. *)
Definition enoughFuel (maxInstanceDepth bound : nat) (s : Symbol) (v : Visitor)
    : nat :=
  height s + room maxInstanceDepth v * (bound + 2).

(** ** Further notions *)

(** What a handler changes on the way down and puts back on the way up. *)
Definition Restored (v v' : Visitor) : Prop :=
  instanceDepth v' = instanceDepth v
  /\ generateDepth v' = generateDepth v
  /\ inRecursiveInstance v' = inRecursiveInstance v
  /\ activeInstances v' = activeInstances v.

(** What a handler only ever adds to; with a hierarchy problem set, it
    keeps the problem and counts and enters nothing. *)
Definition Kept (v v' : Visitor) : Prop :=
  found v `prefix_of` found v'
  /\ numBlocksSeen v <= numBlocksSeen v'
  /\ history v `prefix_of` history v'
  /\ (forall i, hierarchyProblem v = Some i ->
        hierarchyProblem v' = Some i
        /\ numBlocksSeen v' = numBlocksSeen v
        /\ history v' = history v).

(** A visitor at a lower generate level is behind one at a higher level:
    both are at the same place of the hierarchy, the first has met no
    hierarchy problem, and what it found the second found too, in the
    same order. *)
Definition Behind (v1 v2 : Visitor) : Prop :=
  instanceDepth v1 = instanceDepth v2
  /\ generateDepth v1 = generateDepth v2
  /\ inRecursiveInstance v1 = inRecursiveInstance v2
  /\ activeInstances v1 = activeInstances v2
  /\ found v1 `sublist_of` found v2
  /\ hierarchyProblem v1 = None.

End DefParamVisitor.

(* ===================================================================== *)
(** * [BindVisitor]                                                       *)
(* ===================================================================== *)

Module BindVisitor.

Import Ast.
Local Open Scope nat_scope.

(** A scope whose members a handler asks for: the body of an instance, or
    a symbol that is a scope itself. *)
Inductive ScopeRef :=
| BodyScope (b : BodyId)
| SymbolScope (s : SymbolId).

(** The members of the visitor.  [foundDirectives] stands for the set in
    the compilation that the visitor holds a reference to and only reads.
    [history] is a history variable that no code reads: the bodies the
    visitor went into, in order. *)
Record Visitor := mkVisitor {
  foundDirectives : gset nat;
  visitedInstances : gset nat;
  errored : bool;
  history : list BodyId
}.

Definition newVisitor (found : gset nat) : Visitor := mkVisitor found ∅ false [].

Fixpoint visitAll (visit : Symbol -> Visitor -> option Visitor)
    (l : list Symbol) (v : Visitor) : option Visitor :=
  match l with
  | [] => Some v
  | s :: rest =>
      match visit s v with
      | Some v' => visitAll visit rest v'
      | None => None
      end
  end.

(** An upper bound of the bodies the instances of a tree refer to. *)
Fixpoint bodyBound (s : Symbol) : nat :=
  let bodyBounds :=
    fix bodyBounds (l : list Symbol) : nat :=
      match l with
      | [] => 0
      | x :: rest => Nat.max (bodyBound x) (bodyBounds rest)
      end in
  match s with
  | InstanceSymbol i => S (instBody i)
  | GenerateBlockSymbol _ _ members => bodyBounds members
  | MethodPrototypeSymbol _ members subroutine =>
      Nat.max (bodyBounds members)
        match subroutine with
        | Some sub => bodyBound sub
        | None => 0
        end
  | Node _ _ _ bodyNodes members =>
      Nat.max (bodyBounds bodyNodes) (bodyBounds members)
  end.

Fixpoint bodyBounds (l : list Symbol) : nat :=
  match l with
  | [] => 0
  | x :: rest => Nat.max (bodyBound x) (bodyBounds rest)
  end.

Section Handlers.

Context (design : Design).
Context (expected : nat).

(** Modelled from the spec: the bind directives that the elaboration of a
    scope notes in the compilation.  The members of a scope are made when
    they are first asked for, and the directives among them are then
    added to the set [foundDirectives] refers to; that code is not part
    of these sources. *)
Context (directives : ScopeRef -> list nat).

Definition noteDirectives (r : ScopeRef) (v : Visitor) : Visitor :=
  mkVisitor (list_to_set (directives r) ∪ foundDirectives v)
    (visitedInstances v) (errored v) (history v).

(** [foundDirectives.size() == expected] *)
Definition allFound (v : Visitor) : bool :=
  size (foundDirectives v) =? expected.

(** [visitDefault] on a scope: its members are asked for and visited in
    order. *)
Definition visitDefault (visit : Symbol -> Visitor -> option Visitor)
    (r : ScopeRef) (members : list Symbol) (v : Visitor) : option Visitor :=
  visitAll visit members (noteDirectives r v).

(** [handle(const InstanceSymbol&)] *)
Definition handleInstance (visit : Symbol -> Visitor -> option Visitor)
    (i : InstanceData) (v : Visitor) : option Visitor :=
  if allFound v then Some v
  else if decide (instBody i ∈ visitedInstances v) then
    Some (mkVisitor (foundDirectives v) (visitedInstances v) true (history v))
  else
    visitDefault visit (BodyScope (instBody i)) (bodyMembers design (instBody i))
      (mkVisitor (foundDirectives v) ({[instBody i]} ∪ visitedInstances v)
         (errored v) (history v ++ [instBody i])).

(** [handle(const GenerateBlockArraySymbol&)]: only the first member. *)
Definition handleGenerateBlockArray (visit : Symbol -> Visitor -> option Visitor)
    (d : NodeData) (members : list Symbol) (v : Visitor) : option Visitor :=
  if allFound v then Some v
  else
    let v1 := noteDirectives (SymbolScope (symId d)) v in
    match members with
    | [] => Some v1
    | first :: _ => visit first v1
    end.

(** The dispatch of [visit]; the kinds without a handler fall to the
    empty template. *)
Fixpoint handle (fuel : nat) (s : Symbol) (v : Visitor) : option Visitor :=
  match fuel with
  | O => None
  | S fuel =>
      match s with
      | Node Root d _ _ members =>
          visitDefault (handle fuel) (SymbolScope (symId d)) members v
      | Node CompilationUnit d _ _ members =>
          if allFound v then Some v
          else visitDefault (handle fuel) (SymbolScope (symId d)) members v
      | InstanceSymbol i => handleInstance (handle fuel) i v
      | GenerateBlockSymbol isInstantiated d members =>
          if allFound v || negb isInstantiated then Some v
          else visitDefault (handle fuel) (SymbolScope (symId d)) members v
      | Node GenerateBlockArray d _ _ members =>
          handleGenerateBlockArray (handle fuel) d members v
      | _ => Some v
      end
  end.

End Handlers.

(** ** Notions the statements use *)

(** The bodies gone into are the bodies marked as visited, each once. *)
Definition VisitedOnce (v : Visitor) : Prop :=
  NoDup (history v) /\ forall b, b ∈ history v <-> b ∈ visitedInstances v.

(** Nothing is taken back. *)
Definition Kept (v v' : Visitor) : Prop :=
  foundDirectives v ⊆ foundDirectives v'
  /\ visitedInstances v ⊆ visitedInstances v'
  /\ history v `prefix_of` history v'
  /\ (errored v = true -> errored v' = true).

(** The bodies [0 .. universe - 1]. *)
Definition bodiesBelow (universe : nat) : gset nat := set_seq 0 universe.

(** How many bodies are left to go into. *)
Definition room (universe : nat) (v : Visitor) : nat :=
  universe - size (visitedInstances v).

Definition enoughFuel (universe bound : nat) (s : Symbol) (v : Visitor) : nat :=
  height s + room universe v * (bound + 2).

End BindVisitor.

(* ===================================================================== *)
(** * Small designs used as test inputs                                   *)
(* ===================================================================== *)

Module Designs.

Import Ast.
Local Open Scope nat_scope.
Local Open Scope string_scope.

Definition plain (id : SymbolId) : NodeData :=
  mkNodeData id None [] [] [] None None false false.

Definition withAttributes (id : SymbolId) (attrs : list Lazy) : NodeData :=
  mkNodeData id None [] attrs [] None None false false.

Definition instanceData (id : SymbolId) (name : string) (def : DefinitionId)
    (body : BodyId) (attrs : list Lazy) : InstanceData :=
  mkInstanceData id name id def "module" body attrs [].

Definition instance (id : SymbolId) (name : string) (def : DefinitionId)
    (body : BodyId) : Symbol :=
  InstanceSymbol (instanceData id name def body []).

Definition emptyClass (id : SymbolId) : Symbol := Node ClassType (plain id) NoBody [] [].

(** One error reported when the lazy member [id] is resolved. *)
Definition failing (id code : nat) : Lazy :=
  mkLazy id [mkReported code id true] [].

(** [module m; m inner(); logic x; endmodule]: the body of [m] is body 0
    for every instance of it. *)
Definition selfInstantiating : Design :=
  mkDesign (fun _ => plain 100)
    (fun _ => [instance 2 "inner" 0 0;
               Node Variable_ (withAttributes 3 [failing 30 7]) NoBody [] []])
    emptyClass emptyClass.

Definition selfRoot : Symbol :=
  Node Root (plain 0) NoBody [] [instance 1 "m" 0 0].

Definition start : DiagnosticVisitor.Visitor :=
  DiagnosticVisitor.newVisitor emptyCompilation.

(** The elaboration of [selfRoot] with an error limit of 10 and a maximum
    instance depth of 128. *)
Definition selfElaborated : DiagnosticVisitor.Visitor :=
  default start (DiagnosticVisitor.handle selfInstantiating 10 128 10 selfRoot start).

(** A visitor that is inside the body 0, and a second instance with that
    body which carries an attribute whose value is in error. *)
Definition insideBodyZero : DiagnosticVisitor.Visitor :=
  DiagnosticVisitor.setActive {[0]} start.

Definition attributedInner : InstanceData :=
  instanceData 2 "inner" 0 0 [failing 40 9].

Definition attributedInnerRejected : DiagnosticVisitor.Visitor :=
  match DiagnosticVisitor.enterInstance 128 attributedInner insideBodyZero with
  | DiagnosticVisitor.Refused v => v
  | DiagnosticVisitor.Accepted v => v
  end.

(** Two generic classes, 1 and 2, neither specialized by the design
    proper:
<<
  class C1 #(type T = int); C2 #(int) member; endclass
  class C2 #(type U = int); logic x; endclass
>>
    where [x] carries an attribute whose value is in error.
    The declared type of [member] does not depend on [T]: resolving it in
    the invalid specialization of class 1 makes the specialization 7 of
    class 2. *)
Definition memberOfC1 : Symbol :=
  Node Variable_
    (mkNodeData 11
       (Some (mkDeclaredType (mkLazy 50 [] [(2, 7)]) (mkLazy 51 [] [])))
       [] [] [] None None false false)
    NoBody [] [].

Definition classesRoot : Symbol :=
  Node Root (plain 0) NoBody []
    [Node GenericClassDef (plain 1) NoBody [] [];
     Node GenericClassDef (plain 2) NoBody [] []].

(** The design of the two classes.  The specialization 7 of class 2 has
    an error inside: its member has an attribute, the lazy member 70,
    whose value is in error. *)
Definition lateClasses : Design :=
  mkDesign (fun _ => plain 100) (fun _ => [])
    (fun t => if Nat.eqb t 7
              then Node ClassType (plain 7) NoBody []
                     [Node Variable_ (withAttributes 71 [failing 70 3])
                        NoBody [] []]
              else emptyClass t)
    (fun cls => if Nat.eqb cls 1 then Node ClassType (plain 10) NoBody [] [memberOfC1]
                else emptyClass 20).

Definition lateVisited : DiagnosticVisitor.Visitor :=
  default start
    (DiagnosticVisitor.handle lateClasses 10 128 10 classesRoot start).

Definition lateFinalized : gset nat * DiagnosticVisitor.Visitor :=
  default (∅, start)
    (DiagnosticVisitor.finalize lateClasses 10 128 5 10 lateVisited).

(** Generic classes whose specializations grow while they are visited:
    the design specializes class 3 once (specialization 8), and the body
    of 8 refers to another specialization of class 3 (9) and to one of
    class 4 (12). *)
Definition referring (id lazy : nat) (specs : list (nat * nat)) : Symbol :=
  Node Variable_
    (mkNodeData id
       (Some (mkDeclaredType (mkLazy lazy [] specs) (mkLazy (S lazy) [] [])))
       [] [] [] None None false false)
    NoBody [] [].

Definition growingClasses : Design :=
  mkDesign (fun _ => plain 100) (fun _ => [])
    (fun t => if Nat.eqb t 8
              then Node ClassType (plain 8) NoBody []
                     [referring 81 60 [(3, 9); (4, 12)]]
              else emptyClass t)
    emptyClass.

Definition growingRoot : Symbol :=
  Node Root (plain 0) NoBody []
    [Node GenericClassDef (plain 3) NoBody [] [];
     Node GenericClassDef (plain 4) NoBody [] [];
     referring 5 70 [(3, 8)]].

Definition growingVisited : DiagnosticVisitor.Visitor :=
  default start
    (DiagnosticVisitor.handle growingClasses 10 128 10 growingRoot start).

Definition growingLooped : gset nat * DiagnosticVisitor.Visitor :=
  default (∅, start)
    (DiagnosticVisitor.finalizeLoop growingClasses 10 128 5 10 ∅ growingVisited).

(** A definition whose body instantiates the definition again under
    other parameter values: the root instance has body 0, which holds the
    instance [again]; that instance has a body of its own, body 1, which
    holds an instantiated generate block with a defparam in it. *)
Definition probing : Design :=
  mkDesign (fun _ => plain 100)
    (fun b => if Nat.eqb b 0 then [instance 2 "again" 0 1]
              else [GenerateBlockSymbol true (plain 3)
                      [Node DefParam (plain 4) NoBody [] []]])
    emptyClass emptyClass.

Definition probingRoot : Symbol :=
  Node Root (plain 0) NoBody [] [instance 1 "top" 0 0].

(** The defparam traversal of [probingRoot] for level 0. *)
Definition probed : DefParamVisitor.Visitor :=
  default DefParamVisitor.newVisitor
    (DefParamVisitor.handle probing 128 0 10 probingRoot
       DefParamVisitor.newVisitor).

(** Two definitions, one instantiated inside the other: the body of
    [top] is body 0 and holds the instance [inner] and a variable whose
    attribute is in error; the body of [inner] is body 1 and holds a
    variable with an attribute, the lazy member 31. *)
Definition nestedInnermost : Symbol :=
  Node Variable_ (withAttributes 4 [mkLazy 31 [] []]) NoBody [] [].

Definition nestedDesign : Design :=
  mkDesign (fun _ => plain 100)
    (fun b => if Nat.eqb b 0
              then [instance 2 "inner" 1 1;
                    Node Variable_ (withAttributes 3 [failing 30 7]) NoBody [] []]
              else [nestedInnermost])
    emptyClass emptyClass.

Definition nestedRoot : Symbol :=
  Node Root (plain 0) NoBody [] [instance 1 "top" 0 0].

Definition nestedVisited : DiagnosticVisitor.Visitor :=
  default start
    (DiagnosticVisitor.handle nestedDesign 10 128 10 nestedRoot start).

(** The same traversal for level 1. *)
Definition probedDeeper : DefParamVisitor.Visitor :=
  default DefParamVisitor.newVisitor
    (DefParamVisitor.handle probing 128 1 10 probingRoot
       DefParamVisitor.newVisitor).

(** The body 0 of the self-instantiating design holds one bind
    directive, 5. *)
Definition bindDirectives (r : BindVisitor.ScopeRef) : list nat :=
  match r with
  | BindVisitor.BodyScope 0 => [5]
  | _ => []
  end.

(** The bind traversal of [selfRoot] that is to find 3 directives. *)
Definition bindTraversed : BindVisitor.Visitor :=
  default (BindVisitor.newVisitor ∅)
    (BindVisitor.handle selfInstantiating 3 bindDirectives 10 selfRoot
       (BindVisitor.newVisitor ∅)).

End Designs.

(* ===================================================================== *)
(** * Properties of the string methods                                    *)
(* ===================================================================== *)

Module StringMethodsFacts.

Import StringMethods.
Local Open Scope string_scope.
Local Open Scope Z_scope.

Lemma SVInt32_small v : - 2 ^ 31 <= v < 2 ^ 31 -> SVInt32 v = v.
Proof.
  intros Hv. unfold SVInt32.
  rewrite Z.mod_small by lia. lia.
Qed.

(** [compare] clamps whatever [std::string::compare] gives. *)
Lemma compare_range lhs rhs :
  compare (Some lhs) (Some rhs) = Some (-1)
  \/ compare (Some lhs) (Some rhs) = Some 0
  \/ compare (Some lhs) (Some rhs) = Some 1.
Proof.
  unfold compare, StringCompareMethod_eval.
  destruct (std_string_compare lhs rhs <? 0) eqn:Hneg; [now left |].
  destruct (0 <? std_string_compare lhs rhs) eqn:Hpos; [now right; right |].
  right; left.
  apply Z.ltb_ge in Hneg. apply Z.ltb_ge in Hpos.
  replace (std_string_compare lhs rhs) with 0 by lia. reflexivity.
Qed.

(** C5 (the receiver "a", the argument "c"): [icompare] returns the
    difference of the two characters, -2, which is none of -1, 0 and 1;
    [compare] on the same strings returns -1. *)
Theorem icompare_returns_difference :
  icompare (Some "a") (Some "c") = Some (-2)
  /\ compare (Some "a") (Some "c") = Some (-1).
Proof. split; reflexivity. Qed.

(** *** [atoi] and its siblings *)

Lemma remove_underscores_app a b :
  remove_underscores (a ++ b) = remove_underscores a ++ remove_underscores b.
Proof.
  induction a as [| c a IH]; simpl; [reflexivity |].
  destruct (Ascii.eqb c "_"); simpl; now rewrite IH.
Qed.

Lemma digit_in_digit_of base c d : digit_in base c = Some d -> digit_of c = Some d.
Proof.
  unfold digit_in. destruct (digit_of c) as [d' |]; [| discriminate].
  destruct (d' <? base); congruence.
Qed.

Lemma digit_of_nonneg c d : digit_of c = Some d -> 0 <= d.
Proof.
  unfold digit_of.
  repeat match goal with
         | |- context [if ?b then _ else _] => destruct b eqn:?
         end; intros [= <-]; lia.
Qed.

(** A digit is no white space, no sign and no underscore. *)
Lemma digit_of_plain c d :
  digit_of c = Some d ->
  isspace c = false /\ c <> "-"%char /\ c <> "+"%char /\ Ascii.eqb c "_" = false.
Proof.
  destruct c as [[] [] [] [] [] [] [] []]; vm_compute; intros H;
    try discriminate H; repeat split; discriminate.
Qed.

Lemma read_digits_stop base acc s :
  match s with
  | EmptyString => True
  | String c _ => digit_in base c = None
  end ->
  read_digits base acc s = acc.
Proof. destruct s as [| c t]; simpl; [reflexivity |]. now intros ->. Qed.

Lemma read_digits_run base s : forall acc rest,
  digitRun base s = true ->
  read_digits base acc (remove_underscores s ++ rest)
  = read_digits base (digitsValue base acc s) rest.
Proof.
  induction s as [| c t IH]; intros acc rest Hrun; simpl in *; [reflexivity |].
  apply andb_true_iff in Hrun as [Hc Ht].
  destruct (Ascii.eqb c "_") eqn:Hu; [now apply IH |].
  simpl in Hc. apply bool_decide_eq_true in Hc.
  destruct (digit_in base c) as [d |] eqn:Hd; [| congruence].
  simpl. rewrite Hd, (digit_in_digit_of _ _ _ Hd). simpl. now apply IH.
Qed.

Lemma digitsValue_nonneg base s : forall acc,
  0 <= base -> 0 <= acc -> 0 <= digitsValue base acc s.
Proof.
  induction s as [| c t IH]; intros acc Hb Hacc; simpl; [assumption |].
  destruct (Ascii.eqb c "_"); [now apply IH |].
  apply IH; [assumption |].
  destruct (digit_of c) as [d |] eqn:Hd; simpl.
  - apply digit_of_nonneg in Hd. nia.
  - nia.
Qed.

(** After a run of digits and the end of the number, the next character
    is not the letter of a hexadecimal prefix. *)
Lemma no_hex_letter_next base t rest :
  digitRun base t = true -> endsNumber base rest = true ->
  match remove_underscores t ++ remove_underscores rest with
  | EmptyString => True
  | String c' _ =>
      (base =? 16) && (Ascii.eqb c' "x" || Ascii.eqb c' "X") = false
  end.
Proof.
  intros Hrun Hend. induction t as [| c t IH]; simpl in *.
  - destruct rest as [| c' r]; simpl; [exact I |].
    apply andb_true_iff in Hend as [Hend Hx].
    apply andb_true_iff in Hend as [_ Hu].
    apply negb_true_iff in Hu. rewrite Hu. simpl.
    now apply negb_true_iff in Hx.
  - apply andb_true_iff in Hrun as [Hc Ht].
    destruct (Ascii.eqb c "_") eqn:Hu; [now apply IH |].
    simpl in *. apply bool_decide_eq_true in Hc.
    destruct (base =? 16) eqn:Hb; [| reflexivity].
    apply Z.eqb_eq in Hb. subst base. simpl.
    destruct (Ascii.eqb c "x") eqn:Hcx.
    { apply Ascii.eqb_eq in Hcx. subst c. now vm_compute in Hc. }
    destruct (Ascii.eqb c "X") eqn:HcX; [| reflexivity].
    apply Ascii.eqb_eq in HcX. subst c. now vm_compute in Hc.
Qed.







Example atohex_prefixed :
  atohex (Some "0x1F") = Some 31 /\ atohex (Some "0_X_1f") = Some 31
  /\ atohex (Some "0xg") = Some 0 /\ atoi (Some "0x1F") = Some 0.
Proof. repeat split; reflexivity. Qed.


End StringMethodsFacts.

(* ===================================================================== *)
(** * Properties of the symbol tree, the lazy cells and the sink          *)
(* ===================================================================== *)

Module AstFacts.

Import Ast.
Local Open Scope nat_scope.

Lemma height_unfold s :
  height s
  = match s with
    | InstanceSymbol _ => 1
    | GenerateBlockSymbol _ _ members => S (heights members)
    | MethodPrototypeSymbol _ members subroutine =>
        S (Nat.max (heights members)
             match subroutine with
             | Some sub => height sub
             | None => 0
             end)
    | Node _ _ _ bodyNodes members =>
        S (Nat.max (heights bodyNodes) (heights members))
    end.
Proof. destruct s; reflexivity. Qed.


Lemma addSpecialization_sink cs c :
  diags (addSpecialization cs c) = diags c
  /\ numErrors (addSpecialization cs c) = numErrors c
  /\ resolved (addSpecialization cs c) = resolved c.
Proof. unfold addSpecialization. now case_decide. Qed.

Lemma addSpecializations_sink l : forall c,
  let c' := foldl (fun c cs => addSpecialization cs c) c l in
  diags c' = diags c /\ numErrors c' = numErrors c /\ resolved c' = resolved c.
Proof.
  induction l as [| cs l IH]; intros c; simpl; [done |].
  destruct (IH (addSpecialization cs c)) as (-> & -> & ->).
  apply addSpecialization_sink.
Qed.

Lemma addDiags_sink l : forall c,
  let c' := foldl (fun c r => addDiag (diagOfReported r) c) c l in
  diags c' = diags c ++ map diagOfReported l
  /\ numErrors c <= numErrors c'
  /\ resolved c' = resolved c.
Proof.
  induction l as [| r l IH]; intros c; simpl.
  - now rewrite app_nil_r.
  - destruct (IH (addDiag (diagOfReported r) c)) as (-> & Hn & ->).
    simpl in *. rewrite <- app_assoc. split; [done |]. split; [| done].
    destruct (repIsError r); lia.
Qed.

(** Resolving one cell: the sink grows by the diagnostics of the cell (or
    not at all), the count of errors does not go down, and the cell is
    resolved afterwards. *)
Lemma force_spec l c :
  (diags (force l c) = diags c
   \/ diags (force l c) = diags c ++ map diagOfReported (lazyDiags l))
  /\ numErrors c <= numErrors (force l c)
  /\ resolved (force l c) = {[lazyId l]} ∪ resolved c.
Proof.
  unfold force. case_decide as Hin.
  - split; [now left |]. split; [lia | set_solver].
  - match goal with
    | |- context [foldl _ (foldl ?f ?c1 ?ds) ?ss] =>
        destruct (addSpecializations_sink ss (foldl f c1 ds)) as (-> & -> & ->);
        destruct (addDiags_sink ds c1) as (-> & Hn & ->)
    end.
    simpl in *. split; [now right |]. done.
Qed.

Lemma force_first_time l c :
  lazyId l ∉ resolved c ->
  diags (force l c) = diags c ++ map diagOfReported (lazyDiags l).
Proof.
  intros Hnew. unfold force. case_decide; [done |].
  match goal with
  | |- context [foldl _ (foldl ?f ?c1 ?ds) ?ss] =>
      destruct (addSpecializations_sink ss (foldl f c1 ds)) as (-> & _ & _);
      destruct (addDiags_sink ds c1) as (-> & _ & _)
  end.
  reflexivity.
Qed.

Lemma forceAll_app ls1 ls2 c :
  forceAll (ls1 ++ ls2) c = forceAll ls2 (forceAll ls1 c).
Proof. unfold forceAll. apply foldl_app. Qed.

(** The diagnostics a collaborator reports never carry the code of the
    recursion diagnostic. *)
Lemma reported_not_recursion l :
  List.filter DiagnosticVisitor.isRecursionDiag (map diagOfReported l) = [].
Proof. induction l as [| r l IH]; simpl; [done |]. exact IH. Qed.

Lemma forceAll_spec ls : forall c,
  (exists extra,
      diags (forceAll ls c) = diags c ++ extra
      /\ List.filter DiagnosticVisitor.isRecursionDiag extra = [])
  /\ numErrors c <= numErrors (forceAll ls c)
  /\ resolved c ⊆ resolved (forceAll ls c)
  /\ (forall l, l ∈ ls -> lazyId l ∈ resolved (forceAll ls c)).
Proof.
  induction ls as [| l ls IH]; intros c.
  - simpl. split; [exists []; now rewrite app_nil_r |].
    split; [lia |]. split; [done |]. intros l Hl. inversion Hl.
  - change (forceAll (l :: ls) c) with (forceAll ls (force l c)).
    destruct (IH (force l c)) as ((extra & Hd & Hex) & Hn & Hres & Hall).
    destruct (force_spec l c) as (Hd0 & Hn0 & Hr0).
    split; [| split; [lia |]; split].
    + destruct Hd0 as [Hd0 | Hd0]; rewrite Hd, Hd0.
      * now exists extra.
      * exists (map diagOfReported (lazyDiags l) ++ extra).
        rewrite <- app_assoc. split; [done |].
        now rewrite List.filter_app, reported_not_recursion, Hex.
    + rewrite Hr0 in Hres. set_solver.
    + intros l' Hl'. apply elem_of_cons in Hl' as [-> | Hl'].
      * apply Hres. rewrite Hr0. set_solver.
      * now apply Hall.
Qed.

Lemma force_recursionDiags l c :
  DiagnosticVisitor.recursionDiagsIn (diags (force l c))
  = DiagnosticVisitor.recursionDiagsIn (diags c).
Proof.
  unfold DiagnosticVisitor.recursionDiagsIn.
  destruct (force_spec l c) as ([-> | ->] & _); [done |].
  now rewrite List.filter_app, reported_not_recursion, app_nil_r.
Qed.

Lemma forceAll_recursionDiags ls c :
  DiagnosticVisitor.recursionDiagsIn (diags (forceAll ls c))
  = DiagnosticVisitor.recursionDiagsIn (diags c).
Proof.
  unfold DiagnosticVisitor.recursionDiagsIn.
  destruct (forceAll_spec ls c) as ((extra & -> & Hex) & _).
  now rewrite List.filter_app, Hex, app_nil_r.
Qed.

End AstFacts.

(* ===================================================================== *)
(** * Properties of [DiagnosticVisitor]                                   *)
(* ===================================================================== *)

Module DiagnosticVisitorFacts.

Import Ast DiagnosticVisitor AstFacts.
Local Open Scope nat_scope.

Section Facts.

Context (design : Design).
Context (errorLimit maxInstanceDepth : nat).

Local Abbreviation shortCircuit := (DiagnosticVisitor.shortCircuit errorLimit).
Local Abbreviation handleDefault := (DiagnosticVisitor.handleDefault errorLimit).
Local Abbreviation enterInstance := (DiagnosticVisitor.enterInstance maxInstanceDepth).
Local Abbreviation visitBody := (DiagnosticVisitor.visitBody design errorLimit).
Local Abbreviation handleInstance :=
  (DiagnosticVisitor.handleInstance design errorLimit maxInstanceDepth).
Local Abbreviation handle := (DiagnosticVisitor.handle design errorLimit maxInstanceDepth).
Local Abbreviation finalizePass :=
  (DiagnosticVisitor.finalizePass design errorLimit maxInstanceDepth).
Local Abbreviation finalizeLoop :=
  (DiagnosticVisitor.finalizeLoop design errorLimit maxInstanceDepth).
Local Abbreviation visitUninstantiated :=
  (DiagnosticVisitor.visitUninstantiated design errorLimit maxInstanceDepth).
Local Abbreviation finalize := (DiagnosticVisitor.finalize design errorLimit maxInstanceDepth).

(** ** The short circuit *)

Lemma handleDefault_shortCircuit visit k d body bodyNodes members v :
  shortCircuit v = true ->
  handleDefault visit k d body bodyNodes members v = Some (false, v).
Proof. intros Hsc. unfold DiagnosticVisitor.handleDefault. now rewrite Hsc. Qed.

Lemma handle_shortCircuit fuel s v :
  shortCircuit v = true -> handle (S fuel) s v = Some v.
Proof.
  intros Hsc. destruct s as [i | inst d ms | d ms sub | k d body bn ms]; simpl.
  - unfold DiagnosticVisitor.handleInstance. now rewrite Hsc.
  - destruct inst; simpl; [| done]. now rewrite handleDefault_shortCircuit.
  - now rewrite handleDefault_shortCircuit.
  - now rewrite handleDefault_shortCircuit.
Qed.

Lemma visitAll_cons visit s l v :
  visitAll visit (s :: l) v
  = match visit s v with
    | Some v' => visitAll visit l v'
    | None => None
    end.
Proof. reflexivity. Qed.

Lemma visitAll_shortCircuit fuel l : forall v,
  shortCircuit v = true -> visitAll (handle (S fuel)) l v = Some v.
Proof.
  induction l as [| s l IH]; intros v Hsc; [done |].
  rewrite visitAll_cons, handle_shortCircuit by done. now apply IH.
Qed.

(** ** The three ways through [enterInstance] *)

Lemma enterInstance_cases i v :
  let b := instBody i in
  let a := activeInstanceBodies v in
  ((b ∈ a)
   /\ enterInstance i v
      = Refused (record (Rejected (instDefinition i) b)
                   (setHierarchyProblem
                      (onCompilation
                         (addDiag (recursionDiag i)) (afterOwnLazies i v)))))
  \/ ((b ∉ a) /\ maxInstanceDepth < size ({[b]} ∪ a)
      /\ enterInstance i v
         = Refused (guardExit i
                      (record (Rejected (instDefinition i) b)
                         (setHierarchyProblem
                            (onCompilation
                               (addDiag (depthDiag maxInstanceDepth i))
                               (setActive ({[b]} ∪ a) (afterOwnLazies i v)))))))
  \/ ((b ∉ a) /\ size ({[b]} ∪ a) <= maxInstanceDepth
      /\ enterInstance i v
         = Accepted (record (Entered (instDefinition i) b)
                       (setActive ({[b]} ∪ a) (afterOwnLazies i v)))).
Proof.
  intros b a. unfold DiagnosticVisitor.enterInstance, afterOwnLazies. simpl.
  fold b a. case_decide as Hin; [now left |]. right.
  destruct (maxInstanceDepth <? size ({[b]} ∪ a)) eqn:Hsize.
  - left. apply Nat.ltb_lt in Hsize. done.
  - right. apply Nat.ltb_ge in Hsize. done.
Qed.

Section StableTraversal.

Context (R : Visitor -> Visitor -> Prop).
Context (HR : Stable errorLimit maxInstanceDepth R).

Lemma visitAll_stable visit l :
  (forall s v v', visit s v = Some v' -> R v v') ->
  forall v v', visitAll visit l v = Some v' -> R v v'.
Proof.
  intros Hvisit. induction l as [| s l IH]; intros v v' H; simpl in H.
  - injection H as <-. apply (stable_refl _ _ R HR).
  - destruct (visit s v) as [v1 |] eqn:E; [| discriminate].
    eapply (stable_trans _ _ R HR); eauto.
Qed.

Lemma handleDefault_stable visit k d body bodyNodes members v ok v' :
  (forall s v v', visit s v = Some v' -> R v v') ->
  handleDefault visit k d body bodyNodes members v = Some (ok, v') ->
  R v v'.
Proof.
  intros Hvisit H. unfold DiagnosticVisitor.handleDefault in H.
  destruct (shortCircuit v).
  { injection H as _ <-. apply (stable_refl _ _ R HR). }
  pose proof (stable_forceAll _ _ R HR (defaultLazies k d) v) as H1.
  destruct body.
  - destruct (visitAll visit members _) as [v3 |] eqn:E3; simpl in H;
      [| discriminate].
    injection H as _ <-.
    eapply (stable_trans _ _ R HR); [exact H1 |].
    eapply visitAll_stable; eauto.
  - injection H as _ <-. exact H1.
  - destruct (visitAll visit bodyNodes _) as [v2 |] eqn:E2; simpl in H;
      [| discriminate].
    destruct (visitAll visit members v2) as [v3 |] eqn:E3; simpl in H;
      [| discriminate].
    injection H as _ <-.
    eapply (stable_trans _ _ R HR); [exact H1 |].
    eapply (stable_trans _ _ R HR); eapply visitAll_stable; eauto.
Qed.

Lemma afterDefault_stable k d v : R v (afterDefault k d v).
Proof.
  unfold afterDefault.
  destruct k; try apply (stable_refl _ _ R HR); try apply (stable_forceAll _ _ R HR).
  - (* InterfacePort *)
    eapply (stable_trans _ _ R HR); [apply (stable_forceAll _ _ R HR) |].
    destruct (interfaceDef d) as [def |]; [| apply (stable_refl _ _ R HR)].
    eapply (stable_trans _ _ R HR); [apply (stable_useIfacePort _ _ R HR) |].
    destruct (modportConnection d) as [[conn [modport |]] |].
    + eapply (stable_trans _ _ R HR); [apply (stable_force _ _ R HR) |].
      apply (stable_pushModportWithExports _ _ R HR).
    + apply (stable_force _ _ R HR).
    + apply (stable_refl _ _ R HR).
  - apply (stable_pushGenericClass _ _ R HR).
  - destruct (isDPIImport d);
      [apply (stable_pushDpiImport _ _ R HR) | apply (stable_refl _ _ R HR)].
Qed.

Lemma handleInstance_stable visit i v v' :
  (forall s v v', visit s v = Some v' -> R v v') ->
  handleInstance visit i v = Some v' -> R v v'.
Proof.
  intros Hvisit H. unfold DiagnosticVisitor.handleInstance in H.
  destruct (shortCircuit v) eqn:Hsc.
  { injection H as <-. apply (stable_refl _ _ R HR). }
  destruct (enterInstance i v) as [vr | v1] eqn:He.
  - injection H as <-. eapply (stable_refused _ _ R HR); eauto.
  - unfold DiagnosticVisitor.visitBody in H.
    destruct (handleDefault visit InstanceBody _ NoBody [] _ v1)
      as [[ok v2] |] eqn:Hb; simpl in H; [| discriminate].
    injection H as <-.
    eapply (stable_accepted _ _ R HR); eauto.
    eapply handleDefault_stable; eauto.
Qed.

Lemma handle_stable fuel : forall s v v', handle fuel s v = Some v' -> R v v'.
Proof.
  induction fuel as [| fuel IH]; intros s v v' H; [discriminate |].
  destruct s as [i | inst d ms | d ms sub | k d body bn ms]; simpl in H.
  - eapply handleInstance_stable; eauto.
  - destruct inst; simpl in H.
    + destruct (handleDefault (handle fuel) GenerateBlock d NoBody [] ms v)
        as [[ok v0] |] eqn:Hd; simpl in H; [| discriminate].
      injection H as <-. eapply handleDefault_stable; eauto.
    + injection H as <-. apply (stable_refl _ _ R HR).
  - destruct (handleDefault (handle fuel) MethodPrototype d NoBody [] ms v)
      as [[ok v0] |] eqn:Hd; simpl in H; [| discriminate].
    pose proof (handleDefault_stable _ _ _ _ _ _ _ _ _ IH Hd) as H0.
    destruct ok; [| injection H as <-; exact H0].
    eapply (stable_trans _ _ R HR); [exact H0 |].
    eapply (stable_trans _ _ R HR); [apply (stable_forceAll _ _ R HR (getters d)) |].
    destruct sub as [sub |].
    + destruct (handle fuel sub _) as [v2 |] eqn:Hs; simpl in H; [| discriminate].
      injection H as <-.
      eapply (stable_trans _ _ R HR); [eapply IH; eauto |].
      destruct (isInterfaceExtern d);
        [apply (stable_pushExternIfaceProto _ _ R HR) | apply (stable_refl _ _ R HR)].
    + simpl in H. injection H as <-.
      destruct (isInterfaceExtern d);
        [apply (stable_pushExternIfaceProto _ _ R HR) | apply (stable_refl _ _ R HR)].
  - destruct (handleDefault (handle fuel) k d body bn ms v)
      as [[ok v0] |] eqn:Hd; simpl in H; [| discriminate].
    injection H as <-.
    pose proof (handleDefault_stable _ _ _ _ _ _ _ _ _ IH Hd) as H0.
    destruct ok; [| exact H0].
    eapply (stable_trans _ _ R HR); [exact H0 | apply afterDefault_stable].
Qed.

Lemma visitAll_handle_stable fuel l v v' :
  visitAll (handle fuel) l v = Some v' -> R v v'.
Proof. apply visitAll_stable. apply handle_stable. Qed.

Lemma finalizePass_stable fuel classes : forall visited did v visited' did' v',
  finalizePass fuel classes visited did v = Some (visited', did', v') -> R v v'.
Proof.
  induction classes as [| c classes IH]; intros visited did v visited' did' v' H;
    simpl in H.
  - injection H as _ _ <-. apply (stable_refl _ _ R HR).
  - destruct (collectSpecs _ visited []) as [vs toVisit].
    destruct (visitAll (handle fuel) _ v) as [v1 |] eqn:Hv; simpl in H;
      [| discriminate].
    eapply (stable_trans _ _ R HR); [eapply visitAll_handle_stable; eauto |].
    eapply IH; eauto.
Qed.

Lemma finalizeLoop_stable fuel rounds : forall visited v visited' v',
  finalizeLoop rounds fuel visited v = Some (visited', v') -> R v v'.
Proof.
  induction rounds as [| rounds IH]; intros visited v visited' v' H;
    [discriminate |]. simpl in H.
  destruct (finalizePass fuel (genericClasses v) visited false v)
    as [[[vs did] v1] |] eqn:Hp; simpl in H; [| discriminate].
  pose proof (finalizePass_stable _ _ _ _ _ _ _ _ Hp) as H1.
  destruct did.
  - eapply (stable_trans _ _ R HR); [exact H1 |]. eapply IH; eauto.
  - injection H as _ <-. exact H1.
Qed.

Lemma visitUninstantiated_stable fuel classes : forall v v',
  visitUninstantiated fuel classes v = Some v' -> R v v'.
Proof.
  induction classes as [| c classes IH]; intros v v' H; simpl in H.
  - injection H as <-. apply (stable_refl _ _ R HR).
  - destruct (length (specializationsOf c (compilation v)) =? 0).
    + destruct (handle fuel _ v) as [v1 |] eqn:Hv; simpl in H; [| discriminate].
      eapply (stable_trans _ _ R HR); [eapply handle_stable; eauto |].
      eapply IH; eauto.
    + simpl in H. eapply IH; eauto.
Qed.

Lemma finalize_stable rounds fuel v visited v' :
  finalize rounds fuel v = Some (visited, v') -> R v v'.
Proof.
  unfold DiagnosticVisitor.finalize. intros H.
  destruct (finalizeLoop rounds fuel ∅ v) as [[vs v0] |] eqn:Hl; simpl in H;
    [| discriminate].
  destruct (visitUninstantiated fuel (genericClasses v0) v0) as [v1 |] eqn:Hu;
    simpl in H; [| discriminate].
  injection H as _ <-.
  eapply (stable_trans _ _ R HR);
    [eapply finalizeLoop_stable | eapply visitUninstantiated_stable]; eauto.
Qed.

End StableTraversal.

(** ** The relations at hand are stable *)

Lemma keepsActive_stable : Stable errorLimit maxInstanceDepth keepsActive.
Proof.
  split; unfold keepsActive; try done.
  - intros a b c Hab Hbc. congruence.
  - intros i v v' _ He.
    destruct (enterInstance_cases i v) as [(Hin & E) | [(Hnin & _ & E) | (_ & _ & E)]];
      rewrite E in He; [| | discriminate]; injection He as <-; simpl; [done |].
    set_solver.
  - intros i v v1 v2 _ He H12.
    destruct (enterInstance_cases i v) as [(_ & E) | [(_ & _ & E) | (Hnin & _ & E)]];
      rewrite E in He; [discriminate | discriminate |]; injection He as <-.
    simpl in *. rewrite H12. set_solver.
Qed.

Lemma sticky_stable : Stable errorLimit maxInstanceDepth sticky.
Proof.
  split; unfold sticky; try (intros; simpl; split; [done | lia]).
  - intros a b c [H1 H2] [H3 H4]. split; [auto | lia].
  - intros ls v. simpl. split; [done |]. apply forceAll_spec.
  - intros l v. simpl. split; [done |]. apply force_spec.
  - intros i v v' _ He.
    pose proof (forceAll_spec (instanceLazies i) (compilation v)) as (_ & Hn & _).
    destruct (enterInstance_cases i v) as [(_ & E) | [(_ & _ & E) | (_ & _ & E)]];
      rewrite E in He; [| | discriminate]; injection He as <-; simpl;
      (split; [done | lia]).
  - intros i v v1 v2 _ He [Hh Hn2].
    pose proof (forceAll_spec (instanceLazies i) (compilation v)) as (_ & Hn & _).
    destruct (enterInstance_cases i v) as [(_ & E) | [(_ & _ & E) | (_ & _ & E)]];
      rewrite E in He; [discriminate | discriminate |]; injection He as <-.
    simpl in *. split; [done | lia].
Qed.

Lemma filter_length_snoc {A} (p : A -> bool) l x :
  length (List.filter p (l ++ [x]))
  = length (List.filter p l) + (if p x then 1 else 0).
Proof.
  rewrite List.filter_app, length_app. simpl. now destruct (p x).
Qed.

Lemma instanceCountOf_countInstance def def' v :
  instanceCountOf def' (countInstance def v)
  = instanceCountOf def' v + (if bool_decide (def = def') then 1 else 0).
Proof.
  unfold instanceCountOf, countInstance. simpl.
  case_bool_decide as Hd.
  - subst def'. rewrite lookup_insert_eq. simpl. lia.
  - rewrite lookup_insert_ne by done. lia.
Qed.

Lemma Counted_stable : Stable errorLimit maxInstanceDepth (keeps Counted).
Proof.
  split; unfold keeps; try done.
  - auto.
  - intros i v v' _ He Hc def.
    specialize (Hc def).
    pose proof (instanceCountOf_countInstance (instDefinition i) def v) as Hi.
    destruct (enterInstance_cases i v) as [(_ & E) | [(_ & _ & E) | (_ & _ & E)]];
      rewrite E in He; [| | discriminate]; injection He as <-;
      unfold instanceCountOf, successfulEntries, rejectedEntries in *; simpl in *;
      rewrite !filter_length_snoc; simpl; lia.
  - intros i v v1 v2 _ He H12 Hc. apply H12. intros def.
    specialize (Hc def).
    pose proof (instanceCountOf_countInstance (instDefinition i) def v) as Hi.
    destruct (enterInstance_cases i v) as [(_ & E) | [(_ & _ & E) | (_ & _ & E)]];
      rewrite E in He; [discriminate | discriminate |]; injection He as <-.
    unfold instanceCountOf, successfulEntries, rejectedEntries in *; simpl in *.
    rewrite !filter_length_snoc; simpl. lia.
Qed.

Lemma shortCircuit_open v :
  shortCircuit v = false ->
  hierarchyProblem v = false /\ numErrors (compilation v) <= errorLimit.
Proof.
  unfold DiagnosticVisitor.shortCircuit. intros H.
  apply orb_false_iff in H as [Hn Hh]. apply Nat.ltb_ge in Hn. done.
Qed.

Lemma ReportedOnce_stable : Stable errorLimit maxInstanceDepth (keeps ReportedOnce).
Proof.
  split; unfold keeps, ReportedOnce; try done.
  - auto.
  - intros ls v Hd. unfold recursionDiags in *. simpl.
    now rewrite forceAll_recursionDiags.
  - intros l v Hd. unfold recursionDiags in *. simpl.
    now rewrite force_recursionDiags.
  - intros i v v' Hsc He Hd.
    apply shortCircuit_open in Hsc as [Hh _]. rewrite Hh in Hd.
    pose proof (forceAll_recursionDiags (instanceLazies i) (compilation v)) as Hf.
    destruct (enterInstance_cases i v) as [(_ & E) | [(_ & _ & E) | (_ & _ & E)]];
      rewrite E in He; [| | discriminate]; injection He as <-;
      unfold recursionDiags, recursionDiagsIn in *;
      simpl in *; rewrite !filter_length_snoc; simpl; lia.
  - intros i v v1 v2 Hsc He H12 Hd. apply H12.
    pose proof (forceAll_recursionDiags (instanceLazies i) (compilation v)) as Hf.
    destruct (enterInstance_cases i v) as [(_ & E) | [(_ & _ & E) | (_ & _ & E)]];
      rewrite E in He; [discriminate | discriminate |]; injection He as <-.
    unfold recursionDiags, recursionDiagsIn in *; simpl in *. lia.
Qed.

Lemma RejectedOnce_stable : Stable errorLimit maxInstanceDepth (keeps RejectedOnce).
Proof.
  split; unfold keeps, RejectedOnce; try done.
  - auto.
  - intros i v v' Hsc He Hr.
    apply shortCircuit_open in Hsc as [Hh _]. rewrite Hh in Hr.
    destruct (enterInstance_cases i v) as [(_ & E) | [(_ & _ & E) | (_ & _ & E)]];
      rewrite E in He; [| | discriminate]; injection He as <-;
      unfold rejections in *; simpl in *; rewrite !filter_length_snoc;
      simpl; lia.
  - intros i v v1 v2 Hsc He H12 Hr. apply H12.
    destruct (enterInstance_cases i v) as [(_ & E) | [(_ & _ & E) | (_ & _ & E)]];
      rewrite E in He; [discriminate | discriminate |]; injection He as <-.
    unfold rejections in *; simpl in *. rewrite !filter_length_snoc; simpl. lia.
Qed.

Lemma sticky_shortCircuit v v' :
  sticky v v' -> shortCircuit v = true -> shortCircuit v' = true.
Proof.
  unfold sticky, DiagnosticVisitor.shortCircuit. intros [Hh Hn] H.
  apply orb_true_iff in H as [H | H]; apply orb_true_iff.
  - left. apply Nat.ltb_lt in H. apply Nat.ltb_lt. lia.
  - right. auto.
Qed.


(** ** The traversal returns *)

Section Termination.

Context (bound : nat).
Context (Hbound : forall b, heights (bodyMembers design b) <= bound).

Local Abbreviation room := (DiagnosticVisitor.room maxInstanceDepth).

Local Abbreviation Returns fuel :=
  (forall s v,
     height s + room v * (bound + 2) <= fuel ->
     exists v', handle fuel s v = Some v').

Lemma room_keepsActive v v' : keepsActive v v' -> room v' = room v.
Proof. unfold keepsActive, DiagnosticVisitor.room. now intros ->. Qed.

Lemma visitAll_returns fuel l : forall v,
  Returns fuel ->
  heights l + room v * (bound + 2) <= fuel ->
  exists v', visitAll (handle fuel) l v = Some v'.
Proof.
  induction l as [| s l IH]; intros v Hret Hfuel; [now exists v |].
  simpl in Hfuel. rewrite visitAll_cons.
  destruct (Hret s v) as (v1 & Hv1); [lia |]. rewrite Hv1.
  apply IH; [done |].
  rewrite (room_keepsActive v v1); [lia |].
  exact (handle_stable _ keepsActive_stable _ _ _ _ Hv1).
Qed.

Lemma handleDefault_returns fuel k d body bodyNodes members v :
  Returns fuel ->
  Nat.max (heights bodyNodes) (heights members) + room v * (bound + 2) <= fuel ->
  exists r, handleDefault (handle fuel) k d body bodyNodes members v = Some r.
Proof.
  intros Hret Hfuel. unfold DiagnosticVisitor.handleDefault.
  destruct (shortCircuit v); [eauto |].
  set (v1 := onCompilation (forceAll (defaultLazies k d)) v).
  assert (room v1 = room v) as Hr1 by reflexivity.
  destruct body.
  - destruct (visitAll_returns fuel members v1 Hret) as (v3 & ->); [lia |].
    simpl. eauto.
  - eauto.
  - destruct (visitAll_returns fuel bodyNodes v1 Hret) as (v2 & Hv2); [lia |].
    rewrite Hv2. simpl.
    pose proof (visitAll_handle_stable _ keepsActive_stable _ _ _ _ Hv2) as Hk.
    apply room_keepsActive in Hk.
    destruct (visitAll_returns fuel members v2 Hret) as (v3 & ->); [lia |].
    simpl. eauto.
Qed.

Lemma handle_returns_aux fuel : Returns fuel.
Proof.
  induction fuel as [| fuel IH]; intros s v Hfuel.
  { rewrite height_unfold in Hfuel. destruct s; simpl in Hfuel; lia. }
  rewrite height_unfold in Hfuel.
  destruct s as [i | inst d ms | d ms sub | k d body bn ms]; simpl.
  - unfold DiagnosticVisitor.handleInstance.
    destruct (shortCircuit v); [eauto |].
    destruct (enterInstance_cases i v)
      as [(_ & E) | [(_ & _ & E) | (Hnin & Hsize & E)]];
      rewrite E; [eauto | eauto |].
    unfold DiagnosticVisitor.visitBody.
    match goal with
    | |- context [handleDefault _ InstanceBody ?bd NoBody [] ?bm ?v1] =>
        destruct (handleDefault_returns fuel InstanceBody bd NoBody [] bm v1 IH)
          as ([ok v2] & ->); [| simpl; eauto]
    end.
    pose proof (Hbound (instBody i)) as Hb.
    unfold DiagnosticVisitor.room in *. simpl in *.
    rewrite size_union in * by set_solver. rewrite size_singleton in *.
    nia.
  - destruct inst; simpl; [| eauto].
    destruct (handleDefault_returns fuel GenerateBlock d NoBody [] ms v IH)
      as ([ok v0] & ->); [simpl in *; lia |]. simpl. eauto.
  - destruct (handleDefault_returns fuel MethodPrototype d NoBody [] ms v IH)
      as ([ok v0] & Hd); [simpl in *; lia |]. rewrite Hd. simpl.
    destruct ok; [| eauto].
    assert (keepsActive v v0) as Hk.
    { eapply (handleDefault_stable _ keepsActive_stable); [| exact Hd].
      apply (handle_stable _ keepsActive_stable). }
    apply room_keepsActive in Hk.
    destruct sub as [sub |]; simpl; [| eauto].
    destruct (IH sub (onCompilation (forceAll (getters d)) v0)) as (v2 & ->).
    + change (room (onCompilation (forceAll (getters d)) v0)) with (room v0).
      lia.
    + simpl. eauto.
  - destruct (handleDefault_returns fuel k d body bn ms v IH)
      as ([ok v0] & ->); [lia |]. simpl. eauto.
Qed.

End Termination.

(** With fuel enough for the height of the bodies and the depth that is
    left, the traversal returns. *)
Lemma handle_returns bound s v :
  (forall b, heights (bodyMembers design b) <= bound) ->
  exists v', handle (enoughFuel maxInstanceDepth bound s v) s v = Some v'.
Proof.
  intros Hbound. apply (handle_returns_aux bound Hbound).
  unfold enoughFuel. lia.
Qed.

(** ** The handler of an instance at a rejection *)

Lemma handle_refused fuel i v v' :
  shortCircuit v = false ->
  enterInstance i v = Refused v' ->
  handle (S fuel) (InstanceSymbol i) v = Some v'.
Proof.
  intros Hsc He. simpl. unfold DiagnosticVisitor.handleInstance.
  now rewrite Hsc, He.
Qed.

Lemma shortCircuit_setHierarchyProblem v :
  shortCircuit (setHierarchyProblem v) = true.
Proof. unfold DiagnosticVisitor.shortCircuit. simpl. apply orb_true_r. Qed.

Lemma visitAll_app visit l1 : forall l2 v,
  visitAll visit (l1 ++ l2) v
  = match visitAll visit l1 v with
    | Some v' => visitAll visit l2 v'
    | None => None
    end.
Proof.
  induction l1 as [| s l1 IH]; intros l2 v; [reflexivity |].
  change ((s :: l1) ++ l2) with (s :: (l1 ++ l2)).
  rewrite !visitAll_cons. destruct (visit s v); [apply IH | reflexivity].
Qed.

Lemma shortCircuit_before v v' :
  sticky v v' -> shortCircuit v' = false -> shortCircuit v = false.
Proof.
  intros Hs Hv'. destruct (shortCircuit v) eqn:Hv; [| done].
  rewrite (sticky_shortCircuit _ _ Hs Hv) in Hv'. discriminate.
Qed.

(** An instance whose body is not active and fits under the depth cap is
    accepted, with its body put in the active set. *)
Lemma enterInstance_accepted i v :
  instBody i ∉ activeInstanceBodies v ->
  size (activeInstanceBodies v) < maxInstanceDepth ->
  enterInstance i v = Accepted (entered i v).
Proof.
  intros Hnin Hsize.
  destruct (enterInstance_cases i v)
    as [(Hin & _) | [(_ & Hbig & _) | (_ & _ & E)]]; [done | | exact E].
  rewrite size_union in Hbig by set_solver. rewrite size_singleton in Hbig. lia.
Qed.

(** A definition that instantiates itself: the handler of an instance
    whose body holds, after the members [pre], an instance [j] with the
    same body. *)
Lemma self_instantiation_reported fuel i v pre j rest u :
  shortCircuit v = false ->
  instBody i ∉ activeInstanceBodies v ->
  size (activeInstanceBodies v) < maxInstanceDepth ->
  bodyMembers design (instBody i) = pre ++ InstanceSymbol j :: rest ->
  instBody j = instBody i ->
  visitAll (handle (S fuel)) pre (insideBody design i v) = Some u ->
  shortCircuit u = false ->
  handle (S (S fuel)) (InstanceSymbol i) v
  = Some (guardExit i
            (record (Rejected (instDefinition j) (instBody j))
               (setHierarchyProblem
                  (onCompilation (addDiag (recursionDiag j))
                     (afterOwnLazies j u))))).
Proof.
  intros Hsc Hnin Hsize Hmembers Hsame Hpre Hu.
  assert (Hinside : shortCircuit (insideBody design i v) = false).
  { apply (shortCircuit_before _ u); [| done].
    exact (visitAll_handle_stable _ sticky_stable _ _ _ _ Hpre). }
  assert (Hentered : shortCircuit (entered i v) = false).
  { apply (shortCircuit_before _ (insideBody design i v)); [| done].
    apply (stable_forceAll _ _ _ sticky_stable). }
  assert (Hactive : instBody j ∈ activeInstanceBodies u).
  { rewrite (visitAll_handle_stable _ keepsActive_stable _ _ _ _ Hpre).
    rewrite Hsame. simpl. set_solver. }
  change (handle (S (S fuel)) (InstanceSymbol i) v)
    with (DiagnosticVisitor.handleInstance design errorLimit maxInstanceDepth
            (handle (S fuel)) i v).
  unfold DiagnosticVisitor.handleInstance.
  rewrite Hsc, (enterInstance_accepted i v Hnin Hsize).
  unfold DiagnosticVisitor.visitBody, DiagnosticVisitor.handleDefault.
  rewrite Hentered. fold (insideBody design i v).
  rewrite Hmembers, visitAll_app, Hpre, visitAll_cons.
  destruct (enterInstance_cases j u) as [(_ & E) | [(Hnin' & _) | (Hnin' & _)]];
    [| done | done].
  rewrite (handle_refused fuel j u _ Hu E).
  rewrite visitAll_shortCircuit; [reflexivity |].
  unfold DiagnosticVisitor.shortCircuit. simpl. apply orb_true_r.
Qed.

(** C1.  An instance that passes the guard with a body that is not
    active (and fits under the depth cap) is accepted: its body is put in
    the active set and the handler goes on to visit the body.  An
    instance whose body is already active is turned down: the handler
    returns having added, after the diagnostics of the instance's own
    lazy members, exactly the one InfinitelyRecursiveHierarchy diagnostic,
    at the location of the instance and with its name, with the hierarchy
    problem set, so that every later handler returns at once and the body
    and everything below it stay unvisited.  So for a definition that
    instantiates itself: the handler of an instance whose body holds an
    instance [j] with the same body returns with the compilation as it
    was when [j] was reached, but for the lazy members of [j] and the one
    diagnostic at [j]; nothing after [j] and nothing below it adds to it.
    And a traversal that begins with no such diagnostic reported ends
    with at most one. *)
Theorem recursion_reported_once (fuel : nat) (i : InstanceData) (v : Visitor) :
  shortCircuit v = false ->
  (instBody i ∉ activeInstanceBodies v ->
   size (activeInstanceBodies v) < maxInstanceDepth ->
   enterInstance i v = Accepted (entered i v)
   /\ activeInstanceBodies (entered i v)
      = {[instBody i]} ∪ activeInstanceBodies v
   /\ handle (S fuel) (InstanceSymbol i) v
      = (v'' ← DiagnosticVisitor.visitBody design errorLimit (handle fuel)
                 (instBody i) (entered i v);
         Some (guardExit i v'')))
  /\ (instBody i ∈ activeInstanceBodies v ->
      exists v',
        handle (S fuel) (InstanceSymbol i) v = Some v'
        /\ diags (compilation v')
           = diags (compilation (afterOwnLazies i v))
             ++ [mkDiagnostic InfinitelyRecursiveHierarchy (instLocation i)
                   [ArgString (instName i)] true]
        /\ recursionDiags v' = S (recursionDiags v)
        /\ hierarchyProblem v' = true
        /\ activeInstanceBodies v' = activeInstanceBodies v
        /\ forall fuel' s, handle (S fuel') s v' = Some v')
  /\ (forall pre j rest u,
        instBody i ∉ activeInstanceBodies v ->
        size (activeInstanceBodies v) < maxInstanceDepth ->
        bodyMembers design (instBody i) = pre ++ InstanceSymbol j :: rest ->
        instBody j = instBody i ->
        visitAll (handle (S fuel)) pre (insideBody design i v) = Some u ->
        shortCircuit u = false ->
        exists v',
          handle (S (S fuel)) (InstanceSymbol i) v = Some v'
          /\ compilation v'
             = addDiag
                 (mkDiagnostic InfinitelyRecursiveHierarchy (instLocation j)
                    [ArgString (instName j)] true)
                 (compilation (afterOwnLazies j u))
          /\ hierarchyProblem v' = true
          /\ activeInstanceBodies v' = activeInstanceBodies v
          /\ (recursionDiags v = 0 -> recursionDiags v' = 1))
  /\ (forall fuel' s v',
        handle fuel' s v = Some v' -> recursionDiags v = 0 ->
        recursionDiags v' <= 1).
Proof.
  intros Hsc.
  assert (Hmost : forall fuel' s v',
            handle fuel' s v = Some v' -> recursionDiags v = 0 ->
            recursionDiags v' <= 1).
  { intros fuel' s v' H H0.
    pose proof (handle_stable _ ReportedOnce_stable _ _ _ _ H) as Hk.
    unfold keeps, ReportedOnce in Hk.
    apply shortCircuit_open in Hsc as [Hh _]. rewrite Hh in Hk.
    specialize (Hk ltac:(lia)). destruct (hierarchyProblem v'); lia. }
  split; [| split; [| split; [| exact Hmost]]].
  - intros Hnin Hsize. split; [now apply enterInstance_accepted |].
    split; [reflexivity |].
    simpl. unfold DiagnosticVisitor.handleInstance.
    now rewrite Hsc, enterInstance_accepted.
  - intros Hin.
    destruct (enterInstance_cases i v) as [(_ & E) | [(Hnin & _) | (Hnin & _)]];
      [| done | done].
    eexists. split; [apply handle_refused; eassumption |].
    split; [reflexivity |]. split; [| split; [reflexivity |]; split; [reflexivity |]].
    + unfold recursionDiags, recursionDiagsIn. simpl.
      rewrite filter_length_snoc. simpl.
      pose proof (forceAll_recursionDiags (instanceLazies i) (compilation v)) as Hf.
      unfold recursionDiagsIn in Hf. simpl in Hf. lia.
    + intros fuel' s. apply handle_shortCircuit.
      unfold DiagnosticVisitor.shortCircuit. simpl. apply orb_true_r.
  - intros pre j rest u Hnin Hsize Hmembers Hsame Hpre Hu.
    pose proof (self_instantiation_reported fuel i v pre j rest u
                  Hsc Hnin Hsize Hmembers Hsame Hpre Hu) as Hv.
    eexists. split; [exact Hv |].
    split; [reflexivity |]. split; [reflexivity |]. split.
    + simpl.
      rewrite (visitAll_handle_stable _ keepsActive_stable _ _ _ _ Hpre).
      simpl. set_solver.
    + intros H0. pose proof (Hmost _ _ _ Hv H0) as Hle.
      assert (1 <= recursionDiags
                     (guardExit i
                        (record (Rejected (instDefinition j) (instBody j))
                           (setHierarchyProblem
                              (onCompilation (addDiag (recursionDiag j))
                                 (afterOwnLazies j u)))))); [| lia].
      unfold recursionDiags, recursionDiagsIn. simpl.
      rewrite filter_length_snoc. simpl. lia.
Qed.

(** C2.  Across any run of any handler neither condition of the short
    circuit is undone: a hierarchy problem stays set and the count of
    errors does not go down.  And with either condition true every handler,
    on every symbol, returns at once: the visitor and the compilation are
    left exactly as they were, so no lazy member was resolved and no
    diagnostic added. *)
Theorem short_circuit_immediate_and_sticky
    (fuel : nat) (s : Symbol) (v v' : Visitor) :
  handle fuel s v = Some v' ->
  (hierarchyProblem v = true -> hierarchyProblem v' = true)
  /\ numErrors (compilation v) <= numErrors (compilation v')
  /\ (shortCircuit v = true -> v' = v)
  /\ (shortCircuit v = true -> shortCircuit v' = true)
  /\ (shortCircuit v' = true ->
      forall fuel' s', handle (S fuel') s' v' = Some v').
Proof.
  intros H.
  pose proof (handle_stable _ sticky_stable _ _ _ _ H) as [Hh Hn].
  split; [exact Hh |]. split; [exact Hn |]. split; [| split].
  - intros Hsc. destruct fuel as [| fuel]; [discriminate |].
    rewrite handle_shortCircuit in H by done. congruence.
  - now apply sticky_shortCircuit.
  - intros Hsc fuel' s'. now apply handle_shortCircuit.
Qed.

(** C3, as the code has it.  After the main traversal and after
    [finalize], the count of every definition is the number of entries of
    its instances that passed the guard: those that went on into the body
    and those that were turned down for recursion or depth; and in the
    whole elaboration at most one entry is turned down. *)
Theorem instance_count_counts_every_entry
    (rounds fuel : nat) (root : Symbol) (c : Compilation)
    (v1 v' : Visitor) (visited : gset nat) :
  handle fuel root (newVisitor c) = Some v1 ->
  finalize rounds fuel v1 = Some (visited, v') ->
  (forall def,
     instanceCountOf def v1 = successfulEntries def v1 + rejectedEntries def v1)
  /\ (forall def,
        instanceCountOf def v' = successfulEntries def v' + rejectedEntries def v')
  /\ rejections v' <= 1.
Proof.
  intros H1 H2.
  assert (Counted (newVisitor c)) as Hc0 by (intros def; reflexivity).
  assert (RejectedOnce (newVisitor c)) as Hr0
    by (unfold RejectedOnce, rejections; simpl; lia).
  pose proof (handle_stable _ Counted_stable _ _ _ _ H1 Hc0) as Hc1.
  pose proof (finalize_stable _ Counted_stable _ _ _ _ _ H2 Hc1) as Hc2.
  pose proof (handle_stable _ RejectedOnce_stable _ _ _ _ H1 Hr0) as Hr1.
  pose proof (finalize_stable _ RejectedOnce_stable _ _ _ _ _ H2 Hr1) as Hr2.
  split; [exact Hc1 |]. split; [exact Hc2 |].
  unfold RejectedOnce in Hr2. destruct (hierarchyProblem v'); lia.
Qed.

(** C4.  In a design whose bodies have a bounded height, the handler of
    any symbol, so of any instance, returns when given enough fuel; and
    whatever way a handler returns (short circuit, recursion, depth cap,
    or after the body was visited), the active set it leaves is the set it
    found: the one insertion it may have made has been undone. *)
Theorem active_bodies_restored (bound : nat) (s : Symbol) (v : Visitor) :
  (forall b, heights (bodyMembers design b) <= bound) ->
  (exists v', handle (enoughFuel maxInstanceDepth bound s v) s v = Some v')
  /\ (forall fuel v',
        handle fuel s v = Some v' ->
        activeInstanceBodies v' = activeInstanceBodies v).
Proof.
  intros Hbound. split; [now apply handle_returns |].
  intros fuel v'. apply (handle_stable _ keepsActive_stable).
Qed.

(** C10.  An instance that passed the guard and is then turned down, for
    recursion or for depth, has by then been counted, and all the lazy
    members of the instance (attribute values, connection expressions and
    the rest) are resolved; the diagnostic of the rejection comes after
    whatever they reported, and what the first of them reports on its
    first resolution is in the sink. *)
Theorem rejection_is_not_atomic (fuel : nat) (i : InstanceData) (v v' : Visitor) :
  shortCircuit v = false ->
  enterInstance i v = Refused v' ->
  handle (S fuel) (InstanceSymbol i) v = Some v'
  /\ instanceCountOf (instDefinition i) v'
     = S (instanceCountOf (instDefinition i) v)
  /\ (forall l, l ∈ instAttributes i -> lazyId l ∈ resolved (compilation v'))
  /\ (forall conn, conn ∈ instConnections i ->
        lazyId (connExpression conn) ∈ resolved (compilation v'))
  /\ (exists d,
        diags (compilation v')
        = diags (forceAll (instanceLazies i) (compilation v)) ++ [d]
        /\ (d = recursionDiag i \/ d = depthDiag maxInstanceDepth i))
  /\ (forall l rest r,
        instanceLazies i = l :: rest ->
        lazyId l ∉ resolved (compilation v) ->
        r ∈ lazyDiags l ->
        diagOfReported r ∈ diags (compilation v')).
Proof.
  intros Hsc He.
  split; [now apply handle_refused |].
  pose proof (instanceCountOf_countInstance (instDefinition i) (instDefinition i) v)
    as Hcount.
  rewrite bool_decide_eq_true_2 in Hcount by done.
  pose proof (forceAll_spec (instanceLazies i) (compilation v))
    as (_ & _ & _ & Hres).
  assert (Hattr : forall l, l ∈ instAttributes i -> l ∈ instanceLazies i).
  { intros l Hl. unfold instanceLazies. apply elem_of_app. now left. }
  assert (Hconn : forall conn, conn ∈ instConnections i ->
                    connExpression conn ∈ instanceLazies i).
  { intros conn Hc. unfold instanceLazies. apply elem_of_app. right.
    apply list_elem_of_In, in_flat_map. exists conn.
    split; [now apply list_elem_of_In | now left]. }
  assert (Hfirst : forall l rest r,
            instanceLazies i = l :: rest ->
            lazyId l ∉ resolved (compilation v) ->
            r ∈ lazyDiags l ->
            diagOfReported r
            ∈ diags (forceAll (instanceLazies i) (compilation v))).
  { intros l rest r -> Hnew Hr.
    change (forceAll (l :: rest) (compilation v))
      with (forceAll rest (force l (compilation v))).
    destruct (forceAll_spec rest (force l (compilation v)))
      as ((extra & -> & _) & _).
    rewrite force_first_time by done.
    apply elem_of_app. left. apply elem_of_app. right.
    now apply list_elem_of_fmap_2. }
  destruct (enterInstance_cases i v) as [(_ & E) | [(_ & _ & E) | (_ & _ & E)]];
    rewrite E in He; [| | discriminate]; injection He as <-;
    unfold instanceCountOf in *; simpl in *.
  - split; [lia |]. split; [auto |]. split; [auto |].
    split; [eexists; split; [reflexivity | now left] |].
    intros l rest r Hl Hnew Hr. apply elem_of_app. left. eauto.
  - split; [lia |]. split; [auto |]. split; [auto |].
    split; [eexists; split; [reflexivity | now right] |].
    intros l rest r Hl Hnew Hr. apply elem_of_app. left. eauto.
Qed.


(** ** The loop of [finalize] over the specializations *)

Lemma collectSpecs_spec specs : forall visited toVisit visited' toVisit',
  collectSpecs specs visited toVisit = (visited', toVisit') ->
  visited ⊆ visited'
  /\ (forall t, t ∈ specs -> t ∈ visited')
  /\ (toVisit' = [] -> toVisit = []).
Proof.
  induction specs as [| spec specs IH]; intros visited toVisit visited' toVisit' H;
    simpl in H.
  - injection H as <- <-. split; [done |]. split; [| done].
    intros t Ht. inversion Ht.
  - case_decide as Hin.
    + destruct (IH _ _ _ _ H) as (Hsub & Hall & Hnil).
      split; [done |]. split; [| done].
      intros t Ht. apply elem_of_cons in Ht as [-> | Ht]; [set_solver | auto].
    + destruct (IH _ _ _ _ H) as (Hsub & Hall & Hnil).
      split; [set_solver |]. split.
      * intros t Ht. apply elem_of_cons in Ht as [-> | Ht]; [set_solver | auto].
      * intros Hn. apply Hnil in Hn. now destruct toVisit.
Qed.

(** A round that did nothing changed nothing, and found every
    specialization of every class it walked already seen. *)
Lemma finalizePass_quiet fuel classes : forall visited did v visited' v',
  finalizePass fuel classes visited did v = Some (visited', false, v') ->
  did = false /\ v' = v /\ visited ⊆ visited'
  /\ forall c t, c ∈ classes -> t ∈ specializationsOf c (compilation v) ->
       t ∈ visited'.
Proof.
  induction classes as [| c classes IH]; intros visited did v visited' v' H;
    simpl in H.
  - injection H as <- <- <-. split; [done |]. split; [done |]. split; [done |].
    intros c t Hc. inversion Hc.
  - destruct (collectSpecs _ visited []) as [vs toVisit] eqn:Hcol.
    destruct (collectSpecs_spec _ _ _ _ _ Hcol) as (Hsub & Hall & _).
    destruct (visitAll (handle fuel) _ v) as [v1 |] eqn:Hv; simpl in H;
      [| discriminate].
    destruct (IH _ _ _ _ _ H) as (Hdid & -> & Hsub' & Hrest).
    destruct toVisit as [| t0 toVisit]; [| discriminate].
    simpl in Hv. injection Hv as <-.
    split; [done |]. split; [done |]. split; [set_solver |].
    intros c' t Hc' Ht. apply elem_of_cons in Hc' as [-> | Hc']; [| eauto].
    apply Hsub'. auto.
Qed.

(** When the loop of [finalize] ends, every specialization of every
    generic class collected by then is in [visitedSpecs]. *)
Lemma finalizeLoop_all_seen fuel rounds : forall visited0 v visited v0,
  finalizeLoop rounds fuel visited0 v = Some (visited, v0) ->
  forall c t,
    c ∈ genericClasses v0 ->
    t ∈ specializationsOf c (compilation v0) -> t ∈ visited.
Proof.
  induction rounds as [| rounds IH]; intros visited0 v visited v0 H;
    [discriminate |]. simpl in H.
  destruct (finalizePass fuel (genericClasses v) visited0 false v)
    as [[[vs did] v1] |] eqn:Hp; simpl in H; [| discriminate].
  destruct did; [eapply IH; eauto |].
  injection H as <- <-.
  destruct (finalizePass_quiet _ _ _ _ _ _ _ Hp) as (_ & -> & _ & Hall).
  exact Hall.
Qed.

(** When every collected class has a specialization, the last loop of
    [finalize] visits nothing. *)
Lemma visitUninstantiated_none fuel v0 : forall classes,
  (forall c, c ∈ classes -> specializationsOf c (compilation v0) <> []) ->
  visitUninstantiated fuel classes v0 = Some v0.
Proof.
  induction classes as [| c classes IHc]; intros Hc; simpl; [done |].
  destruct (specializationsOf c (compilation v0)) as [| t ts] eqn:Hs.
  - exfalso. apply (Hc c); [left | done].
  - simpl. apply IHc. intros c' Hc'. apply Hc. now right.
Qed.

End Facts.

(** ** The statements at the self-instantiating module *)

Import Designs.

(** The whole elaboration of the module that instantiates itself reports
    the recursion at the inner instance and nothing else: the variable
    that follows the inner instance in the body is never reached. *)
Example self_instantiating_elaborated :
  DiagnosticVisitor.handle selfInstantiating 10 128 10 selfRoot start
  = Some selfElaborated
  /\ diags (compilation selfElaborated)
     = [mkDiagnostic InfinitelyRecursiveHierarchy 2 [ArgString "inner"] true]
  /\ resolved (compilation selfElaborated) = ∅.
Proof. vm_compute. repeat split; reflexivity. Qed.

Lemma recursion_reported_once_witness :
  exists v',
    DiagnosticVisitor.handle selfInstantiating 10 128 2
      (InstanceSymbol (instanceData 1 "m" 0 0 [])) start = Some v'
    /\ compilation v'
       = addDiag (mkDiagnostic InfinitelyRecursiveHierarchy 2
                    [ArgString "inner"] true)
           emptyCompilation
    /\ hierarchyProblem v' = true
    /\ activeInstanceBodies v' = ∅
    /\ recursionDiags v' = 1.
Proof.
  destruct (recursion_reported_once selfInstantiating 10 128 0
              (instanceData 1 "m" 0 0 []) start eq_refl)
    as (_ & _ & Hself & _).
  destruct (Hself [] (instanceData 2 "inner" 0 0 [])
              [Node Variable_ (withAttributes 3 [failing 30 7]) NoBody [] []]
              (insideBody selfInstantiating (instanceData 1 "m" 0 0 []) start))
    as (v' & Hv & Hc & Hh & Ha & Hn);
    [vm_compute; set_solver | vm_compute; lia | reflexivity | reflexivity
    | reflexivity | reflexivity |].
  exists v'. split; [exact Hv |]. split; [exact Hc |].
  split; [exact Hh |]. split; [exact Ha |]. apply Hn. reflexivity.
Defined.

Lemma short_circuit_immediate_and_sticky_witness :
  numErrors (compilation start) <= numErrors (compilation selfElaborated)
  /\ forall fuel' s',
       DiagnosticVisitor.handle selfInstantiating 10 128 (S fuel') s' selfElaborated
       = Some selfElaborated.
Proof.
  destruct (short_circuit_immediate_and_sticky selfInstantiating 10 128 10
              selfRoot start selfElaborated) as (_ & Hn & _ & _ & Hsc).
  - vm_compute. reflexivity.
  - split; [exact Hn |]. apply Hsc. vm_compute. reflexivity.
Defined.

Lemma instance_count_counts_every_entry_witness :
  instanceCountOf 0 selfElaborated
  = successfulEntries 0 selfElaborated + rejectedEntries 0 selfElaborated
  /\ rejections selfElaborated <= 1.
Proof.
  destruct (instance_count_counts_every_entry selfInstantiating 10 128 1 10
              selfRoot emptyCompilation selfElaborated selfElaborated ∅)
    as (_ & Hc & Hr).
  - vm_compute. reflexivity.
  - vm_compute. reflexivity.
  - split; [apply Hc | exact Hr].
Defined.

(** C3 as the specification words it fails.  In the elaboration of the
    module that instantiates itself, the root instance enters and the
    inner instance is turned down for recursion: one successful entry, and
    a count of two. *)
Lemma instance_count_includes_rejected_entry :
  DiagnosticVisitor.handle selfInstantiating 10 128 10 selfRoot start
  = Some selfElaborated
  /\ DiagnosticVisitor.finalize selfInstantiating 10 128 1 10 selfElaborated
     = Some (∅, selfElaborated)
  /\ successfulEntries 0 selfElaborated = 1
  /\ instanceCountOf 0 selfElaborated = 2.
Proof. vm_compute. repeat split; reflexivity. Qed.

Lemma active_bodies_restored_witness :
  activeInstanceBodies selfElaborated = activeInstanceBodies start.
Proof.
  destruct (active_bodies_restored selfInstantiating 10 128 1 selfRoot start)
    as [_ Hsame].
  - intros b. simpl. lia.
  - apply (Hsame 10). vm_compute. reflexivity.
Defined.

Lemma rejection_is_not_atomic_witness :
  instanceCountOf 0 attributedInnerRejected = 1
  /\ diagOfReported (mkReported 9 40 true)
     ∈ diags (compilation attributedInnerRejected).
Proof.
  destruct (rejection_is_not_atomic selfInstantiating 10 128 0
              attributedInner insideBodyZero attributedInnerRejected)
    as (_ & Hc & _ & _ & _ & Hd).
  - reflexivity.
  - vm_compute. reflexivity.
  - split; [exact Hc |].
    apply (Hd (failing 40 9) [] (mkReported 9 40 true)).
    + reflexivity.
    + vm_compute. set_solver.
    + set_solver.
Defined.

(** ** The statements at the two generic classes *)

(** C9 (two generic classes, 1 and 2, neither specialized by the design;
    the invalid specialization of class 1 refers to the specialization 7
    of class 2, whose member carries an error).  Both classes are
    collected and neither has a specialization, so the loop of [finalize]
    ends at once.  The visit of the invalid specialization of class 1
    then makes the specialization 7 of class 2; class 2 is passed over
    because it now has a specialization; and [finalize] returns, without
    a short circuit, with 7 a specialization of a collected class that
    was never handed to [visit]: it is not in [visitedSpecs], the lazy
    member 70 inside it is unresolved and its error is not reported,
    while a visit of 7 from that state does report it. *)
Theorem finalize_misses_late_specialization :
  DiagnosticVisitor.handle lateClasses 10 128 10 classesRoot start
  = Some lateVisited
  /\ DiagnosticVisitor.finalize lateClasses 10 128 5 10 lateVisited
     = Some lateFinalized
  /\ DiagnosticVisitor.shortCircuit 10 lateFinalized.2 = false
  /\ genericClasses lateFinalized.2 = [1; 2]
  /\ specializationsOf 2 (compilation lateFinalized.2) = [7]
  /\ (7 ∉ lateFinalized.1)
  /\ (70 ∉ resolved (compilation lateFinalized.2))
  /\ diags (compilation lateFinalized.2) = []
  /\ (exists v,
        DiagnosticVisitor.handle lateClasses 10 128 10 (specType lateClasses 7)
          lateFinalized.2 = Some v
        /\ diags (compilation v) = [mkDiagnostic (Propagated 3) 70 [] true]).
Proof.
  split; [vm_compute; reflexivity |].
  split; [vm_compute; reflexivity |].
  split; [vm_compute; reflexivity |].
  split; [vm_compute; reflexivity |].
  split; [vm_compute; reflexivity |].
  split; [vm_compute; set_solver |].
  split; [vm_compute; set_solver |].
  split; [vm_compute; reflexivity |].
  eexists. split; vm_compute; reflexivity.
Qed.

End DiagnosticVisitorFacts.


(* ===================================================================== *)
(** * Properties of [DefParamVisitor]                                     *)
(* ===================================================================== *)

Module DefParamVisitorFacts.

Import Ast DefParamVisitor.
Import AstFacts.
Local Open Scope nat_scope.

Section Facts.

Context (design : Design).
Context (maxInstanceDepth generateLevel : nat).

Local Abbreviation handleInstance :=
  (DefParamVisitor.handleInstance design maxInstanceDepth generateLevel).
Local Abbreviation handleGenerateBlock :=
  (DefParamVisitor.handleGenerateBlock generateLevel).
Local Abbreviation handle :=
  (DefParamVisitor.handle design maxInstanceDepth generateLevel).
Local Abbreviation Tallied := (BlocksTallied generateLevel).

Lemma Tallied_ext v v' :
  numBlocksSeen v' = numBlocksSeen v -> history v' = history v ->
  Tallied v -> Tallied v'.
Proof. unfold BlocksTallied, blocksCounted. intros -> ->. done. Qed.

Lemma tally_snoc (p : Event -> bool) l e :
  length (List.filter p (l ++ [e]))
  = length (List.filter p l) + (if p e then 1 else 0).
Proof. rewrite List.filter_app, length_app. simpl. now destruct (p e). Qed.

Lemma visitAll_Tallied visit l :
  (forall s v v', visit s v = Some v' -> Tallied v -> Tallied v') ->
  forall v v', visitAll visit l v = Some v' -> Tallied v -> Tallied v'.
Proof.
  intros Hvisit. induction l as [| s l IH]; intros v v' H Hv; simpl in H.
  - now injection H as <-.
  - destruct (visit s v) as [v1 |] eqn:E; [| discriminate]. eauto.
Qed.

Lemma visitArrayMembers_Tallied visit l :
  (forall s v v', visit s v = Some v' -> Tallied v -> Tallied v') ->
  forall v v', visitArrayMembers visit l v = Some v' -> Tallied v -> Tallied v'.
Proof.
  intros Hvisit. induction l as [| s l IH]; intros v v' H Hv; simpl in H.
  - now injection H as <-.
  - destruct (bool_decide (hierarchyProblem v ≠ None)).
    + now injection H as <-.
    + destruct (visit s v) as [v1 |] eqn:E; [| discriminate]. eauto.
Qed.

Lemma handleInstance_Tallied visit i v v' :
  (forall s v v', visit s v = Some v' -> Tallied v -> Tallied v') ->
  handleInstance visit i v = Some v' -> Tallied v -> Tallied v'.
Proof.
  intros Hvisit H Hv. unfold DefParamVisitor.handleInstance in H.
  destruct (bool_decide (hierarchyProblem v ≠ None)); [now injection H as <- |].
  destruct (maxInstanceDepth <? instanceDepth v).
  { injection H as <-. revert Hv. now apply Tallied_ext. }
  match type of H with
  | (visitAll visit _ ?v4 ≫= _) = _ =>
      assert (Tallied v4) as H4; [| destruct (visitAll visit _ v4) as [v5 |] eqn:E5;
                                     simpl in H; [| discriminate]]
  end.
  { unfold BlocksTallied, blocksCounted in *.
    destruct (inRecursiveInstance v);
      [| destruct (negb false && bool_decide (instDefinition i ∉ activeInstances v))];
      simpl;
      (destruct (generateDepth v <=? generateLevel) eqn:Hd; simpl;
       rewrite tally_snoc; simpl; rewrite Hd; lia). }
  pose proof (visitAll_Tallied visit _ Hvisit _ _ E5 H4) as H5.
  injection H as <-.
  match goal with
  | |- Tallied (if ?b then _ else _) => destruct b
  end; revert H5; now apply Tallied_ext.
Qed.

Lemma handleGenerateBlock_Tallied visit inst members v v' :
  (forall s v v', visit s v = Some v' -> Tallied v -> Tallied v') ->
  handleGenerateBlock visit inst members v = Some v' -> Tallied v -> Tallied v'.
Proof.
  intros Hvisit H Hv. unfold DefParamVisitor.handleGenerateBlock in H.
  destruct (negb inst || bool_decide (hierarchyProblem v ≠ None));
    [now injection H as <- |].
  destruct ((generateLevel <=? generateDepth v) && negb (inRecursiveInstance v));
    [now injection H as <- |].
  match type of H with
  | (visitAll visit _ ?v3 ≫= _) = _ =>
      assert (Tallied v3) as H3; [| destruct (visitAll visit _ v3) as [v4 |] eqn:E4;
                                     simpl in H; [| discriminate]]
  end.
  { unfold BlocksTallied, blocksCounted in *. simpl.
    destruct (generateDepth v <? generateLevel) eqn:Hd; simpl;
      rewrite tally_snoc; simpl; rewrite Hd; lia. }
  pose proof (visitAll_Tallied visit _ Hvisit _ _ E4 H3) as H4.
  injection H as <-. revert H4. now apply Tallied_ext.
Qed.

Lemma handle_Tallied fuel : forall s v v',
  handle fuel s v = Some v' -> Tallied v -> Tallied v'.
Proof.
  induction fuel as [| fuel IH]; intros s v v' H Hv; [discriminate |].
  destruct s as [i | inst d ms | d ms sub | k d body bn ms]; simpl in H.
  - eapply handleInstance_Tallied; eauto.
  - eapply handleGenerateBlock_Tallied; eauto.
  - now injection H as <-.
  - destruct k; try (now injection H as <-).
    + eapply visitAll_Tallied; eauto.
    + eapply visitAll_Tallied; eauto.
    + eapply visitArrayMembers_Tallied; eauto.
    + injection H as <-. unfold handleDefParam.
      destruct (generateDepth v <=? generateLevel); [| done].
      revert Hv. now apply Tallied_ext.
Qed.

(** ** The traversal returns *)

Local Abbreviation SameDepth v v' := (instanceDepth v' = instanceDepth v).

Lemma visitAll_SameDepth visit l :
  (forall s v v', visit s v = Some v' -> SameDepth v v') ->
  forall v v', visitAll visit l v = Some v' -> SameDepth v v'.
Proof.
  intros Hvisit. induction l as [| s l IH]; intros v v' H; simpl in H.
  - now injection H as <-.
  - destruct (visit s v) as [v1 |] eqn:E; [| discriminate].
    rewrite (IH _ _ H). eauto.
Qed.

Lemma visitArrayMembers_SameDepth visit l :
  (forall s v v', visit s v = Some v' -> SameDepth v v') ->
  forall v v', visitArrayMembers visit l v = Some v' -> SameDepth v v'.
Proof.
  intros Hvisit. induction l as [| s l IH]; intros v v' H; simpl in H.
  - now injection H as <-.
  - destruct (bool_decide (hierarchyProblem v ≠ None)); [now injection H as <- |].
    destruct (visit s v) as [v1 |] eqn:E; [| discriminate].
    rewrite (IH _ _ H). eauto.
Qed.

Lemma handle_SameDepth fuel : forall s v v',
  handle fuel s v = Some v' -> SameDepth v v'.
Proof.
  induction fuel as [| fuel IH]; intros s v v' H; [discriminate |].
  destruct s as [i | inst d ms | d ms sub | k d body bn ms]; simpl in H.
  - unfold DefParamVisitor.handleInstance in H.
    destruct (bool_decide (hierarchyProblem v ≠ None)); [now injection H as <- |].
    destruct (maxInstanceDepth <? instanceDepth v); [now injection H as <- |].
    match type of H with
    | (visitAll _ _ ?v4 ≫= _) = _ =>
        assert (instanceDepth v4 = S (instanceDepth v)) as H4;
          [| destruct (visitAll (handle fuel) _ v4) as [v5 |] eqn:E5;
             simpl in H; [| discriminate]]
    end.
    { destruct (inRecursiveInstance v);
        [| destruct (negb false
                     && bool_decide (instDefinition i ∉ activeInstances v))];
        simpl; now destruct (generateDepth v <=? generateLevel). }
    apply (visitAll_SameDepth _ _ (IH)) in E5.
    injection H as <-.
    match goal with
    | |- instanceDepth (if ?b then _ else _) = _ => destruct b
    end; simpl; rewrite E5, H4; reflexivity.
  - unfold DefParamVisitor.handleGenerateBlock in H.
    destruct (negb inst || bool_decide (hierarchyProblem v ≠ None));
      [now injection H as <- |].
    destruct ((generateLevel <=? generateDepth v) && negb (inRecursiveInstance v));
      [now injection H as <- |].
    match type of H with
    | (visitAll _ _ ?v3 ≫= _) = _ =>
        assert (instanceDepth v3 = instanceDepth v) as H3;
          [| destruct (visitAll (handle fuel) _ v3) as [v4 |] eqn:E4;
             simpl in H; [| discriminate]]
    end.
    { simpl. now destruct (generateDepth v <? generateLevel). }
    apply (visitAll_SameDepth _ _ (IH)) in E4.
    injection H as <-. simpl. congruence.
  - now injection H as <-.
  - destruct k; try (now injection H as <-).
    + eapply visitAll_SameDepth; eauto.
    + eapply visitAll_SameDepth; eauto.
    + eapply visitArrayMembers_SameDepth; eauto.
    + injection H as <-. unfold handleDefParam.
      now destruct (generateDepth v <=? generateLevel).
Qed.

Section Termination.

Context (bound : nat).
Context (Hbound : forall b, heights (bodyMembers design b) <= bound).

Local Abbreviation room := (DefParamVisitor.room maxInstanceDepth).

Local Abbreviation Returns fuel :=
  (forall s v,
     height s + room v * (bound + 2) <= fuel ->
     exists v', handle fuel s v = Some v').

Lemma members_return fuel l : forall v,
  Returns fuel ->
  heights l + room v * (bound + 2) <= fuel ->
  exists v', visitAll (handle fuel) l v = Some v'.
Proof.
  induction l as [| s l IH]; intros v Hret Hfuel; [now exists v |].
  simpl in *.
  destruct (Hret s v) as (v1 & Hv1); [lia |]. rewrite Hv1.
  apply IH; [done |].
  unfold DefParamVisitor.room in *.
  rewrite (handle_SameDepth _ _ _ _ Hv1). lia.
Qed.

Lemma array_members_return fuel l : forall v,
  Returns fuel ->
  heights l + room v * (bound + 2) <= fuel ->
  exists v', visitArrayMembers (handle fuel) l v = Some v'.
Proof.
  induction l as [| s l IH]; intros v Hret Hfuel; [now exists v |].
  simpl in *.
  destruct (bool_decide (hierarchyProblem v ≠ None)); [eauto |].
  destruct (Hret s v) as (v1 & Hv1); [lia |]. rewrite Hv1.
  apply IH; [done |].
  unfold DefParamVisitor.room in *.
  rewrite (handle_SameDepth _ _ _ _ Hv1). lia.
Qed.

Lemma traversal_returns_aux fuel : Returns fuel.
Proof.
  induction fuel as [| fuel IH]; intros s v Hfuel;
    rewrite height_unfold in Hfuel.
  { destruct s; simpl in Hfuel; lia. }
  destruct s as [i | inst d ms | d ms sub | k d body bn ms].
  - simpl. unfold DefParamVisitor.handleInstance.
    destruct (bool_decide (hierarchyProblem v ≠ None)); [eauto |].
    destruct (maxInstanceDepth <? instanceDepth v) eqn:Hdepth; [eauto |].
    apply Nat.ltb_ge in Hdepth.
    match goal with
    | |- context [visitAll _ ?l ?v4] =>
        destruct (members_return fuel l v4 IH) as (v5 & ->); [| simpl; eauto]
    end.
    pose proof (Hbound (instBody i)) as Hb.
    assert (forall v4, instanceDepth v4 = S (instanceDepth v) ->
              heights (bodyMembers design (instBody i))
              + room v4 * (bound + 2) <= fuel) as Hgo.
    { intros v4 H4. unfold DefParamVisitor.room in *. rewrite H4. nia. }
    apply Hgo.
    destruct (inRecursiveInstance v);
      [| destruct (negb false
                   && bool_decide (instDefinition i ∉ activeInstances v))];
      simpl; now destruct (generateDepth v <=? generateLevel).
  - simpl. unfold DefParamVisitor.handleGenerateBlock.
    destruct (negb inst || bool_decide (hierarchyProblem v ≠ None)); [eauto |].
    destruct ((generateLevel <=? generateDepth v) && negb (inRecursiveInstance v));
      [eauto |].
    match goal with
    | |- context [visitAll _ ?l ?v3] =>
        destruct (members_return fuel l v3 IH) as (v4 & ->); [| simpl; eauto]
    end.
    assert (forall v3, instanceDepth v3 = instanceDepth v ->
              heights ms + room v3 * (bound + 2) <= fuel) as Hgo.
    { intros v3 H3. unfold DefParamVisitor.room in *. rewrite H3. lia. }
    apply Hgo. simpl. now destruct (generateDepth v <? generateLevel).
  - simpl. eauto.
  - assert (heights ms + room v * (bound + 2) <= fuel) as Hms.
    { lia. }
    destruct k; simpl; eauto using members_return, array_members_return.
Qed.

End Termination.

Lemma traversal_returns bound s v :
  (forall b, heights (bodyMembers design b) <= bound) ->
  exists v', handle (enoughFuel maxInstanceDepth bound s v) s v = Some v'.
Proof.
  intros Hbound. apply (traversal_returns_aux bound Hbound).
  unfold enoughFuel. lia.
Qed.

(** C7.  At any point of the traversal, the handler of a defparam adds
    it to [found] exactly when the generate depth is at most the level,
    and otherwise changes nothing.  The handler of a generate block
    returns at once, with nothing under the block visited, when the
    generate depth has reached the level and no recursive instance is
    being probed; for an instantiated block, without a hierarchy problem,
    it goes on to the members one generate level deeper when the depth is
    below the level or a recursive instance is being probed. *)
Theorem defparam_collection_gated_by_level
    (fuel : nat) (d : NodeData) (body : BodyState) (bodyNodes ms : list Symbol)
    (inst : bool) (v : Visitor) :
  (exists v',
      handle (S fuel) (Node DefParam d body bodyNodes ms) v = Some v'
      /\ (found v' = found v ++ [symId d] <-> generateDepth v <= generateLevel)
      /\ (generateLevel < generateDepth v -> v' = v))
  /\ (generateLevel <= generateDepth v -> inRecursiveInstance v = false ->
      handle (S fuel) (GenerateBlockSymbol inst d ms) v = Some v)
  /\ (inst = true -> hierarchyProblem v = None ->
      generateDepth v < generateLevel \/ inRecursiveInstance v = true ->
      exists v3,
        generateDepth v3 = S (generateDepth v)
        /\ found v3 = found v
        /\ handle (S fuel) (GenerateBlockSymbol inst d ms) v
           = (v4 ← visitAll (handle fuel) ms v3;
              Some (setGenerateDepth (pred (generateDepth v4)) v4))).
Proof.
  split; [| split].
  - eexists. split; [reflexivity |]. unfold handleDefParam.
    destruct (generateDepth v <=? generateLevel) eqn:Hd.
    + apply Nat.leb_le in Hd. simpl. split; [done |]. lia.
    + apply Nat.leb_gt in Hd. split; [| done]. split; [| lia].
      intros Heq. apply (f_equal length) in Heq.
      rewrite length_app in Heq. simpl in Heq. lia.
  - intros Hd Hrec. simpl. unfold DefParamVisitor.handleGenerateBlock.
    destruct (negb inst || bool_decide (hierarchyProblem v ≠ None)); [done |].
    apply Nat.leb_le in Hd. now rewrite Hd, Hrec.
  - intros -> Hh Hgo. simpl. unfold DefParamVisitor.handleGenerateBlock.
    rewrite Hh. simpl.
    assert ((generateLevel <=? generateDepth v) && negb (inRecursiveInstance v)
            = false) as ->.
    { destruct Hgo as [Hlt | ->]; [| apply andb_false_r].
      apply andb_false_iff. left. apply Nat.leb_gt. lia. }
    eexists. split; [| split; [| reflexivity]].
    + simpl. now destruct (generateDepth v <? generateLevel).
    + simpl. now destruct (generateDepth v <? generateLevel).
Qed.

(** C8, as the code has it.  In a design whose bodies have a bounded
    height the traversal by a fresh visitor returns, given enough fuel;
    and after it the counter is the number of instances entered at a
    generate depth up to the level plus the number of generate blocks
    entered at a generate depth strictly below the level. *)
Theorem blocks_seen_counts_entries (bound : nat) (s : Symbol) :
  (forall b, heights (bodyMembers design b) <= bound) ->
  (exists v',
      handle (enoughFuel maxInstanceDepth bound s newVisitor) s newVisitor
      = Some v')
  /\ (forall fuel v',
        handle fuel s newVisitor = Some v' ->
        numBlocksSeen v' = blocksCounted generateLevel v').
Proof.
  intros Hbound. split; [now apply traversal_returns |].
  intros fuel v' H. apply (handle_Tallied _ _ _ _ H). reflexivity.
Qed.

End Facts.

(** ** The statements at the probing design *)

Import Designs.

Lemma defparam_collection_gated_by_level_witness :
  exists v',
    DefParamVisitor.handle probing 128 0 1
      (Node DefParam (plain 4) NoBody [] []) newVisitor = Some v'
    /\ found v' = [4].
Proof.
  destruct (defparam_collection_gated_by_level probing 128 0 0
              (plain 4) NoBody [] [] true newVisitor)
    as ((v' & Hv & Hfound & _) & _).
  exists v'. split; [exact Hv |]. apply Hfound. simpl. lia.
Defined.

Lemma blocks_seen_counts_entries_witness :
  numBlocksSeen probed = blocksCounted 0 probed.
Proof.
  destruct (blocks_seen_counts_entries probing 128 0 2 probingRoot)
    as [_ Hcount].
  - intros b. destruct b; simpl; lia.
  - apply (Hcount 10). vm_compute. reflexivity.
Defined.

(** C8 as the specification words it fails.  For level 0 the traversal
    enters two instances and, probing the recursive instance, one
    instantiated generate block, all three at generate depth 0; the
    counter is 2, not 3. *)
Lemma blocks_seen_skips_generate_at_level :
  DefParamVisitor.handle probing 128 0 10 probingRoot newVisitor = Some probed
  /\ instancesUpTo 0 probed = 2
  /\ generatesUpTo 0 probed = 1
  /\ numBlocksSeen probed = 2.
Proof. vm_compute. repeat split; reflexivity. Qed.

End DefParamVisitorFacts.


(* ===================================================================== *)
(** * Further properties of the string methods                            *)
(* ===================================================================== *)

Module StringMethodsMoreFacts.

Import StringMethods StringMethodsFacts.
Local Open Scope string_scope.
Local Open Scope Z_scope.

(** ** Bytes *)

Lemma uchar_range c : 0 <= uchar c < 256.
Proof. destruct c as [[] [] [] [] [] [] [] []]; vm_compute; split; congruence. Qed.

Lemma uchar_inj a b : uchar a = uchar b -> a = b.
Proof.
  unfold uchar. intros H. apply N2Z.inj in H.
  rewrite <- (ascii_N_embedding a), <- (ascii_N_embedding b). now rewrite H.
Qed.

Lemma getc_byte c : SVInt8 (to_uint64 (schar c)) = uchar c.
Proof. destruct c as [[] [] [] [] [] [] [] []]; reflexivity. Qed.

Lemma char_at_cons a t i : char_at (String a t) (S i) = char_at t i.
Proof. reflexivity. Qed.

Lemma getc_in_range str index :
  0 <= index < length_of str ->
  getc (Some str) (Some index) = Some (uchar (char_at str (Z.to_nat index))).
Proof.
  intros [H0 H1]. unfold getc, StringGetcMethod_eval.
  destruct (index <? 0) eqn:E0; [apply Z.ltb_lt in E0; lia |].
  destruct (length_of str <=? index) eqn:E1; [apply Z.leb_le in E1; lia |].
  simpl. now rewrite getc_byte.
Qed.

Lemma getc_out_of_range str index :
  index < 0 \/ length_of str <= index ->
  getc (Some str) (Some index) = Some 0.
Proof.
  intros H. unfold getc, StringGetcMethod_eval.
  destruct (index <? 0) eqn:E0; [reflexivity |].
  destruct (length_of str <=? index) eqn:E1; [reflexivity |].
  apply Z.ltb_ge in E0. apply Z.leb_gt in E1. lia.
Qed.

Lemma store_byte_length str : forall i c,
  String.length (store_byte str i c) = String.length str.
Proof.
  induction str as [| a t IH]; intros i c; [reflexivity |].
  destruct i; simpl; [reflexivity | now rewrite IH].
Qed.

Lemma store_byte_same str : forall i c,
  (i < String.length str)%nat -> char_at (store_byte str i c) i = c.
Proof.
  induction str as [| a t IH]; intros i c Hi; simpl in Hi; [lia |].
  destruct i; [reflexivity |]. simpl store_byte. rewrite char_at_cons.
  apply IH. lia.
Qed.

Lemma store_byte_other str : forall i j c,
  i <> j -> char_at (store_byte str i c) j = char_at str j.
Proof.
  induction str as [| a t IH]; intros i j c Hij; [reflexivity |].
  destruct i, j; try reflexivity; [congruence |].
  simpl store_byte. rewrite !char_at_cons. apply IH. congruence.
Qed.

Lemma putc_cases str index c :
  putc (Some str) (Some index) (Some c) = Some str
  \/ (uchar c <> 0 /\ 0 <= index < length_of str
      /\ putc (Some str) (Some index) (Some c)
         = Some (store_byte str (Z.to_nat index) c)).
Proof.
  unfold putc, StringPutcMethod_eval.
  destruct (uchar c =? 0) eqn:Ec; [now left |].
  destruct (index <? 0) eqn:E0; [now left |].
  destruct (length_of str <=? index) eqn:E1; [now left |].
  right. apply Z.eqb_neq in Ec. apply Z.ltb_ge in E0. apply Z.leb_gt in E1.
  simpl. repeat split; (assumption || lia).
Qed.

Lemma putc_in_range str index c :
  0 <= index < length_of str -> uchar c <> 0 ->
  putc (Some str) (Some index) (Some c)
  = Some (store_byte str (Z.to_nat index) c).
Proof.
  intros Hi Hc. unfold putc, StringPutcMethod_eval.
  destruct (uchar c =? 0) eqn:Ec; [apply Z.eqb_eq in Ec; lia |].
  destruct (index <? 0) eqn:E0; [apply Z.ltb_lt in E0; lia |].
  destruct (length_of str <=? index) eqn:E1; [apply Z.leb_le in E1; lia |].
  reflexivity.
Qed.

(** X1.  A byte other than NUL stored by [putc] at an index inside the
    string is what [getc] reads back at that index. *)
Theorem getc_after_putc (str : string) (index : Z) (c : ascii) :
  0 <= index < length_of str ->
  uchar c <> 0 ->
  exists str',
    putc (Some str) (Some index) (Some c) = Some str'
    /\ getc (Some str') (Some index) = Some (uchar c).
Proof.
  intros Hi Hc. eexists. split; [now apply putc_in_range |].
  rewrite getc_in_range.
  - rewrite store_byte_same by (unfold length_of in Hi; lia). reflexivity.
  - unfold length_of in *. rewrite store_byte_length. lia.
Qed.

Lemma getc_after_putc_witness :
  exists str',
    putc (Some "Hello") (Some 0) (Some "J"%char) = Some str'
    /\ getc (Some str') (Some 0) = Some (uchar "J"%char).
Proof.
  apply (getc_after_putc "Hello" 0 "J"%char); [vm_compute; split; congruence |].
  vm_compute. congruence.
Defined.

(** X2.  Whatever its arguments, [putc] keeps the length of the receiver
    and every byte at an index other than the one given: [len] and [getc]
    at any other index give what they gave before.  With a NUL byte or an
    index outside the string it changes nothing at all. *)
Theorem putc_changes_one_byte_only (str : string) (index : Z) (c : ascii) :
  exists str',
    putc (Some str) (Some index) (Some c) = Some str'
    /\ len (Some str') = len (Some str)
    /\ (forall j, j <> index -> getc (Some str') (Some j) = getc (Some str) (Some j))
    /\ (uchar c = 0 \/ index < 0 \/ length_of str <= index -> str' = str).
Proof.
  destruct (putc_cases str index c) as [Hsame | (Hc & Hi & Hput)].
  - exists str. split; [exact Hsame |]. split; [reflexivity |].
    split; [reflexivity |]. reflexivity.
  - eexists. split; [exact Hput |].
    assert (Hlen : length_of (store_byte str (Z.to_nat index) c) = length_of str).
    { unfold length_of. now rewrite store_byte_length. }
    split; [unfold len, StringLenMethod_eval; now rewrite Hlen |].
    split.
    + intros j Hj.
      destruct (Z.lt_ge_cases j 0) as [Hneg | Hpos];
        [rewrite !getc_out_of_range by lia; reflexivity |].
      destruct (Z.lt_ge_cases j (length_of str)) as [Hin | Hout].
      * rewrite !getc_in_range by lia.
        rewrite store_byte_other by lia. reflexivity.
      * rewrite !getc_out_of_range by lia. reflexivity.
    + intros [H | [H | H]]; lia.
Qed.

(** ** [substr] *)

Lemma substring_length s : forall n m,
  (n <= String.length s)%nat ->
  String.length (String.substring n m s) = Nat.min m (String.length s - n).
Proof.
  induction s as [| a t IH]; intros n m Hn; simpl in Hn.
  - destruct n, m; simpl; lia.
  - destruct n; simpl.
    + destruct m; simpl; [reflexivity |]. rewrite IH by lia. simpl. lia.
    + rewrite IH by lia. reflexivity.
Qed.

Lemma substring_char_at s : forall n m k,
  (k < m)%nat -> (n + k < String.length s)%nat ->
  char_at (String.substring n m s) k = char_at s (n + k).
Proof.
  induction s as [| a t IH]; intros n m k Hk Hn; simpl in Hn; [lia |].
  destruct n; simpl.
  - destruct m; [lia |]. destruct k; [reflexivity |].
    rewrite !char_at_cons. rewrite (IH 0%nat) by lia. reflexivity.
  - rewrite char_at_cons. apply IH; lia.
Qed.

Lemma substring_all s : String.substring 0 (String.length s) s = s.
Proof. induction s as [| a t IH]; simpl; [reflexivity | now rewrite IH]. Qed.

Lemma substr_in_range str left_ right_ :
  0 <= left_ <= right_ -> right_ < length_of str ->
  right_ - left_ + 1 < 2 ^ 31 ->
  substr (Some str) (Some left_) (Some right_)
  = Some (String.substring (Z.to_nat left_) (Z.to_nat (right_ - left_ + 1)) str).
Proof.
  intros Hl Hr Hsmall. unfold substr, StringSubstrMethod_eval.
  destruct (left_ <? 0) eqn:E0; [apply Z.ltb_lt in E0; lia |].
  destruct (right_ <? left_) eqn:E1; [apply Z.ltb_lt in E1; lia |].
  destruct (length_of str <=? right_) eqn:E2; [apply Z.leb_le in E2; lia |].
  simpl. rewrite SVInt32_small by lia.
  unfold to_uint64, std_substr. rewrite Z.mod_small by lia.
  rewrite Z.min_l by lia. reflexivity.
Qed.

(** X3.  For [0 <= left <= right < len] (and a count that fits
    [int32_t]) [substr] returns [right - left + 1] bytes, and the byte
    [getc] reads at [k] in the result is the byte it reads at [left + k]
    in the receiver. *)
Theorem substr_is_the_slice (str : string) (left_ right_ : Z) :
  0 <= left_ <= right_ -> right_ < length_of str ->
  right_ - left_ + 1 < 2 ^ 31 ->
  exists sub,
    substr (Some str) (Some left_) (Some right_) = Some sub
    /\ length_of sub = right_ - left_ + 1
    /\ forall k, 0 <= k <= right_ - left_ ->
         getc (Some sub) (Some k) = getc (Some str) (Some (left_ + k)).
Proof.
  intros Hl Hr Hsmall. eexists. split; [now apply substr_in_range |].
  assert (Hlen : length_of (String.substring (Z.to_nat left_)
                              (Z.to_nat (right_ - left_ + 1)) str)
                 = right_ - left_ + 1).
  { unfold length_of in *. rewrite substring_length by lia. lia. }
  split; [exact Hlen |].
  intros k Hk. rewrite !getc_in_range by lia. f_equal. f_equal.
  rewrite substring_char_at by (unfold length_of in *; lia).
  f_equal. lia.
Qed.

Lemma substr_is_the_slice_witness :
  exists sub,
    substr (Some "Hello_42") (Some 1) (Some 4) = Some sub
    /\ length_of sub = 4 - 1 + 1
    /\ forall k, 0 <= k <= 4 - 1 ->
         getc (Some sub) (Some k) = getc (Some "Hello_42") (Some (1 + k)).
Proof.
  apply (substr_is_the_slice "Hello_42" 1 4); vm_compute; (split || idtac);
    congruence.
Defined.

(** The one pair of arguments inside the string whose count does not
    fit [int32_t]: it wraps to INT32_MIN, which [size_t] reads as
    2^64 - 2^31. *)
Lemma substr_widest str :
  2 ^ 31 - 1 < length_of str ->
  substr (Some str) (Some 0) (Some (2 ^ 31 - 1))
  = Some (String.substring 0
            (Z.to_nat (Z.min (2 ^ 64 - 2 ^ 31) (length_of str))) str).
Proof.
  intros Hlen. unfold substr, StringSubstrMethod_eval.
  destruct (length_of str <=? 2 ^ 31 - 1) eqn:E2; [apply Z.leb_le in E2; lia |].
  change (0 <? 0) with false. change (2 ^ 31 - 1 <? 0) with false.
  cbv beta iota. simpl orb. cbv iota.
  change (to_uint64 (SVInt32 (2 ^ 31 - 1 - 0 + 1))) with (2 ^ 64 - 2 ^ 31).
  unfold std_substr. now rewrite Z.sub_0_r.
Qed.

(** X4.  For any [int32_t] arguments, [substr] gives the empty string
    exactly when [left] is negative, [right] is below [left], or [right]
    is not an index of the receiver; and from 0 to the last index it
    gives the receiver back. *)
Theorem substr_empty_iff_out_of_range (str : string) (left_ right_ : Z) :
  - 2 ^ 31 <= left_ < 2 ^ 31 ->
  - 2 ^ 31 <= right_ < 2 ^ 31 ->
  (substr (Some str) (Some left_) (Some right_) = Some ""
   <-> left_ < 0 \/ right_ < left_ \/ length_of str <= right_)
  /\ (str <> "" -> left_ = 0 -> right_ = length_of str - 1 ->
      substr (Some str) (Some left_) (Some right_) = Some str).
Proof.
  intros Hleft Hright. split; [split |].
  - intros H.
    destruct (Z.lt_ge_cases left_ 0) as [? | H0]; [now left |].
    destruct (Z.lt_ge_cases right_ left_) as [? | H1]; [now right; left |].
    destruct (Z.lt_ge_cases right_ (length_of str)) as [H2 | ?];
      [| now right; right].
    exfalso.
    destruct (Z.lt_ge_cases (right_ - left_ + 1) (2 ^ 31)) as [Hsmall | Hwide].
    + rewrite substr_in_range in H by lia. injection H as H.
      apply (f_equal String.length) in H.
      unfold length_of in *. rewrite substring_length in H by lia.
      simpl in H. lia.
    + assert (left_ = 0) as -> by lia.
      assert (right_ = 2 ^ 31 - 1) as -> by lia.
      rewrite substr_widest in H by lia. injection H as H.
      apply (f_equal String.length) in H.
      unfold length_of in *. rewrite substring_length in H by lia.
      simpl in H. lia.
  - intros H. unfold substr, StringSubstrMethod_eval.
    destruct (left_ <? 0) eqn:E0; [reflexivity |].
    destruct (right_ <? left_) eqn:E1; [reflexivity |].
    destruct (length_of str <=? right_) eqn:E2; [reflexivity |].
    apply Z.ltb_ge in E0. apply Z.ltb_ge in E1. apply Z.leb_gt in E2. lia.
  - intros Hne -> ->.
    assert (0 < length_of str).
    { unfold length_of. destruct str; [congruence | simpl; lia]. }
    destruct (Z.lt_ge_cases (length_of str) (2 ^ 31)) as [Hsmall | Hwide].
    + rewrite substr_in_range by lia.
      replace (length_of str - 1 - 0 + 1) with (length_of str) by lia.
      unfold length_of. rewrite Nat2Z.id. simpl Z.to_nat.
      now rewrite substring_all.
    + assert (Hlen : length_of str = 2 ^ 31) by lia.
      replace (length_of str - 1) with (2 ^ 31 - 1) by lia.
      rewrite substr_widest by lia.
      rewrite Z.min_r by lia.
      unfold length_of. rewrite Nat2Z.id. now rewrite substring_all.
Qed.

Lemma substr_empty_iff_out_of_range_witness :
  substr (Some "Hello_42") (Some 0) (Some 7) = Some "Hello_42"
  /\ ~ (substr (Some "Hello_42") (Some 0) (Some 7) = Some "").
Proof.
  destruct (substr_empty_iff_out_of_range "Hello_42" 0 7) as [Hiff Hall];
    [lia | lia |].
  split.
  - apply Hall; [discriminate | reflexivity | reflexivity].
  - intros Hempty. apply Hiff in Hempty. vm_compute in Hempty.
    destruct Hempty as [H | [H | H]]; first [discriminate H | now apply H].
Defined.

(** ** [toupper], [tolower] *)

Lemma upper_upper c :
  char_of_int (toupper (uchar (char_of_int (toupper (uchar c)))))
  = char_of_int (toupper (uchar c)).
Proof. destruct c as [[] [] [] [] [] [] [] []]; reflexivity. Qed.

Lemma lower_lower c :
  char_of_int (tolower (uchar (char_of_int (tolower (uchar c)))))
  = char_of_int (tolower (uchar c)).
Proof. destruct c as [[] [] [] [] [] [] [] []]; reflexivity. Qed.

Lemma upper_lower c :
  char_of_int (toupper (uchar (char_of_int (tolower (uchar c)))))
  = char_of_int (toupper (uchar c)).
Proof. destruct c as [[] [] [] [] [] [] [] []]; reflexivity. Qed.

Lemma lower_upper c :
  char_of_int (tolower (uchar (char_of_int (toupper (uchar c)))))
  = char_of_int (tolower (uchar c)).
Proof. destruct c as [[] [] [] [] [] [] [] []]; reflexivity. Qed.

Lemma transform_compose f g h s :
  (forall c, char_of_int (f (uchar (char_of_int (g (uchar c)))))
             = char_of_int (h (uchar c))) ->
  transform f (transform g s) = transform h s.
Proof.
  intros Hc. induction s as [| c t IH]; simpl; [reflexivity |].
  now rewrite Hc, IH.
Qed.

Lemma transform_length f s : String.length (transform f s) = String.length s.
Proof. induction s as [| c t IH]; simpl; [reflexivity | now rewrite IH]. Qed.

(** X5.  [toupper] and [tolower] keep the length, each is idempotent, and
    the one applied last wins: [toupper] after [tolower] is [toupper],
    [tolower] after [toupper] is [tolower]. *)
Theorem case_methods_compose (val : option string) :
  toupper_method (toupper_method val) = toupper_method val
  /\ tolower_method (tolower_method val) = tolower_method val
  /\ toupper_method (tolower_method val) = toupper_method val
  /\ tolower_method (toupper_method val) = tolower_method val
  /\ len (toupper_method val) = len val
  /\ len (tolower_method val) = len val.
Proof.
  destruct val as [s |]; [| repeat split; reflexivity].
  unfold toupper_method, tolower_method, StringUpperLowerMethod_eval, len,
    StringLenMethod_eval, length_of.
  rewrite (transform_compose toupper toupper toupper s upper_upper).
  rewrite (transform_compose tolower tolower tolower s lower_lower).
  rewrite (transform_compose toupper tolower toupper s upper_lower).
  rewrite (transform_compose tolower toupper tolower s lower_upper).
  rewrite !transform_length. repeat split; reflexivity.
Qed.

(** ** [icompare] and the case of the letters *)

Lemma lowered_upper c :
  tolower (schar (char_of_int (toupper (uchar c)))) = tolower (schar c).
Proof. destruct c as [[] [] [] [] [] [] [] []]; reflexivity. Qed.

Lemma lowered_lower c :
  tolower (schar (char_of_int (tolower (uchar c)))) = tolower (schar c).
Proof. destruct c as [[] [] [] [] [] [] [] []]; reflexivity. Qed.

Lemma nul_upper c :
  (schar (char_of_int (toupper (uchar c))) =? 0) = (schar c =? 0).
Proof. destruct c as [[] [] [] [] [] [] [] []]; reflexivity. Qed.

Lemma nul_lower c :
  (schar (char_of_int (tolower (uchar c))) =? 0) = (schar c =? 0).
Proof. destruct c as [[] [] [] [] [] [] [] []]; reflexivity. Qed.

Section CaseBlind.

(** [f] is a change of case: [icompare] cannot tell a byte from its
    image. *)
Context (f : Z -> Z).
Context (Hlow : forall c, tolower (schar (char_of_int (f (uchar c))))
                          = tolower (schar c)).
Context (Hnul : forall c, (schar (char_of_int (f (uchar c))) =? 0)
                          = (schar c =? 0)).

Lemma deref_transform p : tolower (deref (transform f p)) = tolower (deref p).
Proof. destruct p as [| c t]; simpl; [reflexivity | apply Hlow]. Qed.

Lemma next_transform p : next (transform f p) = transform f (next p).
Proof. destruct p; reflexivity. Qed.

Lemma icompare_loop_transform_l p1 : forall p2,
  icompare_loop (transform f p1) p2 = icompare_loop p1 p2.
Proof.
  induction p1 as [| c t IH]; intros p2; [reflexivity |].
  simpl transform.
  change (icompare_loop (String ?a ?u) p2)
    with (let result := tolower (schar a) - tolower (deref p2) in
          if result =? 0
          then if schar a =? 0 then result else icompare_loop u (next p2)
          else result).
  cbv zeta. rewrite Hlow, Hnul, IH. reflexivity.
Qed.

Lemma icompare_loop_transform_r p1 : forall p2,
  icompare_loop p1 (transform f p2) = icompare_loop p1 p2.
Proof.
  induction p1 as [| c t IH]; intros p2.
  - simpl. now rewrite deref_transform.
  - change (icompare_loop (String c t) ?q)
      with (let result := tolower (schar c) - tolower (deref q) in
            if result =? 0
            then if schar c =? 0 then result else icompare_loop t (next q)
            else result).
    cbv zeta. rewrite deref_transform, next_transform, IH. reflexivity.
Qed.

End CaseBlind.

(** X6.  [icompare] does not see the case of the letters: changing
    either operand by [toupper] or [tolower] leaves its result as it
    was. *)
Theorem icompare_ignores_case (lhs rhs : option string) :
  icompare (toupper_method lhs) rhs = icompare lhs rhs
  /\ icompare (tolower_method lhs) rhs = icompare lhs rhs
  /\ icompare lhs (toupper_method rhs) = icompare lhs rhs
  /\ icompare lhs (tolower_method rhs) = icompare lhs rhs.
Proof.
  destruct lhs as [a |], rhs as [b |]; try (repeat split; reflexivity).
  unfold icompare, StringCompareMethod_eval, toupper_method, tolower_method,
    StringUpperLowerMethod_eval.
  rewrite (icompare_loop_transform_l toupper lowered_upper nul_upper).
  rewrite (icompare_loop_transform_l tolower lowered_lower nul_lower).
  rewrite (icompare_loop_transform_r toupper lowered_upper).
  rewrite (icompare_loop_transform_r tolower lowered_lower).
  repeat split; reflexivity.
Qed.

(** ** [compare] and [icompare] as orders *)

Lemma std_string_compare_swap lhs : forall rhs,
  std_string_compare rhs lhs = - std_string_compare lhs rhs.
Proof.
  induction lhs as [| a l IH]; intros [| b r]; simpl; try lia.
  rewrite (Z.eqb_sym (uchar b) (uchar a)).
  destruct (uchar a =? uchar b); [apply IH | lia].
Qed.

Lemma std_string_compare_zero lhs : forall rhs,
  std_string_compare lhs rhs = 0 <-> lhs = rhs.
Proof.
  induction lhs as [| a l IH]; intros [| b r]; simpl.
  - tauto.
  - split; [lia | discriminate].
  - split; [lia | discriminate].
  - destruct (uchar a =? uchar b) eqn:E.
    + apply Z.eqb_eq, uchar_inj in E. subst b. rewrite IH.
      split; [now intros -> | now intros [= ->]].
    + apply Z.eqb_neq in E. split; [lia |]. intros [= -> ->]. congruence.
Qed.

(** X7.  [compare] is 0 exactly for equal strings, and exchanging the
    operands negates the result. *)
Theorem compare_is_an_order (lhs rhs : string) :
  (compare (Some lhs) (Some rhs) = Some 0 <-> lhs = rhs)
  /\ (forall r, compare (Some lhs) (Some rhs) = Some r ->
        compare (Some rhs) (Some lhs) = Some (- r)).
Proof.
  unfold compare, StringCompareMethod_eval.
  rewrite (std_string_compare_swap lhs rhs).
  pose proof (std_string_compare_zero lhs rhs) as Hz.
  destruct (Z.lt_trichotomy (std_string_compare lhs rhs) 0) as [H | [H | H]].
  - rewrite (proj2 (Z.ltb_lt _ _)) by lia.
    rewrite (proj2 (Z.ltb_ge (- _) 0)) by lia.
    rewrite (proj2 (Z.ltb_lt 0 (- _))) by lia.
    split; [split; [discriminate | intros E; apply Hz in E; lia] |].
    intros r [= <-]. reflexivity.
  - rewrite H. simpl. split; [split; [intros _; now apply Hz | reflexivity] |].
    intros r [= <-]. reflexivity.
  - rewrite (proj2 (Z.ltb_ge _ 0)) by lia.
    rewrite (proj2 (Z.ltb_lt 0 _)) by lia.
    rewrite (proj2 (Z.ltb_lt (- _) 0)) by lia.
    split; [split; [discriminate | intros E; apply Hz in E; lia] |].
    intros r [= <-]. reflexivity.
Qed.

Lemma schar_range c : -128 <= schar c <= 127.
Proof. destruct c as [[] [] [] [] [] [] [] []]; vm_compute; split; congruence. Qed.

Lemma tolower_range x : -128 <= x <= 127 -> -1 <= tolower x <= 254.
Proof.
  intros Hx. unfold tolower.
  destruct ((65 <=? x) && (x <=? 90)) eqn:E.
  - apply andb_true_iff in E as [E1 E2].
    apply Z.leb_le in E1. apply Z.leb_le in E2. lia.
  - destruct ((-128 <=? x) && (x <=? -2)) eqn:E'; [lia |].
    apply andb_false_iff in E' as [E' | E'];
      [apply Z.leb_gt in E' | apply Z.leb_gt in E']; lia.
Qed.

Lemma tolower_zero x : tolower x = 0 <-> x = 0.
Proof.
  unfold tolower. destruct ((65 <=? x) && (x <=? 90)) eqn:E.
  - apply andb_true_iff in E as [E _]. apply Z.leb_le in E. lia.
  - destruct ((-128 <=? x) && (x <=? -2)) eqn:E'; [| tauto].
    apply andb_true_iff in E' as [E1 E2].
    apply Z.leb_le in E1. apply Z.leb_le in E2. lia.
Qed.

Lemma deref_range p : -1 <= tolower (deref p) <= 254.
Proof.
  apply tolower_range. destruct p as [| c t]; simpl; [lia | apply schar_range].
Qed.

Lemma icompare_loop_range p1 : forall p2, -255 <= icompare_loop p1 p2 <= 255.
Proof.
  induction p1 as [| c t IH]; intros p2.
  - change (icompare_loop "" p2)
      with (let result := 0 - tolower (deref p2) in
            if result =? 0 then result else result).
    cbv zeta. pose proof (deref_range p2).
    destruct (_ =? 0); lia.
  - change (icompare_loop (String c t) p2)
      with (let result := tolower (schar c) - tolower (deref p2) in
            if result =? 0
            then if schar c =? 0 then result else icompare_loop t (next p2)
            else result).
    cbv zeta. pose proof (deref_range p2).
    pose proof (tolower_range _ (schar_range c)).
    destruct (_ - _ =? 0); [| lia].
    destruct (schar c =? 0); [lia | apply IH].
Qed.

Lemma icompare_loop_swap p1 : forall p2,
  icompare_loop p2 p1 = - icompare_loop p1 p2.
Proof.
  induction p1 as [| c t IH]; intros [| d u].
  - reflexivity.
  - change (icompare_loop (String d u) "")
      with (let result := tolower (schar d) - 0 in
            if result =? 0
            then if schar d =? 0 then result else icompare_loop u ""
            else result).
    change (icompare_loop "" (String d u))
      with (let result := 0 - tolower (schar d) in
            if result =? 0 then result else result).
    cbv zeta.
    destruct (tolower (schar d) - 0 =? 0) eqn:E.
    + apply Z.eqb_eq in E.
      assert (schar d = 0) as -> by (apply tolower_zero; lia). reflexivity.
    + apply Z.eqb_neq in E.
      destruct (0 - tolower (schar d) =? 0) eqn:E'; [apply Z.eqb_eq in E'|]; lia.
  - change (icompare_loop (String c t) "")
      with (let result := tolower (schar c) - 0 in
            if result =? 0
            then if schar c =? 0 then result else icompare_loop t ""
            else result).
    change (icompare_loop "" (String c t))
      with (let result := 0 - tolower (schar c) in
            if result =? 0 then result else result).
    cbv zeta.
    destruct (tolower (schar c) - 0 =? 0) eqn:E.
    + apply Z.eqb_eq in E.
      assert (schar c = 0) as -> by (apply tolower_zero; lia). reflexivity.
    + apply Z.eqb_neq in E.
      destruct (0 - tolower (schar c) =? 0) eqn:E'; [apply Z.eqb_eq in E'|]; lia.
  - change (icompare_loop (String d u) (String c t))
      with (let result := tolower (schar d) - tolower (schar c) in
            if result =? 0
            then if schar d =? 0 then result else icompare_loop u t
            else result).
    change (icompare_loop (String c t) (String d u))
      with (let result := tolower (schar c) - tolower (schar d) in
            if result =? 0
            then if schar c =? 0 then result else icompare_loop t u
            else result).
    cbv zeta.
    destruct (tolower (schar d) - tolower (schar c) =? 0) eqn:E.
    + apply Z.eqb_eq in E.
      rewrite (proj2 (Z.eqb_eq (tolower (schar c) - tolower (schar d)) 0))
        by lia.
      destruct (schar d =? 0) eqn:Ed.
      * apply Z.eqb_eq in Ed.
        assert (schar c = 0) as Hc.
        { apply tolower_zero. rewrite Ed in E.
          change (tolower 0) with 0 in E. lia. }
        rewrite Hc, Ed. reflexivity.
      * apply Z.eqb_neq in Ed.
        assert (schar c <> 0) as Hc.
        { intros Hc. apply Ed, tolower_zero. rewrite Hc in E.
          change (tolower 0) with 0 in E. lia. }
        apply Z.eqb_neq in Hc. rewrite Hc. apply IH.
    + apply Z.eqb_neq in E.
      rewrite (proj2 (Z.eqb_neq (tolower (schar c) - tolower (schar d)) 0))
        by lia.
      lia.
Qed.

(** Bytes above 0x7F: 0xC8 against 'a' is 200 - 97, and 0x80 against
    0x7F is 128 - 127. *)
Example icompare_high_bytes :
  icompare (Some (String (ascii_of_nat 200) "")) (Some "a") = Some 103
  /\ icompare (Some (String (ascii_of_nat 128) ""))
       (Some (String (ascii_of_nat 127) "")) = Some 1.
Proof. split; reflexivity. Qed.

Lemma icompare_loop_refl p : icompare_loop p p = 0.
Proof.
  induction p as [| c t IH]; [reflexivity |].
  change (icompare_loop (String c t) (String c t))
    with (let result := tolower (schar c) - tolower (schar c) in
          if result =? 0
          then if schar c =? 0 then result else icompare_loop t t
          else result).
  cbv zeta. rewrite Z.sub_diag. simpl. now destruct (schar c =? 0).
Qed.

(** X8.  [icompare] of a string with itself is 0, its result lies between
    -255 and 255, and exchanging the operands negates it. *)
Theorem icompare_is_symmetric (lhs rhs : string) :
  icompare (Some lhs) (Some lhs) = Some 0
  /\ exists r,
       icompare (Some lhs) (Some rhs) = Some r
       /\ -255 <= r <= 255
       /\ icompare (Some rhs) (Some lhs) = Some (- r).
Proof.
  unfold icompare, StringCompareMethod_eval.
  rewrite icompare_loop_refl. split; [reflexivity |].
  pose proof (icompare_loop_range lhs rhs) as Hr.
  exists (icompare_loop lhs rhs).
  rewrite (icompare_loop_swap lhs rhs).
  rewrite !SVInt32_small by lia. repeat split; lia.
Qed.

(** ** [atoi] and its siblings: white space, sign, prefix, range *)

Lemma remove_underscores_spaces ws :
  allSpace ws = true -> remove_underscores ws = ws.
Proof.
  induction ws as [| c t IH]; simpl; [reflexivity |].
  intros H. apply andb_true_iff in H as [Hc Ht].
  destruct (Ascii.eqb c "_") eqn:E.
  - apply Ascii.eqb_eq in E. subst c. discriminate Hc.
  - now rewrite IH.
Qed.

Lemma skip_space_app ws c t :
  allSpace ws = true -> isspace c = false ->
  skip_space (ws ++ String c t) = String c t.
Proof.
  intros Hws Hc. induction ws as [| a u IH]; simpl.
  - now rewrite Hc.
  - simpl in Hws. apply andb_true_iff in Hws as [Ha Hu].
    rewrite Ha. now apply IH.
Qed.

Lemma read_sign_none c t :
  c <> "-"%char -> c <> "+"%char ->
  read_sign (String c t) = (false, String c t).
Proof.
  intros Hm Hp. unfold read_sign.
  destruct (ascii_dec c "-") as [-> | ?]; [congruence |].
  destruct (ascii_dec c "+") as [-> | ?]; [congruence |].
  destruct c as [[] [] [] [] [] [] [] []]; congruence.
Qed.

Lemma skip_hex_prefix_absent base c u :
  match u with
  | EmptyString => True
  | String c' _ => (base =? 16) && (Ascii.eqb c' "x" || Ascii.eqb c' "X") = false
  end ->
  skip_hex_prefix base (String c u) = String c u.
Proof.
  intros Hnext. unfold skip_hex_prefix. destruct u as [| c' u'].
  - destruct c as [[] [] [] [] [] [] [] []]; reflexivity.
  - rewrite Hnext. destruct c as [[] [] [] [] [] [] [] []]; reflexivity.
Qed.

(** The text [strtol] is given: white space, a sign, for base 16 possibly
    the prefix, the digits with their underscores, and the rest. *)
Lemma strtol_shape base ws sign prefixed capital c t rest :
  0 <= base ->
  allSpace ws = true ->
  (prefixed = true -> base = 16) ->
  digit_in base c <> None ->
  digitRun base t = true ->
  endsNumber base rest = true ->
  strtol (remove_underscores
            (ws ++ signText sign
                ++ (if prefixed then hexPrefix capital else "")
                ++ String c t ++ rest)) base
  = saturate (isNegative sign) (digitsValue base 0 (String c t)).
Proof.
  intros Hbase Hws Hpre Hc Hrun Hend.
  destruct (digit_in base c) as [d |] eqn:Hd; [clear Hc | congruence].
  pose proof (digit_in_digit_of _ _ _ Hd) as Hd'.
  destruct (digit_of_plain _ _ Hd') as (Hsp & Hminus & Hplus & Hu).
  set (Y := String c (remove_underscores t ++ remove_underscores rest)).
  assert (HY : remove_underscores (String c t ++ rest) = Y).
  { rewrite remove_underscores_app. simpl. now rewrite Hu. }
  assert (Hread : read_digits base 0 Y = digitsValue base 0 (String c t)).
  { unfold Y.
    change (String c (remove_underscores t ++ remove_underscores rest))
      with (String c (remove_underscores t) ++ remove_underscores rest).
    replace (String c (remove_underscores t))
      with (remove_underscores (String c t)) by (simpl; now rewrite Hu).
    rewrite read_digits_run.
    - apply read_digits_stop.
      destruct rest as [| c' r]; simpl; [exact I |]. simpl in Hend.
      apply andb_true_iff in Hend as [Hend _].
      apply andb_true_iff in Hend as [Hnd Hu'].
      apply negb_true_iff in Hu'. rewrite Hu'.
      now apply bool_decide_eq_true in Hnd.
    - simpl. rewrite Hrun, Hu. simpl. rewrite andb_true_r.
      apply bool_decide_eq_true. congruence. }
  assert (Hplain : skip_hex_prefix base Y = Y).
  { apply skip_hex_prefix_absent. now apply no_hex_letter_next. }
  assert (Hstrip : remove_underscores
                     (ws ++ signText sign
                         ++ (if prefixed then hexPrefix capital else "")
                         ++ String c t ++ rest)
                   = ws ++ signText sign
                        ++ (if prefixed then hexPrefix capital else "") ++ Y).
  { rewrite (remove_underscores_app ws), (remove_underscores_app (signText sign)),
      (remove_underscores_app (if prefixed then hexPrefix capital else "")),
      HY, remove_underscores_spaces by done.
    now destruct sign as [[] |], prefixed, capital. }
  rewrite Hstrip. unfold strtol, saturate.
  assert (Happ : forall a u v, String a u ++ v = String a (u ++ v))
    by reflexivity.
  assert (Hnil : forall v : string, "" ++ v = v) by reflexivity.
  destruct prefixed.
  - rewrite (Hpre eq_refl) in *. clearbody Y.
    destruct sign as [[] |], capital; simpl signText; simpl hexPrefix;
      rewrite ?Happ, ?Hnil; rewrite skip_space_app by done;
      simpl read_sign; cbv iota beta; simpl skip_hex_prefix;
      rewrite Hread; reflexivity.
  - destruct sign as [[] |]; simpl signText; rewrite ?Happ, ?Hnil.
    + rewrite skip_space_app by done. simpl read_sign. cbv iota beta.
      now rewrite Hplain, Hread.
    + rewrite skip_space_app by done. simpl read_sign. cbv iota beta.
      now rewrite Hplain, Hread.
    + unfold Y at 1. rewrite skip_space_app by done. fold Y.
      unfold Y at 1. rewrite read_sign_none by done. fold Y.
      now rewrite Hplain, Hread.
Qed.

(** X9.  Before the digits [atoi] and its siblings accept white space, a
    sign and, for [atohex], the prefix 0x or 0X: with digits that denote
    a number below 2^31 the result is that number, negated after a minus
    sign. *)
Theorem atoi_family_reads_sign_and_prefix
    (base : Z) (ws : string) (sign : option bool) (prefixed capital : bool)
    (digits rest : string) :
  2 <= base <= 36 ->
  allSpace ws = true ->
  (prefixed = true -> base = 16) ->
  startsWithDigit base digits = true ->
  digitRun base digits = true ->
  endsNumber base rest = true ->
  digitsValue base 0 digits < 2 ^ 31 ->
  StringAtoIMethod_eval base
    (Some (ws ++ signText sign
              ++ (if prefixed then hexPrefix capital else "")
              ++ digits ++ rest))
  = Some (if isNegative sign then - digitsValue base 0 digits
          else digitsValue base 0 digits).
Proof.
  intros Hbase Hws Hpre Hstart Hrun Hend Hsmall.
  destruct digits as [| c t]; [discriminate Hstart |].
  simpl in Hstart. apply bool_decide_eq_true in Hstart.
  assert (Ht : digitRun base t = true).
  { simpl in Hrun. now apply andb_true_iff in Hrun as [_ ?]. }
  unfold StringAtoIMethod_eval.
  rewrite strtol_shape by (assumption || lia).
  pose proof (digitsValue_nonneg base (String c t) 0 ltac:(lia) (Z.le_refl 0)).
  f_equal. unfold saturate, LONG_MIN, LONG_MAX.
  destruct (isNegative sign); rewrite SVInt32_small; lia.
Qed.

Lemma atoi_family_reads_sign_and_prefix_witness :
  StringAtoIMethod_eval 16 (Some ("  " ++ signText (Some true)
                                      ++ (if true then hexPrefix false else "")
                                      ++ "f_F" ++ "g"))
  = Some (if isNegative (Some true) then - digitsValue 16 0 "f_F"
          else digitsValue 16 0 "f_F").
Proof.
  apply (atoi_family_reads_sign_and_prefix 16 "  " (Some true) true false
           "f_F" "g"); first [lia | reflexivity].
Defined.

(** X10.  A run of digits that denotes 2^63 or more is out of the range of
    [long]: [strtol] gives [LONG_MAX], or [LONG_MIN] after a minus sign,
    and the 32 bits kept of it are -1, or 0. *)
Theorem atoi_family_out_of_range
    (base : Z) (sign : option bool) (digits rest : string) :
  2 <= base <= 36 ->
  startsWithDigit base digits = true ->
  digitRun base digits = true ->
  endsNumber base rest = true ->
  2 ^ 63 <= digitsValue base 0 digits ->
  StringAtoIMethod_eval base (Some (signText sign ++ digits ++ rest))
  = Some (if isNegative sign then 0 else -1).
Proof.
  intros Hbase Hstart Hrun Hend Hbig.
  destruct digits as [| c t]; [discriminate Hstart |].
  simpl in Hstart. apply bool_decide_eq_true in Hstart.
  assert (Ht : digitRun base t = true).
  { simpl in Hrun. now apply andb_true_iff in Hrun as [_ ?]. }
  unfold StringAtoIMethod_eval.
  assert (Hs : strtol (remove_underscores (signText sign ++ String c t ++ rest))
                  base
               = saturate (isNegative sign) (digitsValue base 0 (String c t))).
  { exact (strtol_shape base "" sign false false c t rest
             ltac:(lia) eq_refl ltac:(discriminate) Hstart Ht Hend). }
  rewrite Hs.
  f_equal. unfold saturate, LONG_MIN, LONG_MAX.
  destruct (isNegative sign).
  - rewrite Z.min_r, Z.max_l by lia. reflexivity.
  - rewrite Z.min_l, Z.max_r by lia. reflexivity.
Qed.

Lemma atoi_family_out_of_range_witness :
  StringAtoIMethod_eval 10
    (Some (signText None ++ "9223372036854775808" ++ ""))
  = Some (if isNegative None then 0 else -1).
Proof.
  apply (atoi_family_out_of_range 10 None "9223372036854775808" "");
    first [lia | reflexivity | vm_compute; congruence].
Defined.

(** X11.  An underscore is ignored wherever it stands, also in front of
    the number or between the sign and the digits: taking one out of the
    receiver does not change the result. *)
Theorem atoi_family_ignores_underscores (base : Z) (before after : string) :
  StringAtoIMethod_eval base (Some (before ++ "_" ++ after))
  = StringAtoIMethod_eval base (Some (before ++ after)).
Proof.
  unfold StringAtoIMethod_eval.
  now rewrite !remove_underscores_app.
Qed.

End StringMethodsMoreFacts.

(* ===================================================================== *)
(** * Further properties of [DiagnosticVisitor]                           *)
(* ===================================================================== *)

Module DiagnosticVisitorMoreFacts.

Import Ast DiagnosticVisitor AstFacts DiagnosticVisitorFacts.
Local Open Scope nat_scope.

(** ** What resolving a lazy member leaves in place *)

Lemma addSpecialization_grows cs c cls :
  specializationsOf cls c `prefix_of` specializationsOf cls (addSpecialization cs c).
Proof.
  unfold addSpecialization. case_decide; [done |].
  unfold specializationsOf at 2. simpl.
  destruct (decide (cs.1 = cls)) as [-> | Hne].
  - rewrite lookup_insert_eq. simpl. now apply prefix_app_r.
  - rewrite lookup_insert_ne by done. done.
Qed.

Lemma addSpecializations_grow l : forall c cls,
  specializationsOf cls c
  `prefix_of` specializationsOf cls (foldl (fun c cs => addSpecialization cs c) c l).
Proof.
  induction l as [| cs l IH]; intros c cls; simpl; [done |].
  etrans; [apply (addSpecialization_grows cs) | apply IH].
Qed.

Lemma addDiags_specializations l : forall c,
  specializations (foldl (fun c r => addDiag (diagOfReported r) c) c l)
  = specializations c.
Proof. induction l as [| r l IH]; intros c; simpl; [done |]. now rewrite IH. Qed.

Lemma force_grows l c :
  diags c `prefix_of` diags (force l c)
  /\ resolved c ⊆ resolved (force l c)
  /\ forall cls, specializationsOf cls c `prefix_of` specializationsOf cls (force l c).
Proof.
  destruct (force_spec l c) as (Hd & _ & Hr).
  split; [destruct Hd as [-> | ->]; [done | now apply prefix_app_r] |].
  split; [rewrite Hr; set_solver |].
  intros cls. unfold force. case_decide; [done |].
  etrans; [| apply addSpecializations_grow].
  unfold specializationsOf. now rewrite addDiags_specializations.
Qed.

Lemma forceAll_grows ls : forall c,
  diags c `prefix_of` diags (forceAll ls c)
  /\ resolved c ⊆ resolved (forceAll ls c)
  /\ forall cls,
       specializationsOf cls c `prefix_of` specializationsOf cls (forceAll ls c).
Proof.
  induction ls as [| l ls IH]; intros c; [done |].
  change (forceAll (l :: ls) c) with (forceAll ls (force l c)).
  destruct (IH (force l c)) as (Hd & Hr & Hs).
  destruct (force_grows l c) as (Hd0 & Hr0 & Hs0).
  split; [etrans; eauto |]. split; [set_solver |].
  intros cls. etrans; [apply Hs0 | apply Hs].
Qed.

Lemma grows_refl v : grows v v.
Proof. unfold grows. repeat split; done. Qed.

Lemma grows_trans a b c : grows a b -> grows b c -> grows a c.
Proof.
  unfold grows.
  intros (H1 & H2 & H3 & H4 & H5 & H6 & H7 & H8 & H9)
         (K1 & K2 & K3 & K4 & K5 & K6 & K7 & K8 & K9).
  split; [etrans; eauto |]. split; [set_solver |].
  split; [intros cls; etrans; [apply H3 | apply K3] |].
  split; [etrans; eauto |]. split; [etrans; eauto |].
  split; [etrans; eauto |]. split; [etrans; eauto |].
  split; [set_solver |]. intros def. etrans; [apply H9 | apply K9].
Qed.

Lemma grows_onCompilation f v :
  (diags (compilation v) `prefix_of` diags (f (compilation v))
   /\ resolved (compilation v) ⊆ resolved (f (compilation v))
   /\ forall cls, specializationsOf cls (compilation v)
                  `prefix_of` specializationsOf cls (f (compilation v))) ->
  grows v (onCompilation f v).
Proof. intros (H1 & H2 & H3). unfold grows. simpl. repeat split; done. Qed.

Lemma addDiag_grows d c :
  diags c `prefix_of` diags (addDiag d c)
  /\ resolved c ⊆ resolved (addDiag d c)
  /\ forall cls, specializationsOf cls c `prefix_of` specializationsOf cls (addDiag d c).
Proof. simpl. split; [now apply prefix_app_r |]. done. Qed.

Section Facts.

Context (design : Design).
Context (errorLimit maxInstanceDepth : nat).

Local Abbreviation shortCircuit := (DiagnosticVisitor.shortCircuit errorLimit).
Local Abbreviation enterInstance := (DiagnosticVisitor.enterInstance maxInstanceDepth).
Local Abbreviation handle := (DiagnosticVisitor.handle design errorLimit maxInstanceDepth).
Local Abbreviation finalizePass :=
  (DiagnosticVisitor.finalizePass design errorLimit maxInstanceDepth).
Local Abbreviation finalizeLoop :=
  (DiagnosticVisitor.finalizeLoop design errorLimit maxInstanceDepth).
Local Abbreviation visitUninstantiated :=
  (DiagnosticVisitor.visitUninstantiated design errorLimit maxInstanceDepth).
Local Abbreviation finalize := (DiagnosticVisitor.finalize design errorLimit maxInstanceDepth).

Lemma grows_enter i v :
  grows v (afterOwnLazies i v).
Proof.
  unfold afterOwnLazies. eapply grows_trans.
  - instantiate (1 := countInstance (instDefinition i) v).
    unfold grows. simpl. repeat split; try done.
    intros def. rewrite instanceCountOf_countInstance. lia.
  - apply grows_onCompilation, forceAll_grows.
Qed.

Lemma grows_stable : Stable errorLimit maxInstanceDepth grows.
Proof.
  split.
  - apply grows_refl.
  - apply grows_trans.
  - intros ls v. apply grows_onCompilation, forceAll_grows.
  - intros l v. apply grows_onCompilation, force_grows.
  - intros def v. unfold grows. simpl. repeat split; try done. set_solver.
  - intros c v. unfold grows. simpl. repeat split; try done.
    now apply prefix_app_r.
  - intros x v. unfold grows. simpl. repeat split; try done.
    now apply prefix_app_r.
  - intros x v. unfold grows. simpl. repeat split; try done.
    now apply prefix_app_r.
  - intros x v. unfold grows. simpl. repeat split; try done.
    now apply prefix_app_r.
  - intros i v v' _ He.
    eapply grows_trans; [apply (grows_enter i) |].
    destruct (enterInstance_cases maxInstanceDepth i v)
      as [(_ & E) | [(_ & _ & E) | (_ & _ & E)]];
      rewrite E in He; [| | discriminate]; injection He as <-;
      unfold grows; simpl; repeat split; try done; now apply prefix_app_r.
  - intros i v v1 v2 _ He H12.
    eapply grows_trans; [apply (grows_enter i) |].
    destruct (enterInstance_cases maxInstanceDepth i v)
      as [(_ & E) | [(_ & _ & E) | (_ & _ & E)]];
      rewrite E in He; [discriminate | discriminate |]; injection He as <-.
    eapply grows_trans; [| eapply grows_trans; [exact H12 |]];
      unfold grows; simpl; repeat split; done.
Qed.

(** X12.  Across the main traversal and across [finalize] nothing that
    was gathered is dropped or reordered: the diagnostics, the
    specializations of each class and the lists of generic classes, DPI
    imports, extern interface prototypes and modports with exports only
    grow at their end, the resolved lazy members and the used interface
    ports only gain elements, and no instance count goes down. *)
Theorem gathered_state_only_grows
    (rounds fuel : nat) (root : Symbol) (v v1 v' : Visitor) (visited : gset nat) :
  handle fuel root v = Some v1 ->
  finalize rounds fuel v1 = Some (visited, v') ->
  grows v v1 /\ grows v1 v'.
Proof.
  intros H1 H2. split.
  - exact (handle_stable _ _ _ _ grows_stable _ _ _ _ H1).
  - exact (finalize_stable _ _ _ _ grows_stable _ _ _ _ _ H2).
Qed.


(** ** One structural diagnostic, with the hierarchy problem *)

Lemma reported_not_structural l :
  List.filter isStructuralDiag (map diagOfReported l) = [].
Proof. induction l as [| r l IH]; simpl; [done |]. exact IH. Qed.

Lemma force_structural l c :
  length (List.filter isStructuralDiag (diags (force l c)))
  = length (List.filter isStructuralDiag (diags c)).
Proof.
  destruct (force_spec l c) as ([-> | ->] & _); [done |].
  now rewrite List.filter_app, reported_not_structural, app_nil_r.
Qed.

Lemma forceAll_structural ls : forall c,
  length (List.filter isStructuralDiag (diags (forceAll ls c)))
  = length (List.filter isStructuralDiag (diags c)).
Proof.
  induction ls as [| l ls IH]; intros c; [done |].
  change (forceAll (l :: ls) c) with (forceAll ls (force l c)).
  now rewrite IH, force_structural.
Qed.

Lemma StructuralOnce_stable :
  Stable errorLimit maxInstanceDepth (keeps StructuralOnce).
Proof.
  split; unfold keeps, StructuralOnce, structuralDiags; try done.
  - auto.
  - intros ls v Hd. simpl. now rewrite forceAll_structural.
  - intros l v Hd. simpl. now rewrite force_structural.
  - intros i v v' Hsc He Hd.
    apply shortCircuit_open in Hsc as [Hh _]. rewrite Hh in Hd.
    pose proof (forceAll_structural (instanceLazies i) (compilation v)) as Hf.
    destruct (enterInstance_cases maxInstanceDepth i v)
      as [(_ & E) | [(_ & _ & E) | (_ & _ & E)]];
      rewrite E in He; [| | discriminate]; injection He as <-;
      simpl in *; rewrite filter_length_snoc; simpl; lia.
  - intros i v v1 v2 Hsc He H12 Hd.
    pose proof (forceAll_structural (instanceLazies i) (compilation v)) as Hf.
    destruct (enterInstance_cases maxInstanceDepth i v)
      as [(_ & E) | [(_ & _ & E) | (_ & _ & E)]];
      rewrite E in He; [discriminate | discriminate |]; injection He as <-.
    simpl in *. apply H12. lia.
Qed.

(** X13.  In an elaboration that starts from a compilation without
    structural diagnostics, the hierarchy problem is set exactly when one
    InfinitelyRecursiveHierarchy or MaxInstanceDepthExceeded diagnostic
    was issued, and never more than one of the two is. *)
Theorem hierarchy_problem_iff_one_structural_diagnostic
    (rounds fuel : nat) (root : Symbol) (c : Compilation)
    (v1 v' : Visitor) (visited : gset nat) :
  List.filter isStructuralDiag (diags c) = [] ->
  handle fuel root (newVisitor c) = Some v1 ->
  finalize rounds fuel v1 = Some (visited, v') ->
  structuralDiags v' = (if hierarchyProblem v' then 1 else 0).
Proof.
  intros Hc H1 H2.
  assert (StructuralOnce (newVisitor c)) as H0.
  { unfold StructuralOnce, structuralDiags. simpl. now rewrite Hc. }
  apply (finalize_stable _ _ _ _ StructuralOnce_stable _ _ _ _ _ H2).
  exact (handle_stable _ _ _ _ StructuralOnce_stable _ _ _ _ H1 H0).
Qed.

(** ** The depth cap *)

(** X14.  An instance that passes the guard with a body that is not
    active is entered while the active set has fewer than
    [maxInstanceDepth] bodies.  With [maxInstanceDepth] or more the
    handler returns without visiting the body: after the diagnostics of
    the instance's own lazy members it adds MaxInstanceDepthExceeded with
    the kind of the definition and the limit as arguments, sets the
    hierarchy problem, resolves nothing else and leaves the active set as
    it found it. *)
Theorem depth_cap_stops_descent (fuel : nat) (i : InstanceData) (v : Visitor) :
  shortCircuit v = false ->
  instBody i ∉ activeInstanceBodies v ->
  (size (activeInstanceBodies v) < maxInstanceDepth ->
   exists v1,
     enterInstance i v = Accepted v1
     /\ activeInstanceBodies v1 = {[instBody i]} ∪ activeInstanceBodies v
     /\ hierarchyProblem v1 = false)
  /\ (maxInstanceDepth <= size (activeInstanceBodies v) ->
      exists v',
        handle (S fuel) (InstanceSymbol i) v = Some v'
        /\ diags (compilation v')
           = diags (compilation (afterOwnLazies i v))
             ++ [mkDiagnostic MaxInstanceDepthExceeded (instLocation i)
                   [ArgString (instDefinitionKind i); ArgNumber maxInstanceDepth]
                   true]
        /\ resolved (compilation v') = resolved (compilation (afterOwnLazies i v))
        /\ hierarchyProblem v' = true
        /\ activeInstanceBodies v' = activeInstanceBodies v).
Proof.
  intros Hsc Hnin.
  assert (Hsize : size ({[instBody i]} ∪ activeInstanceBodies v)
                  = S (size (activeInstanceBodies v))).
  { rewrite size_union by set_solver. now rewrite size_singleton. }
  destruct (shortCircuit_open _ _ Hsc) as [Hh _].
  destruct (enterInstance_cases maxInstanceDepth i v)
    as [(Hin & _) | [(_ & Hbig & E) | (_ & Hsmall & E)]]; [done | |].
  - split; [intros Hlt; lia |]. intros _.
    eexists. split; [apply handle_refused; eassumption |].
    simpl. repeat split; try reflexivity. set_solver.
  - split; [| intros Hge; lia]. intros _.
    eexists. split; [exact E |]. simpl. split; [reflexivity | exact Hh].
Qed.



(** ** [finalize] *)

Lemma collectSpecs_all_seen specs : forall visited toVisit,
  (forall t, t ∈ specs -> t ∈ visited) ->
  collectSpecs specs visited toVisit = (visited, toVisit).
Proof.
  induction specs as [| spec specs IH]; intros visited toVisit Hall; simpl;
    [done |].
  rewrite decide_True by (apply Hall; left).
  apply IH. intros t Ht. apply Hall. now right.
Qed.

Lemma collectSpecs_only specs : forall visited toVisit visited' toVisit',
  collectSpecs specs visited toVisit = (visited', toVisit') ->
  forall t, t ∈ visited' -> t ∈ visited \/ t ∈ specs.
Proof.
  induction specs as [| spec specs IH]; intros visited toVisit visited' toVisit' H;
    simpl in H.
  - injection H as <- <-. auto.
  - case_decide.
    + intros t Ht. destruct (IH _ _ _ _ H t Ht); [now left |].
      right. now right.
    + intros t Ht. destruct (IH _ _ _ _ H t Ht) as [Hin | Hin].
      * apply elem_of_union in Hin as [Hin | Hin]; [| now left].
        apply elem_of_singleton in Hin. subst. right. left.
      * right. now right.
Qed.

(** A round over classes whose specializations were all seen does
    nothing. *)
Lemma finalizePass_all_seen fuel classes : forall visited did v,
  AllSeen classes visited v ->
  finalizePass fuel classes visited did v = Some (visited, did, v).
Proof.
  induction classes as [| cls classes IH]; intros visited did v Hall; simpl;
    [done |].
  rewrite collectSpecs_all_seen by (intros t Ht; eapply Hall; [left | done]).
  simpl. apply IH. intros c t Hc. apply Hall. now right.
Qed.

(** Under the short circuit a round changes nothing but the set of the
    specializations seen, which then holds all of them. *)
Lemma finalizePass_shortCircuit fuel classes : forall visited did v,
  shortCircuit v = true ->
  exists visited' did',
    finalizePass (S fuel) classes visited did v = Some (visited', did', v)
    /\ visited ⊆ visited'
    /\ AllSeen classes visited' v.
Proof.
  induction classes as [| cls classes IH]; intros visited did v Hsc.
  - exists visited, did. split; [done |]. split; [done |].
    intros c t Hc. inversion Hc.
  - cbn [DiagnosticVisitor.finalizePass].
    destruct (collectSpecs _ visited []) as [vs toVisit] eqn:Hcol.
    destruct (collectSpecs_spec _ _ _ _ _ Hcol) as (Hsub & Hseen & _).
    rewrite (visitAll_shortCircuit design errorLimit maxInstanceDepth) by done.
    cbn [mbind option_bind].
    destruct (IH vs (match toVisit with [] => did | _ => true end) v Hsc)
      as (vs' & did' & Hp & Hsub' & Hall).
    exists vs', did'. split; [exact Hp |]. split; [set_solver |].
    intros c t Hc Ht. apply elem_of_cons in Hc as [-> | Hc]; [| eauto].
    apply Hsub'. auto.
Qed.

Lemma visitUninstantiated_shortCircuit fuel classes v :
  shortCircuit v = true ->
  visitUninstantiated (S fuel) classes v = Some v.
Proof.
  intros Hsc. induction classes as [| cls classes IH];
    cbn [DiagnosticVisitor.visitUninstantiated]; [done |].
  destruct (length (specializationsOf cls (compilation v)) =? 0).
  - rewrite (handle_shortCircuit design errorLimit maxInstanceDepth) by done.
    exact IH.
  - exact IH.
Qed.

(** X15.  When the short circuit is set before [finalize], [finalize]
    still returns, within two rounds of its loop, and leaves the visitor
    and the compilation exactly as they were: every specialization of the
    collected classes is marked as seen, none is elaborated. *)
Theorem finalize_under_short_circuit (rounds fuel : nat) (v : Visitor) :
  shortCircuit v = true ->
  exists visited,
    finalize (S (S rounds)) (S fuel) v = Some (visited, v)
    /\ AllSeen (genericClasses v) visited v.
Proof.
  intros Hsc.
  destruct (finalizePass_shortCircuit fuel (genericClasses v) ∅ false v Hsc)
    as (vs1 & did1 & Hp1 & _ & Hall1).
  exists vs1. split; [| exact Hall1].
  unfold DiagnosticVisitor.finalize.
  assert (finalizeLoop (S (S rounds)) (S fuel) ∅ v = Some (vs1, v)) as ->.
  { cbn [DiagnosticVisitor.finalizeLoop]. rewrite Hp1. cbn [mbind option_bind].
    destruct did1; [| done].
    rewrite (finalizePass_all_seen _ _ _ _ _ Hall1). done. }
  cbn [mbind option_bind].
  now rewrite visitUninstantiated_shortCircuit.
Qed.

Lemma OnlySpecializations_grows visited v v' :
  grows v v' -> OnlySpecializations visited v -> OnlySpecializations visited v'.
Proof.
  intros (_ & _ & Hs & Hg & _) Hon t Ht.
  destruct (Hon t Ht) as (cls & Hc & Hin). exists cls. split.
  - destruct Hg as [k ->]. apply elem_of_app. now left.
  - destruct (Hs cls) as [k ->]. apply elem_of_app. now left.
Qed.

Lemma finalizePass_only fuel classes : forall visited did v visited' did' v',
  finalizePass fuel classes visited did v = Some (visited', did', v') ->
  (forall cls, cls ∈ classes -> cls ∈ genericClasses v) ->
  OnlySpecializations visited v ->
  OnlySpecializations visited' v'.
Proof.
  induction classes as [| cls classes IH];
    intros visited did v visited' did' v' H Hsub Hon; simpl in H.
  - now injection H as <- _ <-.
  - destruct (collectSpecs _ visited []) as [vs toVisit] eqn:Hcol.
    destruct (visitAll (handle fuel) _ v) as [v1 |] eqn:Hv; simpl in H;
      [| discriminate].
    pose proof (visitAll_handle_stable _ _ _ _ grows_stable _ _ _ _ Hv) as Hg.
    eapply IH; [exact H | |].
    + intros c Hc. destruct Hg as (_ & _ & _ & [k ->] & _).
      apply elem_of_app. left. apply Hsub. now right.
    + apply (OnlySpecializations_grows _ v); [exact Hg |].
      intros t Ht. destruct (collectSpecs_only _ _ _ _ _ Hcol t Ht) as [Hold | Hnew].
      * now apply Hon.
      * exists cls. split; [apply Hsub; left | exact Hnew].
Qed.

(** X16.  The loop of [finalize] hands to [visit] nothing but
    specializations of collected generic classes: when it ends every
    member of [visitedSpecs] is a specialization of one of them. *)
Theorem finalize_loop_visits_only_specializations
    (rounds fuel : nat) (v v0 : Visitor) (visited : gset nat) :
  finalizeLoop rounds fuel ∅ v = Some (visited, v0) ->
  forall t, t ∈ visited ->
    exists cls, cls ∈ genericClasses v0
                /\ t ∈ specializationsOf cls (compilation v0).
Proof.
  assert (Hloop : forall rounds visited0 v visited v0,
            finalizeLoop rounds fuel visited0 v = Some (visited, v0) ->
            OnlySpecializations visited0 v -> OnlySpecializations visited v0).
  { clear. intros rounds.
    induction rounds as [| rounds IH]; intros visited0 v visited v0 H Hon;
      [discriminate |]. simpl in H.
    destruct (finalizePass fuel (genericClasses v) visited0 false v)
      as [[[vs did] v1] |] eqn:Hp; simpl in H; [| discriminate].
    pose proof (finalizePass_only _ _ _ _ _ _ _ _ Hp ltac:(auto) Hon) as Hon1.
    destruct did; [eapply IH; eauto |].
    now injection H as <- <-. }
  intros H. apply (Hloop _ _ _ _ _ H).
  intros t Ht. set_solver.
Qed.


(** ** Every lazy member is resolved *)

Local Abbreviation Resolved ls v :=
  (forall l : Lazy, l ∈ (ls : list Lazy) -> lazyId l ∈ resolved (compilation v)).

(** Every node at or below a node of [l] has its lazy members resolved. *)
Local Abbreviation Covered l v :=
  (forall c : Symbol, c ∈ (l : list Symbol) ->
   forall n, Below design c n -> Resolved (ownLazies design n) v).

Lemma Resolved_grows ls v v' : grows v v' -> Resolved ls v -> Resolved ls v'.
Proof. intros (_ & Hr & _) H l Hl. apply Hr. now apply H. Qed.

Lemma Resolved_app ls1 ls2 v :
  Resolved ls1 v -> Resolved ls2 v -> Resolved (ls1 ++ ls2) v.
Proof. intros H1 H2 l Hl. apply elem_of_app in Hl as [? | ?]; auto. Qed.

Lemma Resolved_forceAll ls v : Resolved ls (onCompilation (forceAll ls) v).
Proof. intros l Hl. simpl. now apply forceAll_spec. Qed.

Lemma Covered_grows l v v' : grows v v' -> Covered l v -> Covered l v'.
Proof.
  intros G H c Hc n Hn. apply (Resolved_grows _ v); [done |]. now apply (H c).
Qed.

Lemma Covered_app l1 l2 v : Covered l1 v -> Covered l2 v -> Covered (l1 ++ l2) v.
Proof.
  intros H1 H2 c Hc. apply elem_of_app in Hc as [Hc | Hc];
    [now apply H1 | now apply H2].
Qed.

Lemma Covered_nil v : Covered [] v.
Proof. intros c Hc. inversion Hc. Qed.

Lemma open_before v v' : sticky v v' -> shortCircuit v' = false -> shortCircuit v = false.
Proof.
  intros Hs Hv'. destruct (shortCircuit v) eqn:Hv; [| done].
  rewrite (sticky_shortCircuit errorLimit _ _ Hs Hv) in Hv'. discriminate.
Qed.

Local Abbreviation Touches fuel :=
  (forall s v v',
     handle fuel s v = Some v' -> shortCircuit v' = false ->
     forall n, Below design s n -> Resolved (ownLazies design n) v').

Lemma visitAll_touches fuel l : forall v v',
  Touches fuel ->
  visitAll (handle fuel) l v = Some v' -> shortCircuit v' = false ->
  Covered l v'.
Proof.
  induction l as [| s l IH]; intros v v' Ht H Hopen c Hc; [inversion Hc |].
  rewrite visitAll_cons in H.
  destruct (handle fuel s v) as [v1 |] eqn:Hs; [| discriminate].
  apply elem_of_cons in Hc as [-> | Hc]; [| exact (IH v1 v' Ht H Hopen c Hc)].
  intros n Hn. apply (Resolved_grows _ v1).
  - exact (visitAll_handle_stable _ _ _ _ grows_stable _ _ _ _ H).
  - apply (Ht _ _ _ Hs); [| exact Hn].
    apply (open_before _ v'); [| done].
    exact (visitAll_handle_stable _ _ _ _
             (sticky_stable errorLimit maxInstanceDepth) _ _ _ _ H).
Qed.

Lemma handleDefault_touches fuel k d body bodyNodes members v ok v' :
  Touches fuel ->
  DiagnosticVisitor.handleDefault errorLimit (handle fuel) k d body bodyNodes
    members v = Some (ok, v') ->
  shortCircuit v' = false ->
  ok = true
  /\ Resolved (defaultLazies k d) v'
  /\ Covered (match body with
              | BadBody => []
              | GoodBody => bodyNodes ++ members
              | NoBody => members
              end) v'.
Proof.
  intros Ht H Hopen.
  assert (Hopen0 : shortCircuit v = false).
  { apply (open_before _ v'); [| done].
    eapply (handleDefault_stable errorLimit maxInstanceDepth _
              (sticky_stable errorLimit maxInstanceDepth)); [| exact H].
    apply (handle_stable _ _ _ _ (sticky_stable errorLimit maxInstanceDepth)). }
  unfold DiagnosticVisitor.handleDefault in H. rewrite Hopen0 in H.
  set (v1 := onCompilation (forceAll (defaultLazies k d)) v) in *.
  pose proof (Resolved_forceAll (defaultLazies k d) v) as H1. fold v1 in H1.
  destruct body.
  - destruct (visitAll (handle fuel) members v1) as [v3 |] eqn:E3; simpl in H;
      [| discriminate].
    injection H as <- <-. split; [done |].
    split; [| exact (visitAll_touches fuel members v1 v3 Ht E3 Hopen)].
    apply (Resolved_grows _ v1); [| done].
    exact (visitAll_handle_stable _ _ _ _ grows_stable _ _ _ _ E3).
  - injection H as <- <-. split; [done |]. split; [done | apply Covered_nil].
  - destruct (visitAll (handle fuel) bodyNodes v1) as [v2 |] eqn:E2; simpl in H;
      [| discriminate].
    destruct (visitAll (handle fuel) members v2) as [v3 |] eqn:E3; simpl in H;
      [| discriminate].
    injection H as <- <-. split; [done |].
    pose proof (visitAll_handle_stable _ _ _ _ grows_stable _ _ _ _ E2) as G12.
    pose proof (visitAll_handle_stable _ _ _ _ grows_stable _ _ _ _ E3) as G23.
    split; [| apply Covered_app].
    + apply (Resolved_grows _ v1); [exact (grows_trans _ _ _ G12 G23) | done].
    + apply (Covered_grows _ v2); [done |].
      apply (visitAll_touches fuel bodyNodes v1 v2 Ht E2).
      apply (open_before v2 v3); [| done].
      exact (visitAll_handle_stable _ _ _ _
               (sticky_stable errorLimit maxInstanceDepth) _ _ _ _ E3).
    + exact (visitAll_touches fuel members v2 v3 Ht E3 Hopen).
Qed.

Lemma afterDefault_touches k d v :
  grows v (afterDefault k d v) /\ Resolved (kindLazies k d) (afterDefault k d v).
Proof.
  split; [apply (afterDefault_stable _ _ _ grows_stable) |].
  unfold afterDefault, kindLazies.
  destruct k; try (intros x Hx; inversion Hx; fail);
    try apply Resolved_forceAll.
  (* InterfacePort *)
  destruct (interfaceDef d) as [def |].
  - destruct (modportConnection d) as [[conn [modport |]] |].
    + apply Resolved_app.
      * intros x Hx. simpl.
        match goal with
        | |- _ ∈ resolved (force ?l ?c) =>
            destruct (force_spec l c) as (_ & _ & ->)
        end.
        apply elem_of_union. right. now apply forceAll_spec.
      * intros x Hx. apply list_elem_of_singleton in Hx. subst x. simpl.
        match goal with
        | |- _ ∈ resolved (force ?l ?c) =>
            destruct (force_spec l c) as (_ & _ & ->)
        end.
        set_solver.
    + apply Resolved_app.
      * intros x Hx. simpl.
        match goal with
        | |- _ ∈ resolved (force ?l ?c) =>
            destruct (force_spec l c) as (_ & _ & ->)
        end.
        apply elem_of_union. right. now apply forceAll_spec.
      * intros x Hx. apply list_elem_of_singleton in Hx. subst x. simpl.
        match goal with
        | |- _ ∈ resolved (force ?l ?c) =>
            destruct (force_spec l c) as (_ & _ & ->)
        end.
        set_solver.
    + rewrite app_nil_r. intros x Hx. simpl. now apply forceAll_spec.
  - rewrite app_nil_r. apply Resolved_forceAll.
Qed.

(** What the handler of [s] leaves behind when it returns without the
    short circuit: the lazy members of [s] resolved, and every node below
    covered. *)
Lemma handle_covers fuel :
  Touches fuel ->
  forall s v v',
    handle (S fuel) s v = Some v' -> shortCircuit v' = false ->
    Resolved (ownLazies design s) v' /\ Covered (children design s) v'.
Proof.
  intros IH s v v' H Hopen.
  destruct s as [i | inst d ms | d ms sub | k d body bn ms]; simpl in H.
  - assert (Hopen0 : shortCircuit v = false).
    { apply (open_before _ v'); [| done].
      eapply (handleInstance_stable _ _ _ _
                (sticky_stable errorLimit maxInstanceDepth)); [| exact H].
      apply (handle_stable _ _ _ _ (sticky_stable errorLimit maxInstanceDepth)). }
    unfold DiagnosticVisitor.handleInstance in H. rewrite Hopen0 in H.
    destruct (enterInstance_cases maxInstanceDepth i v)
      as [(_ & E) | [(_ & _ & E) | (_ & _ & E)]]; rewrite E in H.
    + injection H as <-. unfold DiagnosticVisitor.shortCircuit in Hopen.
      simpl in Hopen. now rewrite orb_true_r in Hopen.
    + injection H as <-. unfold DiagnosticVisitor.shortCircuit in Hopen.
      simpl in Hopen. now rewrite orb_true_r in Hopen.
    + unfold DiagnosticVisitor.visitBody in H.
      match type of H with
      | context [DiagnosticVisitor.handleDefault _ ?h ?k ?bd ?b ?bn ?bm ?v1] =>
          destruct (DiagnosticVisitor.handleDefault errorLimit h k bd b bn bm v1)
            as [[ok v2] |] eqn:Hb; simpl in H; [| discriminate]
      end.
      injection H as <-.
      assert (Hopen2 : shortCircuit v2 = false) by exact Hopen.
      assert (Gexit : grows v2 (guardExit i v2)).
      { unfold grows. simpl. repeat split; done. }
      destruct (handleDefault_touches _ _ _ _ _ _ _ _ _ IH Hb Hopen2)
        as (_ & Rbody & Cbody).
      split; [apply Resolved_app |].
      * apply (Resolved_grows _ (afterOwnLazies i v)); [| apply Resolved_forceAll].
        eapply grows_trans; [| eapply grows_trans; [| exact Gexit]].
        -- instantiate (1 := record (Entered (instDefinition i) (instBody i))
                                (setActive ({[instBody i]} ∪ activeInstanceBodies v)
                                   (afterOwnLazies i v))).
           unfold grows. simpl. repeat split; done.
        -- eapply (handleDefault_stable errorLimit maxInstanceDepth _
                     grows_stable); [| exact Hb].
           apply (handle_stable _ _ _ _ grows_stable).
      * now apply (Resolved_grows _ v2).
      * now apply (Covered_grows _ v2).
  - destruct inst; simpl in H.
    2:{ split; [intros x Hx; inversion Hx | apply Covered_nil]. }
    destruct (DiagnosticVisitor.handleDefault errorLimit (handle fuel)
                GenerateBlock d NoBody [] ms v) as [[ok v0] |] eqn:Hd;
      simpl in H; [| discriminate].
    injection H as <-.
    now destruct (handleDefault_touches _ _ _ _ _ _ _ _ _ IH Hd Hopen)
      as (_ & ? & ?).
  - destruct (DiagnosticVisitor.handleDefault errorLimit (handle fuel)
                MethodPrototype d NoBody [] ms v) as [[ok v0] |] eqn:Hd;
      simpl in H; [| discriminate].
    assert (Hg : forall v2,
               match sub with
               | Some sub0 => handle fuel sub0
                                (onCompilation (forceAll (getters d)) v0)
               | None => Some (onCompilation (forceAll (getters d)) v0)
               end = Some v2 ->
               grows (onCompilation (forceAll (getters d)) v0) v2
               /\ sticky (onCompilation (forceAll (getters d)) v0) v2).
    { intros v2 H2. destruct sub as [sub0 |].
      - split; [exact (handle_stable _ _ _ _ grows_stable _ _ _ _ H2)
               | exact (handle_stable _ _ _ _
                          (sticky_stable errorLimit maxInstanceDepth) _ _ _ _ H2)].
      - injection H2 as <-.
        split; [apply grows_refl
               | apply (stable_refl _ _ _
                          (sticky_stable errorLimit maxInstanceDepth))]. }
    destruct ok.
    + match type of H with
      | (?m ≫= _) = _ => destruct m as [v2 |] eqn:Hs; simpl in H; [| discriminate]
      end.
      destruct (Hg v2 eq_refl) as (G2 & S2).
      assert (Hopen2 : shortCircuit v2 = false).
      { injection H as <-. now destruct (isInterfaceExtern d). }
      assert (Hopen1 : shortCircuit (onCompilation (forceAll (getters d)) v0)
                       = false) by (eapply open_before; eauto).
      assert (Hopen0 : shortCircuit v0 = false).
      { apply (open_before _ _
                 (stable_forceAll _ _ _
                    (sticky_stable errorLimit maxInstanceDepth)
                    (getters d) v0) Hopen1). }
      destruct (handleDefault_touches _ _ _ _ _ _ _ _ _ IH Hd Hopen0)
        as (_ & R0 & C0).
      assert (G02 : grows v0 v2).
      { eapply grows_trans; [| exact G2].
        apply (stable_forceAll _ _ _ grows_stable). }
      assert (Gfinal : grows v2 v').
      { injection H as <-. destruct (isInterfaceExtern d);
          [apply (stable_pushExternIfaceProto _ _ _ grows_stable)
          | apply grows_refl]. }
      split.
      * apply (Resolved_grows _ v2); [done |]. apply Resolved_app.
        -- now apply (Resolved_grows _ v0).
        -- apply (Resolved_grows _ _ _ G2). apply Resolved_forceAll.
      * apply (Covered_grows _ v2); [done |]. apply Covered_app.
        -- now apply (Covered_grows _ v0).
        -- destruct sub as [sub0 |]; [| apply Covered_nil].
           intros c Hc n Hn. apply list_elem_of_singleton in Hc. subst c.
           exact (IH _ _ _ Hs Hopen2 n Hn).
    + injection H as <-.
      destruct (handleDefault_touches _ _ _ _ _ _ _ _ _ IH Hd Hopen)
        as (? & _); discriminate.
  - destruct (DiagnosticVisitor.handleDefault errorLimit (handle fuel)
                k d body bn ms v) as [[ok v0] |] eqn:Hd; simpl in H;
      [| discriminate].
    injection H as <-.
    destruct ok.
    + destruct (afterDefault_touches k d v0) as (G & Rk).
      assert (Hopen0 : shortCircuit v0 = false).
      { apply (open_before _ (afterDefault k d v0)); [| done].
        apply (afterDefault_stable _ _ _
                 (sticky_stable errorLimit maxInstanceDepth)). }
      destruct (handleDefault_touches _ _ _ _ _ _ _ _ _ IH Hd Hopen0)
        as (_ & R0 & C0).
      split.
      * apply Resolved_app; [now apply (Resolved_grows _ v0) | done].
      * now apply (Covered_grows _ v0).
    + destruct (handleDefault_touches _ _ _ _ _ _ _ _ _ IH Hd Hopen)
        as (? & _); discriminate.
Qed.

Lemma handle_touches fuel : Touches fuel.
Proof.
  induction fuel as [| fuel IH]; intros s v v' H Hopen n Hn; [discriminate |].
  destruct (handle_covers fuel IH s v v' H Hopen) as (Hown & Hbelow).
  destruct Hn as [s | s c n Hc Hn]; [exact Hown | exact (Hbelow c Hc n Hn)].
Qed.

(** X17.  When the handler of a symbol returns without the short circuit
    set, every node at or below the symbol in the elaborated hierarchy
    has had its lazy members resolved, the members of the bodies of the
    instances included; the only nodes left out are those under an
    uninstantiated generate block or under a node whose body is bad. *)
Theorem traversal_resolves_every_lazy_member
    (fuel : nat) (s : Symbol) (v v' : Visitor) :
  handle fuel s v = Some v' ->
  shortCircuit v' = false ->
  forall n, Below design s n ->
  forall l, l ∈ ownLazies design n -> lazyId l ∈ resolved (compilation v').
Proof. apply handle_touches. Qed.

(** ** The loop of [finalize] elaborates what it marks *)

(** Every specialization in [visited] has been visited: every node at or
    below its type has its lazy members resolved. *)
Local Abbreviation Elaborated visited v :=
  (forall t : nat, t ∈ (visited : gset nat) ->
   forall n, Below design (specType design t) n ->
     Resolved (ownLazies design n) v).

Lemma collectSpecs_queue specs : forall visited toVisit visited' toVisit',
  collectSpecs specs visited toVisit = (visited', toVisit') ->
  (forall t, t ∈ toVisit -> t ∈ toVisit')
  /\ forall t, t ∈ visited' -> t ∈ visited \/ t ∈ toVisit'.
Proof.
  induction specs as [| spec specs IH]; intros visited toVisit visited' toVisit' H;
    simpl in H.
  - injection H as <- <-. auto.
  - case_decide.
    + exact (IH _ _ _ _ H).
    + destruct (IH _ _ _ _ H) as (Hq & Hv). split.
      * intros t Ht. apply Hq. apply elem_of_app. now left.
      * intros t Ht. destruct (Hv t Ht) as [Hin | Hin]; [| now right].
        apply elem_of_union in Hin as [Hin | Hin]; [| now left].
        apply elem_of_singleton in Hin. subst t. right. apply Hq.
        apply elem_of_app. right. apply list_elem_of_singleton. reflexivity.
Qed.

Lemma finalizePass_elaborates fuel classes : forall visited did v visited' did' v',
  finalizePass fuel classes visited did v = Some (visited', did', v') ->
  shortCircuit v' = false ->
  Elaborated visited v -> Elaborated visited' v'.
Proof.
  induction classes as [| cls classes IH];
    intros visited did v visited' did' v' H Hopen Hel; simpl in H.
  - now injection H as <- _ <-.
  - destruct (collectSpecs _ visited []) as [vs toVisit] eqn:Hcol.
    destruct (visitAll (handle fuel) _ v) as [v1 |] eqn:Hv; simpl in H;
      [| discriminate].
    pose proof (visitAll_handle_stable _ _ _ _ grows_stable _ _ _ _ Hv) as Hg.
    assert (Hopen1 : shortCircuit v1 = false).
    { apply (open_before v1 v'); [| done].
      exact (finalizePass_stable _ _ _ _
               (sticky_stable errorLimit maxInstanceDepth) _ _ _ _ _ _ _ _ H). }
    apply (IH _ _ _ _ _ _ H Hopen). intros t Ht n Hn.
    destruct (collectSpecs_queue _ _ _ _ _ Hcol) as (_ & Hvs).
    destruct (Hvs t Ht) as [Hold | Hnew].
    + apply (Resolved_grows _ v); [exact Hg |]. now apply (Hel t).
    + apply (visitAll_touches fuel _ v v1 (handle_touches fuel) Hv Hopen1
               (specType design t)); [| exact Hn].
      apply list_elem_of_fmap. now exists t.
Qed.

Lemma finalizeLoop_elaborates fuel rounds : forall visited0 v visited v0,
  finalizeLoop rounds fuel visited0 v = Some (visited, v0) ->
  shortCircuit v0 = false ->
  Elaborated visited0 v -> Elaborated visited v0.
Proof.
  induction rounds as [| rounds IH]; intros visited0 v visited v0 H Hopen Hel;
    [discriminate |]. simpl in H.
  destruct (finalizePass fuel (genericClasses v) visited0 false v)
    as [[[vs did] v1] |] eqn:Hp; simpl in H; [| discriminate].
  destruct did.
  - apply (IH _ _ _ _ H Hopen).
    apply (finalizePass_elaborates _ _ _ _ _ _ _ _ Hp); [| exact Hel].
    apply (open_before v1 v0); [| done].
    exact (finalizeLoop_stable _ _ _ _
             (sticky_stable errorLimit maxInstanceDepth) _ _ _ _ _ _ H).
  - injection H as <- <-.
    exact (finalizePass_elaborates _ _ _ _ _ _ _ _ Hp Hopen Hel).
Qed.

(** X26.  When the loop of [finalize] over the generic classes ends
    without the short circuit set, every specialization of every generic
    class collected by then has been visited: it is in [visitedSpecs],
    and every node at or below its type has had its lazy members
    resolved, also when the specialization was only made by a visit of
    the loop.  [finalize] returns in that very state provided every
    collected class has a specialization when the loop ends, so that no
    invalid specialization is visited after it. *)
Theorem finalize_loop_elaborates_every_specialization
    (rounds fuel : nat) (v v0 : Visitor) (visited : gset nat) :
  finalizeLoop rounds fuel ∅ v = Some (visited, v0) ->
  shortCircuit v0 = false ->
  (forall c t,
     c ∈ genericClasses v0 -> t ∈ specializationsOf c (compilation v0) ->
     t ∈ visited
     /\ forall n, Below design (specType design t) n ->
        forall l, l ∈ ownLazies design n ->
          lazyId l ∈ resolved (compilation v0))
  /\ ((forall c, c ∈ genericClasses v0 ->
         specializationsOf c (compilation v0) <> []) ->
      finalize rounds fuel v = Some (visited, v0)).
Proof.
  intros H Hopen. split.
  - intros c t Hc Ht.
    pose proof (finalizeLoop_all_seen _ _ _ _ _ _ _ _ _ H c t Hc Ht) as Hin.
    split; [exact Hin |].
    apply (finalizeLoop_elaborates _ _ _ _ _ _ H Hopen); [| exact Hin].
    intros t' Ht'. set_solver.
  - intros Hsome. unfold DiagnosticVisitor.finalize. rewrite H. simpl.
    now rewrite (visitUninstantiated_none design errorLimit maxInstanceDepth).
Qed.

(** ** A design that never bottoms out *)

Lemma shortCircuit_guardExit i v :
  shortCircuit (guardExit i v) = shortCircuit v.
Proof. reflexivity. Qed.

Lemma visitAll_reaches fuel j l : forall v v',
  visitAll (handle fuel) l v = Some v' ->
  InstanceSymbol j ∈ l ->
  (forall u u',
     activeInstanceBodies u = activeInstanceBodies v ->
     handle fuel (InstanceSymbol j) u = Some u' -> shortCircuit u' = true) ->
  shortCircuit v' = true.
Proof.
  induction l as [| s l IH]; intros v v' H Hin Hj; [inversion Hin |].
  rewrite visitAll_cons in H.
  destruct (handle fuel s v) as [v1 |] eqn:Hs; [| discriminate].
  apply elem_of_cons in Hin as [<- | Hin].
  - apply (sticky_shortCircuit errorLimit v1).
    + exact (visitAll_handle_stable _ _ _ _ (sticky_stable errorLimit maxInstanceDepth) _ _ _ _ H).
    + eapply Hj; [reflexivity | exact Hs].
  - eapply IH; [exact H | exact Hin |].
    intros u u' Hu. apply Hj. rewrite Hu.
    exact (handle_stable _ _ _ _ (keepsActive_stable _ _) _ _ _ _ Hs).
Qed.

Lemma recursion_stopped_aux (Hdesign : EveryBodyInstantiates design) n :
  forall fuel i v v',
    room maxInstanceDepth v <= n ->
    handle fuel (InstanceSymbol i) v = Some v' ->
    shortCircuit v' = true.
Proof.
  induction n as [| n IH]; intros fuel i v v' Hroom H;
    (destruct fuel as [| fuel]; [discriminate |]);
    simpl in H; unfold DiagnosticVisitor.handleInstance in H;
    (destruct (shortCircuit v) eqn:Hsc; [now injection H as <- |]);
    unfold DiagnosticVisitor.room in Hroom;
    (destruct (enterInstance_cases maxInstanceDepth i v)
       as [(_ & E) | [(_ & _ & E) | (Hnin & Hsize & E)]];
     rewrite E in H;
     [injection H as <-; apply shortCircuit_setHierarchyProblem
     |injection H as <-; apply shortCircuit_setHierarchyProblem |]);
    rewrite size_union in Hsize by set_solver;
    rewrite size_singleton in Hsize; [lia |].
  unfold DiagnosticVisitor.visitBody, DiagnosticVisitor.handleDefault in H.
  match type of H with
  | context [if shortCircuit ?v1 then _ else _] =>
      destruct (shortCircuit v1) eqn:Hsc1
  end.
  { simpl in H. injection H as <-. exact Hsc1. }
  match type of H with
  | context [visitAll ?h ?l ?u] =>
      destruct (visitAll h l u) as [v2 |] eqn:Hv; simpl in H; [| discriminate]
  end.
  injection H as <-. rewrite shortCircuit_guardExit.
  destruct (Hdesign (instBody i)) as (j & Hj).
  eapply visitAll_reaches; [exact Hv | exact Hj |].
  intros u u' Hu. apply IH.
  unfold DiagnosticVisitor.room. rewrite Hu. simpl.
  rewrite size_union by set_solver. rewrite size_singleton. lia.
Qed.

(** X18.  In a design where every body holds an instance, so that the
    hierarchy never bottoms out, the handler of any instance returns (for
    bodies of bounded height, given enough fuel), and it returns with the
    short circuit set: the elaboration was stopped by the recursion check,
    the depth cap or the error limit. *)
Theorem endless_hierarchy_is_stopped (bound : nat) (i : InstanceData) (v : Visitor) :
  EveryBodyInstantiates design ->
  (forall b, heights (bodyMembers design b) <= bound) ->
  (exists v',
      handle (enoughFuel maxInstanceDepth bound (InstanceSymbol i) v)
        (InstanceSymbol i) v = Some v')
  /\ (forall fuel v',
        handle fuel (InstanceSymbol i) v = Some v' -> shortCircuit v' = true).
Proof.
  intros Hdesign Hbound. split; [now apply handle_returns |].
  intros fuel v'.
  apply (recursion_stopped_aux Hdesign (room maxInstanceDepth v) fuel i v v').
  apply Nat.le_refl.
Qed.

End Facts.

(** ** The statements at the sample designs *)

Lemma depth_cap_stops_descent_witness :
  exists v',
    DiagnosticVisitor.handle Designs.selfInstantiating 10 0 1
      (InstanceSymbol Designs.attributedInner) Designs.start = Some v'
    /\ hierarchyProblem v' = true
    /\ activeInstanceBodies v' = activeInstanceBodies Designs.start.
Proof.
  destruct (depth_cap_stops_descent Designs.selfInstantiating 10 0 0
              Designs.attributedInner Designs.start)
    as [_ Hcap]; [reflexivity | vm_compute; set_solver |].
  destruct Hcap as (v' & Hv & _ & _ & Hh & Ha); [vm_compute; lia |].
  exists v'. repeat split; assumption.
Defined.

Lemma gathered_state_only_grows_witness :
  grows Designs.start Designs.selfElaborated
  /\ grows Designs.selfElaborated Designs.selfElaborated.
Proof.
  apply (gathered_state_only_grows Designs.selfInstantiating 10 128 1 10
           Designs.selfRoot Designs.start Designs.selfElaborated
           Designs.selfElaborated ∅); vm_compute; reflexivity.
Defined.

Lemma hierarchy_problem_iff_one_structural_diagnostic_witness :
  structuralDiags Designs.selfElaborated
  = (if hierarchyProblem Designs.selfElaborated then 1 else 0).
Proof.
  apply (hierarchy_problem_iff_one_structural_diagnostic
           Designs.selfInstantiating 10 128 1 10 Designs.selfRoot
           emptyCompilation Designs.selfElaborated Designs.selfElaborated ∅);
    vm_compute; reflexivity.
Defined.

Lemma finalize_under_short_circuit_witness :
  exists visited,
    DiagnosticVisitor.finalize Designs.growingClasses 10 128 2 1
      (setHierarchyProblem Designs.growingVisited)
    = Some (visited, setHierarchyProblem Designs.growingVisited)
    /\ AllSeen (genericClasses (setHierarchyProblem Designs.growingVisited))
         visited (setHierarchyProblem Designs.growingVisited).
Proof.
  apply (finalize_under_short_circuit Designs.growingClasses 10 128 0 0
           (setHierarchyProblem Designs.growingVisited)).
  reflexivity.
Defined.

Lemma finalize_loop_visits_only_specializations_witness :
  DiagnosticVisitor.finalizeLoop Designs.growingClasses 10 128 5 10 ∅
    Designs.growingVisited
  = Some Designs.growingLooped
  /\ forall t, t ∈ Designs.growingLooped.1 ->
       exists cls, cls ∈ genericClasses Designs.growingLooped.2
                   /\ t ∈ specializationsOf cls
                            (compilation Designs.growingLooped.2).
Proof.
  split; [vm_compute; reflexivity |].
  apply (finalize_loop_visits_only_specializations Designs.growingClasses
           10 128 5 10 Designs.growingVisited).
  vm_compute. reflexivity.
Defined.

Lemma traversal_resolves_every_lazy_member_witness :
  DiagnosticVisitor.shortCircuit 10 Designs.nestedVisited = false
  /\ 31 ∈ resolved (compilation Designs.nestedVisited).
Proof.
  split; [vm_compute; reflexivity |].
  assert (Hbelow : Below Designs.nestedDesign Designs.nestedRoot
                     Designs.nestedInnermost).
  { apply (Below_child _ _ (Designs.instance 1 "top" 0 0));
      [apply list_elem_of_singleton; reflexivity |].
    apply (Below_child _ _ (Designs.instance 2 "inner" 1 1));
      [apply list_elem_of_here |].
    apply (Below_child _ _ Designs.nestedInnermost);
      [apply list_elem_of_singleton; reflexivity |].
    apply Below_self. }
  apply (traversal_resolves_every_lazy_member Designs.nestedDesign 10 128 10
           Designs.nestedRoot Designs.start Designs.nestedVisited
           ltac:(vm_compute; reflexivity) ltac:(vm_compute; reflexivity)
           Designs.nestedInnermost Hbelow (mkLazy 31 [] [])).
  apply list_elem_of_singleton. reflexivity.
Defined.

Lemma finalize_loop_elaborates_every_specialization_witness :
  DiagnosticVisitor.shortCircuit 10 Designs.growingLooped.2 = false
  /\ specializationsOf 3 (compilation Designs.growingLooped.2) = [8; 9]
  /\ 8 ∈ Designs.growingLooped.1
  /\ 60 ∈ resolved (compilation Designs.growingLooped.2).
Proof.
  split; [vm_compute; reflexivity |].
  split; [vm_compute; reflexivity |].
  destruct (finalize_loop_elaborates_every_specialization Designs.growingClasses
              10 128 5 10 Designs.growingVisited Designs.growingLooped.2
              Designs.growingLooped.1
              ltac:(vm_compute; reflexivity) ltac:(vm_compute; reflexivity))
    as [Hall _].
  destruct (Hall 3 8) as [Hseen Hresolved].
  - apply list_elem_of_here.
  - apply list_elem_of_here.
  - split; [exact Hseen |].
    assert (Hbelow : Below Designs.growingClasses
                       (specType Designs.growingClasses 8)
                       (Designs.referring 81 60 [(3, 9); (4, 12)])).
    { apply (Below_child _ _ (Designs.referring 81 60 [(3, 9); (4, 12)]));
        [apply list_elem_of_singleton; reflexivity | apply Below_self]. }
    apply (Hresolved _ Hbelow (mkLazy 60 [] [(3, 9); (4, 12)])).
    apply list_elem_of_here.
Defined.

Lemma endless_hierarchy_is_stopped_witness :
  (exists v',
      DiagnosticVisitor.handle Designs.selfInstantiating 10 128
        (enoughFuel 128 1 (InstanceSymbol Designs.attributedInner) Designs.start)
        (InstanceSymbol Designs.attributedInner) Designs.start = Some v')
  /\ (forall fuel v',
        DiagnosticVisitor.handle Designs.selfInstantiating 10 128 fuel
          (InstanceSymbol Designs.attributedInner) Designs.start = Some v' ->
        DiagnosticVisitor.shortCircuit 10 v' = true).
Proof.
  apply (endless_hierarchy_is_stopped Designs.selfInstantiating 10 128 1
           Designs.attributedInner Designs.start).
  - intros b. exists (Designs.instanceData 2 "inner" 0 0 []). left.
  - intros b. simpl. lia.
Defined.

End DiagnosticVisitorMoreFacts.

(* ===================================================================== *)
(** * Further properties of [DefParamVisitor]                             *)
(* ===================================================================== *)

Module DefParamVisitorMoreFacts.

Import Ast DefParamVisitor AstFacts DefParamVisitorFacts.
Local Open Scope nat_scope.

Section Facts.

Context (design : Design).
Context (maxInstanceDepth generateLevel : nat).

Local Abbreviation handleInstance :=
  (DefParamVisitor.handleInstance design maxInstanceDepth generateLevel).
Local Abbreviation handleGenerateBlock :=
  (DefParamVisitor.handleGenerateBlock generateLevel).
Local Abbreviation handle :=
  (DefParamVisitor.handle design maxInstanceDepth generateLevel).

(** ** Relations every handler keeps *)

Section Kept.

Context (R : Visitor -> Visitor -> Prop).
Context (R_refl : forall v, R v v).
Context (R_trans : forall a b c, R a b -> R b c -> R a c).
Context (R_defparam : forall d v, R v (handleDefParam generateLevel d v)).
Context (R_instance : forall visit i v v',
  (forall s v v', visit s v = Some v' -> R v v') ->
  handleInstance visit i v = Some v' -> R v v').
Context (R_generate : forall visit inst members v v',
  (forall s v v', visit s v = Some v' -> R v v') ->
  handleGenerateBlock visit inst members v = Some v' -> R v v').

Lemma visitAll_kept visit l :
  (forall s v v', visit s v = Some v' -> R v v') ->
  forall v v', visitAll visit l v = Some v' -> R v v'.
Proof.
  intros Hvisit. induction l as [| s l IH]; intros v v' H; simpl in H.
  - injection H as <-. apply R_refl.
  - destruct (visit s v) as [v1 |] eqn:E; [| discriminate]. eauto.
Qed.

Lemma visitArrayMembers_kept visit l :
  (forall s v v', visit s v = Some v' -> R v v') ->
  forall v v', visitArrayMembers visit l v = Some v' -> R v v'.
Proof.
  intros Hvisit. induction l as [| s l IH]; intros v v' H; simpl in H.
  - injection H as <-. apply R_refl.
  - destruct (bool_decide (hierarchyProblem v ≠ None)).
    + injection H as <-. apply R_refl.
    + destruct (visit s v) as [v1 |] eqn:E; [| discriminate]. eauto.
Qed.

Lemma handle_kept fuel : forall s v v', handle fuel s v = Some v' -> R v v'.
Proof.
  induction fuel as [| fuel IH]; intros s v v' H; [discriminate |].
  destruct s as [i | inst d ms | d ms sub | k d body bn ms]; simpl in H.
  - eapply R_instance; eauto.
  - eapply R_generate; eauto.
  - injection H as <-. apply R_refl.
  - destruct k; try (injection H as <-; apply R_refl).
    + eapply visitAll_kept; eauto.
    + eapply visitAll_kept; eauto.
    + eapply visitArrayMembers_kept; eauto.
    + injection H as <-. apply R_defparam.
Qed.

End Kept.

(** The steps of [handleInstance] around the visit of the body. *)
Lemma handleInstance_cases visit i v v' :
  handleInstance visit i v = Some v' ->
  (hierarchyProblem v <> None /\ v' = v)
  \/ (hierarchyProblem v = None /\ maxInstanceDepth < instanceDepth v
      /\ v' = setHierarchyProblem (instId i) v)
  \/ (hierarchyProblem v = None /\ instanceDepth v <= maxInstanceDepth
      /\ exists v4 v5,
           visitAll visit (bodyMembers design (instBody i)) v4 = Some v5
           /\ instanceDepth v4 = S (instanceDepth v)
           /\ generateDepth v4 = generateDepth v
           /\ found v4 = found v
           /\ hierarchyProblem v4 = None
           /\ numBlocksSeen v <= numBlocksSeen v4
           /\ history v `prefix_of` history v4
           /\ (activeInstances v4 = activeInstances v
               \/ ((instDefinition i ∉ activeInstances v)
                   /\ activeInstances v4 = {[instDefinition i]} ∪ activeInstances v))
           /\ instanceDepth v' = pred (instanceDepth v5)
           /\ generateDepth v' = generateDepth v5
           /\ inRecursiveInstance v' = inRecursiveInstance v
           /\ found v' = found v5
           /\ hierarchyProblem v' = hierarchyProblem v5
           /\ numBlocksSeen v' = numBlocksSeen v5
           /\ history v' = history v5
           /\ (activeInstances v4 = activeInstances v ->
               activeInstances v' = activeInstances v5)
           /\ (instDefinition i ∉ activeInstances v ->
               activeInstances v4 = {[instDefinition i]} ∪ activeInstances v ->
               activeInstances v' = activeInstances v5 ∖ {[instDefinition i]})).
Proof.
  intros H. unfold DefParamVisitor.handleInstance in H.
  destruct (bool_decide (hierarchyProblem v ≠ None)) eqn:Hp.
  { apply bool_decide_eq_true in Hp. injection H as <-. now left. }
  apply bool_decide_eq_false in Hp.
  assert (hierarchyProblem v = None) as Hnone.
  { destruct (hierarchyProblem v); [exfalso; apply Hp; discriminate | done]. }
  right.
  destruct (maxInstanceDepth <? instanceDepth v) eqn:Hd.
  { apply Nat.ltb_lt in Hd. injection H as <-. now left. }
  apply Nat.ltb_ge in Hd. right. split; [done |]. split; [done |].
  match type of H with
  | (visitAll _ _ ?v4 ≫= _) = _ =>
      destruct (visitAll visit (bodyMembers design (instBody i)) v4)
        as [v5 |] eqn:E5; simpl in H; [| discriminate];
      exists v4, v5
  end.
  split; [exact E5 |]. injection H as <-.
  destruct (inRecursiveInstance v) eqn:Hrec; simpl.
  - destruct (generateDepth v <=? generateLevel); simpl;
      repeat split; try done; try lia; try (now apply prefix_app_r);
      try (now left); try (intros; set_solver).
  - destruct (bool_decide (instDefinition i ∉ activeInstances v)) eqn:Hins;
      simpl.
    + apply bool_decide_eq_true in Hins.
      destruct (generateDepth v <=? generateLevel); simpl;
        repeat split; try done; try lia; try (now apply prefix_app_r);
        try (right; done); try (intros; set_solver).
    + destruct (generateDepth v <=? generateLevel); simpl;
        repeat split; try done; try lia; try (now apply prefix_app_r);
        try (now left); try (intros; set_solver).
Qed.


Lemma handleGenerateBlock_cases visit inst members v v' :
  handleGenerateBlock visit inst members v = Some v' ->
  v' = v
  \/ (hierarchyProblem v = None
      /\ exists v3 v4,
           visitAll visit members v3 = Some v4
           /\ generateDepth v3 = S (generateDepth v)
           /\ instanceDepth v3 = instanceDepth v
           /\ inRecursiveInstance v3 = inRecursiveInstance v
           /\ activeInstances v3 = activeInstances v
           /\ found v3 = found v
           /\ hierarchyProblem v3 = None
           /\ numBlocksSeen v <= numBlocksSeen v3
           /\ history v `prefix_of` history v3
           /\ v' = setGenerateDepth (pred (generateDepth v4)) v4).
Proof.
  intros H. unfold DefParamVisitor.handleGenerateBlock in H.
  destruct inst; simpl in H; [| injection H as <-; now left].
  destruct (bool_decide (hierarchyProblem v ≠ None)) eqn:Hp;
    [injection H as <-; now left |].
  apply bool_decide_eq_false in Hp.
  assert (hierarchyProblem v = None) as Hnone.
  { destruct (hierarchyProblem v); [exfalso; apply Hp; discriminate | done]. }
  destruct ((generateLevel <=? generateDepth v) && negb (inRecursiveInstance v));
    [injection H as <-; now left |].
  right. split; [done |].
  match type of H with
  | (visitAll _ _ ?v3 ≫= _) = _ =>
      destruct (visitAll visit members v3) as [v4 |] eqn:E4; simpl in H;
        [| discriminate];
      exists v3, v4
  end.
  split; [exact E4 |]. injection H as <-.
  destruct (generateDepth v <? generateLevel); simpl;
    repeat split; try done; try lia; now apply prefix_app_r.
Qed.

Lemma Restored_handle fuel s v v' : handle fuel s v = Some v' -> Restored v v'.
Proof.
  revert fuel s v v'.
  apply (handle_kept Restored); unfold Restored.
  - done.
  - intros a b c (H1 & H2 & H3 & H4) (K1 & K2 & K3 & K4).
    repeat split; congruence.
  - intros d v. unfold handleDefParam.
    now destruct (generateDepth v <=? generateLevel).
  - intros visit i v v' Hvisit H.
    destruct (handleInstance_cases _ _ _ _ H)
      as [(_ & ->) | [(_ & _ & ->) | (_ & _ & v4 & v5 & Hv & Hrest)]];
      [done | done |].
    destruct (visitAll_kept Restored ltac:(done)
                ltac:(intros a b c (? & ? & ? & ?) (? & ? & ? & ?);
                      repeat split; congruence)
                visit _ Hvisit _ _ Hv) as (R1 & R2 & R3 & R4).
    destruct Hrest as (D4 & G4 & _ & _ & _ & _ & Hact & D' & G' & I' & _ & _ & _
                       & _ & Hsame & Hins).
    split; [lia |]. split; [congruence |]. split; [exact I' |].
    destruct Hact as [Hact | (Hnin & Hact)].
    + rewrite (Hsame Hact). congruence.
    + rewrite (Hins Hnin Hact), R4, Hact. set_solver.
  - intros visit inst members v v' Hvisit H.
    destruct (handleGenerateBlock_cases _ _ _ _ _ H)
      as [-> | (_ & v3 & v4 & Hv & G3 & D3 & I3 & A3 & _ & _ & _ & _ & ->)];
      [done |].
    destruct (visitAll_kept Restored ltac:(done)
                ltac:(intros a b c (? & ? & ? & ?) (? & ? & ? & ?);
                      repeat split; congruence)
                visit _ Hvisit _ _ Hv) as (R1 & R2 & R3 & R4).
    simpl. repeat split; try congruence. rewrite R2, G3. reflexivity.
Qed.

Lemma Kept_refl v : Kept v v.
Proof. unfold Kept. repeat split; done. Qed.

Lemma Kept_trans a b c : Kept a b -> Kept b c -> Kept a c.
Proof.
  intros (H1 & H2 & H3 & H4) (K1 & K2 & K3 & K4).
  split; [etrans; eauto |]. split; [lia |]. split; [etrans; eauto |].
  intros i Hi. destruct (H4 i Hi) as (Hb & Hn & Hh).
  destruct (K4 i Hb) as (Hc & Hn' & Hh'). repeat split; congruence.
Qed.

Lemma Kept_handle fuel s v v' : handle fuel s v = Some v' -> Kept v v'.
Proof.
  revert fuel s v v'.
  apply (handle_kept Kept).
  - apply Kept_refl.
  - apply Kept_trans.
  - intros d v. unfold handleDefParam.
    destruct (generateDepth v <=? generateLevel); [| apply Kept_refl].
    unfold Kept. simpl. split; [now apply prefix_app_r |]. repeat split; done.
  - intros visit i v v' Hvisit H.
    destruct (handleInstance_cases _ _ _ _ H)
      as [(_ & ->) | [(Hnone & _ & ->) | (Hnone & _ & v4 & v5 & Hv & Hrest)]].
    + apply Kept_refl.
    + unfold Kept. simpl. repeat split; try done; congruence.
    + destruct (visitAll_kept Kept Kept_refl Kept_trans visit _ Hvisit _ _ Hv)
        as (K1 & K2 & K3 & _).
      destruct Hrest as (_ & _ & F4 & _ & N4 & H4 & _ & _ & _ & _ & F' & _ & N' & H'
                         & _).
      unfold Kept. rewrite F', N', H'. rewrite F4 in K1.
      split; [exact K1 |]. split; [lia |]. split; [etrans; eauto |].
      intros j Hj. congruence.
  - intros visit inst members v v' Hvisit H.
    destruct (handleGenerateBlock_cases _ _ _ _ _ H)
      as [-> | (Hnone & v3 & v4 & Hv & _ & _ & _ & _ & F3 & _ & N3 & H3 & ->)];
      [apply Kept_refl |].
    destruct (visitAll_kept Kept Kept_refl Kept_trans visit _ Hvisit _ _ Hv)
      as (K1 & K2 & K3 & _).
    unfold Kept. simpl. rewrite F3 in K1.
    split; [exact K1 |]. split; [lia |]. split; [etrans; eauto |].
    intros j Hj. congruence.
Qed.

(** X19.  Every handler puts back what it changed on the way down: after
    it returns, the instance depth, the generate depth, the flag of the
    recursive probe and the set of active definitions are what they were
    before it ran. *)
Theorem scoped_state_is_restored (fuel : nat) (s : Symbol) (v v' : Visitor) :
  handle fuel s v = Some v' ->
  instanceDepth v' = instanceDepth v
  /\ generateDepth v' = generateDepth v
  /\ inRecursiveInstance v' = inRecursiveInstance v
  /\ activeInstances v' = activeInstances v.
Proof. apply Restored_handle. Qed.

(** X20.  A handler only adds: the defparams found so far stay, in
    their order, at the front of [found], and the counter of blocks does
    not go down.  A hierarchy problem, once set, stays the same instance,
    and from then on no block is counted or entered; only defparams can
    still be added. *)
Theorem hierarchy_problem_stops_counting
    (fuel : nat) (s : Symbol) (v v' : Visitor) :
  handle fuel s v = Some v' ->
  found v `prefix_of` found v'
  /\ numBlocksSeen v <= numBlocksSeen v'
  /\ (forall i, hierarchyProblem v = Some i ->
        hierarchyProblem v' = Some i
        /\ numBlocksSeen v' = numBlocksSeen v
        /\ history v' = history v).
Proof.
  intros H. destruct (Kept_handle _ _ _ _ H) as (H1 & H2 & _ & H4). done.
Qed.

(** ** A design that never bottoms out *)

Lemma members_reach fuel j l : forall v v',
  visitAll (handle fuel) l v = Some v' ->
  InstanceSymbol j ∈ l ->
  (forall u u',
     instanceDepth u = instanceDepth v ->
     handle fuel (InstanceSymbol j) u = Some u' -> hierarchyProblem u' <> None) ->
  hierarchyProblem v' <> None.
Proof.
  induction l as [| s l IH]; intros v v' H Hin Hj; [inversion Hin |].
  simpl in H.
  destruct (handle fuel s v) as [v1 |] eqn:Hs; [| discriminate].
  apply elem_of_cons in Hin as [<- | Hin].
  - assert (hierarchyProblem v1 <> None) as Hp by (eapply Hj; eauto).
    destruct (hierarchyProblem v1) as [k |] eqn:Hk; [| done].
    destruct (visitAll_kept Kept Kept_refl Kept_trans _ l
                (Kept_handle fuel) _ _ H) as (_ & _ & _ & Hkeep).
    destruct (Hkeep k Hk) as (-> & _). discriminate.
  - eapply IH; [exact H | exact Hin |].
    intros u u' Hu. apply Hj. rewrite Hu.
    apply (Restored_handle _ _ _ _ Hs).
Qed.

Lemma probe_stopped_aux
    (Hdesign : DiagnosticVisitor.EveryBodyInstantiates design) n :
  forall fuel i v v',
    room maxInstanceDepth v <= n ->
    handle fuel (InstanceSymbol i) v = Some v' ->
    hierarchyProblem v' <> None.
Proof.
  induction n as [| n IH]; intros fuel i v v' Hroom H;
    (destruct fuel as [| fuel]; [discriminate |]); simpl in H;
    unfold DefParamVisitor.room in Hroom;
    (destruct (handleInstance_cases _ _ _ _ H)
       as [(Hp & ->) | [(_ & _ & ->) | (_ & Hd & v4 & v5 & Hv & Hrest)]];
     [exact Hp | discriminate |]); [lia |].
  destruct Hrest as (D4 & _ & _ & _ & _ & _ & _ & _ & _ & _ & _ & -> & _).
  destruct (Hdesign (instBody i)) as (j & Hj).
  eapply members_reach; [exact Hv | exact Hj |].
  intros u u' Hu. apply IH. unfold DefParamVisitor.room. lia.
Qed.

(** X21.  In a design where every body holds an instance, so that the
    hierarchy never bottoms out, the handler of any instance returns (for
    bodies of bounded height, given enough fuel) with the hierarchy
    problem set: the probe has run into the maximum instance depth. *)
Theorem endless_hierarchy_sets_problem
    (bound : nat) (i : InstanceData) (v : Visitor) :
  DiagnosticVisitor.EveryBodyInstantiates design ->
  (forall b, heights (bodyMembers design b) <= bound) ->
  (exists v',
      handle (enoughFuel maxInstanceDepth bound (InstanceSymbol i) v)
        (InstanceSymbol i) v = Some v')
  /\ (forall fuel v',
        handle fuel (InstanceSymbol i) v = Some v' ->
        hierarchyProblem v' <> None).
Proof.
  intros Hdesign Hbound. split; [now apply traversal_returns |].
  intros fuel v'.
  apply (probe_stopped_aux Hdesign (room maxInstanceDepth v) fuel i v v').
  apply Nat.le_refl.
Qed.

End Facts.

(** ** Two generate levels *)

Section Levels.

Context (design : Design).
Context (maxInstanceDepth low high : nat).
Context (Hlevels : low <= high).

Local Abbreviation lower := (DefParamVisitor.handle design maxInstanceDepth low).
Local Abbreviation higher := (DefParamVisitor.handle design maxInstanceDepth high).

Lemma Kept_problem_free v v' :
  Kept v v' -> hierarchyProblem v' = None -> hierarchyProblem v = None.
Proof.
  intros (_ & _ & _ & K) Hn.
  destruct (hierarchyProblem v) as [i |] eqn:Hi; [| done].
  destruct (K i eq_refl) as (E & _). congruence.
Qed.

Lemma Behind_later v1 v2 v2' :
  Behind v1 v2 -> Restored v2 v2' -> Kept v2 v2' -> Behind v1 v2'.
Proof.
  intros (D & G & I & A & F & P) (R1 & R2 & R3 & R4) ((k & K) & _).
  unfold Behind. rewrite R1, R2, R3, R4, K.
  repeat split; try done. now apply sublist_inserts_r.
Qed.

Local Abbreviation Simulated f1 :=
  (forall f2 s v1 v2 v1' v2',
     Behind v1 v2 ->
     lower f1 s v1 = Some v1' -> higher f2 s v2 = Some v2' ->
     hierarchyProblem v2' = None ->
     Behind v1' v2').

Lemma members_behind f1 f2 l :
  Simulated f1 ->
  forall v1 v2 v1' v2',
    Behind v1 v2 ->
    visitAll (lower f1) l v1 = Some v1' -> visitAll (higher f2) l v2 = Some v2' ->
    hierarchyProblem v2' = None ->
    Behind v1' v2'.
Proof.
  intros Hsim. induction l as [| s l IH]; intros v1 v2 v1' v2' Hb H1 H2 Hn;
    simpl in H1, H2.
  - injection H1 as <-. now injection H2 as <-.
  - destruct (lower f1 s v1) as [u1 |] eqn:E1; [| discriminate].
    destruct (higher f2 s v2) as [u2 |] eqn:E2; [| discriminate].
    apply (IH u1 u2); [| done | done | done].
    apply (Hsim f2 s v1 v2); [done | done | done |].
    apply (Kept_problem_free u2 v2'); [| done].
    exact (visitAll_kept Kept Kept_refl Kept_trans _ l
             (Kept_handle design maxInstanceDepth high f2) _ _ H2).
Qed.

Lemma array_members_behind f1 f2 l :
  Simulated f1 ->
  forall v1 v2 v1' v2',
    Behind v1 v2 ->
    visitArrayMembers (lower f1) l v1 = Some v1' ->
    visitArrayMembers (higher f2) l v2 = Some v2' ->
    hierarchyProblem v2' = None ->
    Behind v1' v2'.
Proof.
  intros Hsim. induction l as [| s l IH]; intros v1 v2 v1' v2' Hb H1 H2 Hn.
  - simpl in H1, H2. injection H1 as <-. now injection H2 as <-.
  - assert (P2 : hierarchyProblem v2 = None).
    { apply (Kept_problem_free v2 v2'); [| done].
      exact (visitArrayMembers_kept Kept Kept_refl Kept_trans _ (s :: l)
               (Kept_handle design maxInstanceDepth high f2) _ _ H2). }
    assert (P1 : hierarchyProblem v1 = None) by apply Hb.
    simpl in H1, H2. rewrite P1 in H1. rewrite P2 in H2.
    rewrite bool_decide_eq_false_2 in H1 by (intros X; now apply X).
    rewrite bool_decide_eq_false_2 in H2 by (intros X; now apply X).
    destruct (lower f1 s v1) as [u1 |] eqn:E1; [| discriminate].
    destruct (higher f2 s v2) as [u2 |] eqn:E2; [| discriminate].
    apply (IH u1 u2); [| done | done | done].
    apply (Hsim f2 s v1 v2); [done | done | done |].
    apply (Kept_problem_free u2 v2'); [| done].
    exact (visitArrayMembers_kept Kept Kept_refl Kept_trans _ l
             (Kept_handle design maxInstanceDepth high f2) _ _ H2).
Qed.

Lemma handle_behind f1 : Simulated f1.
Proof.
  induction f1 as [| f1 IH]; intros f2 s v1 v2 v1' v2' Hb H1 H2 Hn;
    [discriminate |].
  destruct f2 as [| f2]; [discriminate |].
  assert (P2 : hierarchyProblem v2 = None).
  { apply (Kept_problem_free v2 v2'); [| done].
    exact (Kept_handle _ _ _ _ _ _ _ H2). }
  pose proof (Restored_handle _ _ _ _ _ _ _ H2) as Hrestored.
  pose proof (Kept_handle _ _ _ _ _ _ _ H2) as Hkept.
  pose proof Hb as (D & G & I & A & F & P1).
  destruct s as [i | inst d ms | d ms sub | k d body bn ms]; simpl in H1, H2.
  - clear Hrestored Hkept.
    unfold DefParamVisitor.handleInstance in H1, H2.
    rewrite P1 in H1. rewrite P2 in H2.
    rewrite bool_decide_eq_false_2 in H1 by (intros X; now apply X).
    rewrite bool_decide_eq_false_2 in H2 by (intros X; now apply X).
    rewrite D in H1.
    destruct (maxInstanceDepth <? instanceDepth v2).
    { injection H2 as <-. discriminate. }
    match type of H1 with
    | (visitAll _ _ ?e ≫= _) = _ =>
        set (e1 := e) in H1;
        destruct (visitAll (lower f1) (bodyMembers design (instBody i)) e1)
          as [u1 |] eqn:E1; simpl in H1; [| discriminate]
    end.
    match type of H2 with
    | (visitAll _ _ ?e ≫= _) = _ =>
        set (e2 := e) in H2;
        destruct (visitAll (higher f2) (bodyMembers design (instBody i)) e2)
          as [u2 |] eqn:E2; simpl in H2; [| discriminate]
    end.
    assert (Hentry : Behind e1 e2).
    { subst e1 e2. unfold Behind. rewrite I, A.
      destruct (inRecursiveInstance v2) eqn:Erec;
        [| destruct (bool_decide (instDefinition i ∉ activeInstances v2))];
        simpl; rewrite ?G;
        destruct (generateDepth v2 <=? low), (generateDepth v2 <=? high);
        simpl; repeat split; congruence. }
    injection H1 as <-. injection H2 as <-.
    assert (Hn2 : hierarchyProblem u2 = None).
    { revert Hn.
      destruct (negb (inRecursiveInstance v2)
                && bool_decide (instDefinition i ∉ activeInstances v2)); done. }
    destruct (members_behind f1 f2 _ IH _ _ _ _ Hentry E1 E2 Hn2)
      as (D' & G' & I' & A' & F' & P').
    unfold Behind. rewrite I, A.
    destruct (negb (inRecursiveInstance v2)
              && bool_decide (instDefinition i ∉ activeInstances v2));
      simpl; repeat split; congruence.
  - unfold DefParamVisitor.handleGenerateBlock in H1, H2.
    destruct inst; simpl in H1, H2;
      [| injection H1 as <-; now injection H2 as <-].
    rewrite P1 in H1. rewrite P2 in H2.
    rewrite bool_decide_eq_false_2 in H1 by (intros X; now apply X).
    rewrite bool_decide_eq_false_2 in H2 by (intros X; now apply X).
    rewrite G, I in H1.
    destruct ((low <=? generateDepth v2) && negb (inRecursiveInstance v2))
      eqn:Hlow.
    { injection H1 as <-. exact (Behind_later _ _ _ Hb Hrestored Hkept). }
    clear Hrestored Hkept.
    assert ((high <=? generateDepth v2) && negb (inRecursiveInstance v2) = false)
      as Hhigh.
    { apply andb_false_iff in Hlow as [Hlow | Hlow];
        [| rewrite Hlow; apply andb_false_r].
      apply Nat.leb_gt in Hlow. apply andb_false_iff. left.
      apply Nat.leb_gt. lia. }
    rewrite Hhigh in H2.
    match type of H1 with
    | (visitAll _ _ ?e ≫= _) = _ =>
        set (e1 := e) in H1;
        destruct (visitAll (lower f1) ms e1) as [u1 |] eqn:E1; simpl in H1;
          [| discriminate]
    end.
    match type of H2 with
    | (visitAll _ _ ?e ≫= _) = _ =>
        set (e2 := e) in H2;
        destruct (visitAll (higher f2) ms e2) as [u2 |] eqn:E2; simpl in H2;
          [| discriminate]
    end.
    assert (Hentry : Behind e1 e2).
    { subst e1 e2. unfold Behind. simpl. rewrite ?G.
      destruct (generateDepth v2 <? low), (generateDepth v2 <? high);
        simpl; repeat split; congruence. }
    injection H1 as <-. injection H2 as <-.
    destruct (members_behind f1 f2 _ IH _ _ _ _ Hentry E1 E2 Hn)
      as (D' & G' & I' & A' & F' & P').
    unfold Behind. simpl. repeat split; congruence.
  - injection H1 as <-. now injection H2 as <-.
  - destruct k; try (injection H1 as <-; now injection H2 as <-).
    + exact (members_behind f1 f2 _ IH _ _ _ _ Hb H1 H2 Hn).
    + exact (members_behind f1 f2 _ IH _ _ _ _ Hb H1 H2 Hn).
    + exact (array_members_behind f1 f2 _ IH _ _ _ _ Hb H1 H2 Hn).
    + injection H1 as <-. injection H2 as <-. unfold handleDefParam.
      rewrite G. unfold Behind.
      destruct (generateDepth v2 <=? low) eqn:El.
      * apply Nat.leb_le in El.
        rewrite (proj2 (Nat.leb_le _ _)) by lia. simpl.
        repeat split; try done. now apply sublist_app.
      * destruct (generateDepth v2 <=? high); simpl; repeat split; try done.
        now apply sublist_inserts_r.
Qed.

(** X22.  Raising the generate level loses no defparam: when the
    traversal at the higher level ends without a hierarchy problem, the
    traversal at the lower level ends without one too, and every defparam
    it found is found at the higher level, in the same order. *)
Theorem higher_level_finds_no_less
    (fuel1 fuel2 : nat) (s : Symbol) (v1 v2 : Visitor) :
  lower fuel1 s newVisitor = Some v1 ->
  higher fuel2 s newVisitor = Some v2 ->
  hierarchyProblem v2 = None ->
  hierarchyProblem v1 = None /\ found v1 `sublist_of` found v2.
Proof.
  intros H1 H2 Hn.
  assert (Hstart : Behind newVisitor newVisitor) by (repeat split; done).
  destruct (handle_behind fuel1 fuel2 s _ _ _ _ Hstart H1 H2 Hn)
    as (_ & _ & _ & _ & F & P).
  done.
Qed.

End Levels.

(** ** The statements at the probing design *)

Lemma scoped_state_is_restored_witness :
  instanceDepth Designs.probed = instanceDepth newVisitor
  /\ generateDepth Designs.probed = generateDepth newVisitor
  /\ inRecursiveInstance Designs.probed = inRecursiveInstance newVisitor
  /\ activeInstances Designs.probed = activeInstances newVisitor.
Proof.
  apply (scoped_state_is_restored Designs.probing 128 0 10 Designs.probingRoot
           newVisitor Designs.probed).
  vm_compute. reflexivity.
Defined.

Lemma hierarchy_problem_stops_counting_witness :
  found newVisitor `prefix_of` found Designs.probed
  /\ numBlocksSeen newVisitor <= numBlocksSeen Designs.probed
  /\ (forall i, hierarchyProblem newVisitor = Some i ->
        hierarchyProblem Designs.probed = Some i
        /\ numBlocksSeen Designs.probed = numBlocksSeen newVisitor
        /\ history Designs.probed = history newVisitor).
Proof.
  apply (hierarchy_problem_stops_counting Designs.probing 128 0 10
           Designs.probingRoot newVisitor Designs.probed).
  vm_compute. reflexivity.
Defined.

Lemma endless_hierarchy_sets_problem_witness :
  (exists v',
      DefParamVisitor.handle Designs.selfInstantiating 128 0
        (enoughFuel 128 1 (InstanceSymbol Designs.attributedInner) newVisitor)
        (InstanceSymbol Designs.attributedInner) newVisitor = Some v')
  /\ (forall fuel v',
        DefParamVisitor.handle Designs.selfInstantiating 128 0 fuel
          (InstanceSymbol Designs.attributedInner) newVisitor = Some v' ->
        hierarchyProblem v' <> None).
Proof.
  apply (endless_hierarchy_sets_problem Designs.selfInstantiating 128 0 1
           Designs.attributedInner newVisitor).
  - intros b. exists (Designs.instanceData 2 "inner" 0 0 []). left.
  - intros b. simpl. lia.
Defined.

Lemma higher_level_finds_no_less_witness :
  hierarchyProblem Designs.probed = None
  /\ found Designs.probed `sublist_of` found Designs.probedDeeper.
Proof.
  apply (higher_level_finds_no_less Designs.probing 128 0 1 ltac:(lia) 10 10
           Designs.probingRoot Designs.probed Designs.probedDeeper);
    vm_compute; reflexivity.
Defined.

End DefParamVisitorMoreFacts.


(* ===================================================================== *)
(** * Properties of [BindVisitor]                                         *)
(* ===================================================================== *)

Module BindVisitorFacts.

Import Ast BindVisitor AstFacts.
Local Open Scope nat_scope.

Lemma bodyBound_unfold s :
  bodyBound s
  = match s with
    | InstanceSymbol i => S (instBody i)
    | GenerateBlockSymbol _ _ members => bodyBounds members
    | MethodPrototypeSymbol _ members subroutine =>
        Nat.max (bodyBounds members)
          match subroutine with
          | Some sub => bodyBound sub
          | None => 0
          end
    | Node _ _ _ bodyNodes members =>
        Nat.max (bodyBounds bodyNodes) (bodyBounds members)
    end.
Proof. destruct s; reflexivity. Qed.

Section Facts.

Context (design : Design).
Context (expected : nat).
Context (directives : ScopeRef -> list nat).

Local Abbreviation handle := (BindVisitor.handle design expected directives).
Local Abbreviation visitDefault := (BindVisitor.visitDefault directives).

(** ** An induction over the handlers *)

Section Kept.

Context (R : Visitor -> Visitor -> Prop).
Context (R_refl : forall v, R v v).
Context (R_trans : forall a b c, R a b -> R b c -> R a c).
Context (R_note : forall r v, R v (noteDirectives directives r v)).
Context (R_errored : forall v,
  R v (mkVisitor (foundDirectives v) (visitedInstances v) true (history v))).
Context (R_enter : forall b v,
  b ∉ visitedInstances v ->
  R v (mkVisitor (foundDirectives v) ({[b]} ∪ visitedInstances v)
         (errored v) (history v ++ [b]))).

Lemma bind_visitAll_kept visit l :
  (forall s v v', visit s v = Some v' -> R v v') ->
  forall v v', visitAll visit l v = Some v' -> R v v'.
Proof.
  intros Hvisit. induction l as [| s l IH]; intros v v' H; simpl in H.
  - injection H as <-. apply R_refl.
  - destruct (visit s v) as [v1 |] eqn:E; [| discriminate]. eauto.
Qed.

Lemma bind_visitDefault_kept visit r l v v' :
  (forall s v v', visit s v = Some v' -> R v v') ->
  visitDefault visit r l v = Some v' -> R v v'.
Proof.
  intros Hvisit H. unfold BindVisitor.visitDefault in H.
  eapply R_trans; [apply (R_note r) | eapply bind_visitAll_kept; eauto].
Qed.

Lemma bind_handle_kept fuel : forall s v v', handle fuel s v = Some v' -> R v v'.
Proof.
  induction fuel as [| fuel IH]; intros s v v' H; [discriminate |].
  destruct s as [i | inst d ms | d ms sub | k d body bn ms]; simpl in H.
  - unfold handleInstance in H.
    destruct (allFound expected v); [injection H as <-; apply R_refl |].
    case_decide as Hin; [injection H as <-; apply R_errored |].
    eapply R_trans; [apply (R_enter _ _ Hin) |].
    eapply bind_visitDefault_kept; eauto.
  - destruct (allFound expected v || negb inst);
      [injection H as <-; apply R_refl |].
    eapply bind_visitDefault_kept; eauto.
  - injection H as <-. apply R_refl.
  - destruct k; try (injection H as <-; apply R_refl).
    + eapply bind_visitDefault_kept; eauto.
    + destruct (allFound expected v); [injection H as <-; apply R_refl |].
      eapply bind_visitDefault_kept; eauto.
    + unfold handleGenerateBlockArray in H.
      destruct (allFound expected v); [injection H as <-; apply R_refl |].
      destruct ms as [| m ms].
      * injection H as <-. apply R_note.
      * eapply R_trans; [apply R_note | eauto].
Qed.

End Kept.

Lemma bind_Kept_handle fuel s v v' : handle fuel s v = Some v' -> Kept v v'.
Proof.
  revert fuel s v v'. apply (bind_handle_kept Kept); unfold Kept.
  - intros v. repeat split; done.
  - intros a b c (H1 & H2 & H3 & H4) (K1 & K2 & K3 & K4).
    split; [set_solver |]. split; [set_solver |].
    split; [etrans; eauto | auto].
  - intros r v. simpl. split; [set_solver |]. repeat split; done.
  - intros v. simpl. repeat split; done.
  - intros b v _. simpl. split; [done |]. split; [set_solver |].
    split; [now apply prefix_app_r | done].
Qed.

Lemma VisitedOnce_handle fuel s v v' :
  handle fuel s v = Some v' -> VisitedOnce v -> VisitedOnce v'.
Proof.
  revert fuel s v v'.
  apply (bind_handle_kept (fun v v' => VisitedOnce v -> VisitedOnce v'));
    unfold VisitedOnce; simpl; try done.
  - auto.
  - intros b v Hnew [Hnd Hiff]. split.
    + apply NoDup_app. split; [done |]. split; [| apply NoDup_singleton].
      intros x Hx Hx'. apply list_elem_of_singleton in Hx'. subst x.
      apply Hnew. now apply Hiff.
    + intros x. rewrite elem_of_app, list_elem_of_singleton, Hiff. set_solver.
Qed.

(** X23.  From a fresh visitor, the bodies the traversal went into are
    exactly the bodies in [visitedInstances], and it went into each of
    them once: a body met again is not gone into a second time. *)
Theorem each_body_visited_once
    (fuel : nat) (s : Symbol) (found : gset nat) (v' : Visitor) :
  handle fuel s (newVisitor found) = Some v' ->
  NoDup (history v')
  /\ forall b, b ∈ history v' <-> b ∈ visitedInstances v'.
Proof.
  intros H. apply (VisitedOnce_handle _ _ _ _ H).
  split; [apply NoDup_nil_2 |]. intros b. simpl. set_solver.
Qed.

(** X24.  No handler takes anything back: the directives found and the
    bodies visited only gain elements, and [errored], once set, stays
    set. *)
Theorem bind_visitor_only_adds (fuel : nat) (s : Symbol) (v v' : Visitor) :
  handle fuel s v = Some v' ->
  foundDirectives v ⊆ foundDirectives v'
  /\ visitedInstances v ⊆ visitedInstances v'
  /\ (errored v = true -> errored v' = true).
Proof.
  intros H. destruct (bind_Kept_handle _ _ _ _ H) as (H1 & H2 & _ & H4). done.
Qed.


(** ** The traversal returns without a depth limit *)

Section Termination.

Context (universe bound : nat).
Context (Hheights : forall b, heights (bodyMembers design b) <= bound).
Context (Hbodies : forall b, bodyBounds (bodyMembers design b) <= universe).

Local Abbreviation room := (BindVisitor.room universe).
Local Abbreviation Bounded v := (visitedInstances v ⊆ bodiesBelow universe).

Lemma visitAll_bounded visit l :
  (forall s v v', visit s v = Some v' -> bodyBound s <= universe ->
                  Bounded v -> Bounded v') ->
  forall v v', visitAll visit l v = Some v' -> bodyBounds l <= universe ->
               Bounded v -> Bounded v'.
Proof.
  intros Hvisit. induction l as [| s l IH]; intros v v' H Hl Hv; simpl in *.
  - now injection H as <-.
  - destruct (visit s v) as [v1 |] eqn:E; [| discriminate].
    eapply IH; [exact H | lia |]. eapply Hvisit; [exact E | lia | exact Hv].
Qed.

Lemma handle_bounded fuel : forall s v v',
  handle fuel s v = Some v' -> bodyBound s <= universe ->
  Bounded v -> Bounded v'.
Proof.
  induction fuel as [| fuel IH]; intros s v v' H Hs Hv; [discriminate |].
  rewrite bodyBound_unfold in Hs.
  destruct s as [i | inst d ms | d ms sub | k d body bn ms]; simpl in H.
  - unfold handleInstance in H.
    destruct (allFound expected v); [now injection H as <- |].
    case_decide as Hin; [now injection H as <- |].
    unfold BindVisitor.visitDefault in H.
    eapply (visitAll_bounded _ _ IH); [exact H | apply Hbodies |].
    simpl. unfold bodiesBelow in *.
    assert (instBody i ∈ (set_seq 0 universe : gset nat))
      by (apply elem_of_set_seq; lia).
    set_solver.
  - destruct (allFound expected v || negb inst); [now injection H as <- |].
    eapply (visitAll_bounded _ _ IH); [exact H | exact Hs | exact Hv].
  - now injection H as <-.
  - destruct k; try (now injection H as <-).
    + eapply (visitAll_bounded _ _ IH); [exact H | lia | exact Hv].
    + destruct (allFound expected v); [now injection H as <- |].
      eapply (visitAll_bounded _ _ IH); [exact H | lia | exact Hv].
    + unfold handleGenerateBlockArray in H.
      destruct (allFound expected v); [now injection H as <- |].
      destruct ms as [| m ms]; [now injection H as <- |].
      eapply IH; [exact H | simpl in Hs; lia | exact Hv].
Qed.

Lemma room_shrinks v v' : Kept v v' -> Bounded v' -> room v' <= room v.
Proof.
  intros (_ & Hsub & _) _. unfold BindVisitor.room.
  apply subseteq_size in Hsub. lia.
Qed.

Local Abbreviation Returns fuel :=
  (forall s v,
     bodyBound s <= universe -> Bounded v ->
     height s + room v * (bound + 2) <= fuel ->
     exists v', handle fuel s v = Some v').

Lemma bind_members_return fuel l : forall v,
  Returns fuel ->
  bodyBounds l <= universe -> Bounded v ->
  heights l + room v * (bound + 2) <= fuel ->
  exists v', visitAll (handle fuel) l v = Some v'.
Proof.
  induction l as [| s l IH]; intros v Hret Hl Hv Hfuel; [now exists v |].
  simpl in *.
  destruct (Hret s v) as (v1 & Hv1); [lia | done | lia |]. rewrite Hv1.
  pose proof (handle_bounded _ _ _ _ Hv1 ltac:(lia) Hv) as Hb1.
  pose proof (room_shrinks _ _ (bind_Kept_handle _ _ _ _ Hv1) Hb1) as Hr.
  apply IH; [done | lia | done | nia].
Qed.

Lemma bind_traversal_returns_aux fuel : Returns fuel.
Proof.
  induction fuel as [| fuel IH]; intros s v Hs Hv Hfuel;
    rewrite height_unfold in Hfuel; rewrite bodyBound_unfold in Hs.
  { destruct s; simpl in Hfuel; lia. }
  destruct s as [i | inst d ms | d ms sub | k d body bn ms]; simpl.
  - unfold handleInstance.
    destruct (allFound expected v); [eauto |].
    case_decide as Hin; [eauto |].
    unfold BindVisitor.visitDefault.
    assert (Hb : instBody i ∈ bodiesBelow universe)
      by (apply elem_of_set_seq; lia).
    assert (Hsize : S (size (visitedInstances v)) <= universe).
    { rewrite <- (size_set_seq (C := gset nat) 0 universe).
      replace (S (size (visitedInstances v)))
        with (size ({[instBody i]} ∪ visitedInstances v)).
      - apply subseteq_size. unfold bodiesBelow in *. set_solver.
      - rewrite size_union by set_solver. now rewrite size_singleton. }
    apply bind_members_return; [exact IH | apply Hbodies | |].
    + simpl. unfold bodiesBelow in *. set_solver.
    + pose proof (Hheights (instBody i)).
      unfold BindVisitor.room in *. simpl.
      rewrite size_union by set_solver. rewrite size_singleton. nia.
  - destruct (allFound expected v || negb inst); [eauto |].
    apply bind_members_return; [exact IH | exact Hs | exact Hv |].
    change (room (noteDirectives directives (SymbolScope (symId d)) v))
      with (room v). lia.
  - eauto.
  - assert (forall r, exists v',
              visitAll (handle fuel) ms (noteDirectives directives r v) = Some v')
      as Hms.
    { intros r. apply bind_members_return; [exact IH | lia | exact Hv |].
      change (room (noteDirectives directives r v)) with (room v). lia. }
    destruct k; simpl; eauto.
    + destruct (allFound expected v); eauto.
    + unfold handleGenerateBlockArray.
      destruct (allFound expected v); [eauto |].
      destruct ms as [| m ms']; [eauto |].
      apply IH; [simpl in Hs; lia | exact Hv |].
      change (room (noteDirectives directives (SymbolScope (symId d)) v))
        with (room v). simpl in Hfuel. lia.
Qed.

End Termination.

(** X25.  The traversal needs no limit on the depth: in a design with
    finitely many bodies (all below [universe]) of bounded height it
    returns, however the instances refer to one another, because no body
    is gone into twice. *)
Theorem bind_traversal_returns
    (universe bound : nat) (s : Symbol) (found : gset nat) :
  (forall b, heights (bodyMembers design b) <= bound) ->
  (forall b, bodyBounds (bodyMembers design b) <= universe) ->
  bodyBound s <= universe ->
  exists v',
    handle (enoughFuel universe bound s (newVisitor found)) s (newVisitor found)
    = Some v'.
Proof.
  intros Hheights Hbodies Hs.
  apply (bind_traversal_returns_aux universe bound Hheights Hbodies);
    [exact Hs | simpl; set_solver | unfold enoughFuel; lia].
Qed.

End Facts.

(** ** The statements at the self-instantiating design *)

Lemma each_body_visited_once_witness :
  NoDup (history Designs.bindTraversed)
  /\ forall b, b ∈ history Designs.bindTraversed
               <-> b ∈ visitedInstances Designs.bindTraversed.
Proof.
  apply (each_body_visited_once Designs.selfInstantiating 3
           Designs.bindDirectives 10 Designs.selfRoot ∅ Designs.bindTraversed).
  vm_compute. reflexivity.
Defined.

Lemma bind_visitor_only_adds_witness :
  foundDirectives (newVisitor ∅) ⊆ foundDirectives Designs.bindTraversed
  /\ visitedInstances (newVisitor ∅) ⊆ visitedInstances Designs.bindTraversed
  /\ (errored (newVisitor ∅) = true -> errored Designs.bindTraversed = true).
Proof.
  apply (bind_visitor_only_adds Designs.selfInstantiating 3
           Designs.bindDirectives 10 Designs.selfRoot (newVisitor ∅)
           Designs.bindTraversed).
  vm_compute. reflexivity.
Defined.

Lemma bind_traversal_returns_witness :
  exists v',
    BindVisitor.handle Designs.selfInstantiating 3 Designs.bindDirectives
      (enoughFuel 1 1 Designs.selfRoot (newVisitor ∅)) Designs.selfRoot
      (newVisitor ∅)
    = Some v'.
Proof.
  apply (bind_traversal_returns Designs.selfInstantiating 3
           Designs.bindDirectives 1 1 Designs.selfRoot ∅).
  - intros b. simpl. lia.
  - intros b. simpl. lia.
  - simpl. lia.
Defined.

End BindVisitorFacts.
